(** * mailpost: content extraction and image-reference resolution

    A shallow embedding of [main.go] of the mailpost repository: the
    path templater, the filename sanitizer, the MIME descent, the
    post/image collectors, the remote retrieval pass and the reference
    resolver, followed by the properties of the specification that
    concern them.

    Representation.  A Go [string] is modelled by the sequence of runes
    that [range], package [regexp] and [strings.ToLower] see when they
    decode it ([gostring := list rune], a rune being a [Z] code point).
    Strings are taken to be valid UTF-8, so that the search of a
    substring by bytes ([strings.Index], [strings.Replace],
    [strings.HasPrefix]) is the search by runes; all the literals of
    the program are ASCII, for which runes and bytes coincide.  The
    separator of package [path/filepath] is ['/'] (the program is
    modelled on a Unix system). *)

From Stdlib Require Import String Ascii ZArith Arith Bool Lia List.
Import ListNotations.

Local Open Scope Z_scope.
Local Open Scope list_scope.

(* ================================================================= *)
(** ** Go strings *)

Abbreviation rune := Z (only parsing).
Abbreviation gostring := (list Z) (only parsing).

(** [go "abc"] is the Go string literal ["abc"]. *)
Definition go (s : string) : gostring :=
  map (fun a => Z.of_N (N_of_ascii a)) (list_ascii_of_string s).

Fixpoint gostring_eqb (a b : gostring) : bool :=
  match a, b with
  | [], [] => true
  | x :: a', y :: b' => (x =? y) && gostring_eqb a' b'
  | _, _ => false
  end.

Definition is_empty (s : gostring) : bool :=
  match s with [] => true | _ => false end.

(** The double quote, kept out of string literals. *)
Definition dquote : rune := 34.

(* ================================================================= *)
(** ** Package [strings] *)

Module strings.

(** [strings.HasPrefix]. *)
Fixpoint HasPrefix (s prefix : gostring) {struct prefix} : bool :=
  match prefix with
  | [] => true
  | p :: prefix' =>
      match s with
      | [] => false
      | c :: s' => (c =? p) && HasPrefix s' prefix'
      end
  end.

(** [strings.Index]: the offset of the first instance of [sep] in
    [s]; Go's [-1] is [None]. *)
Fixpoint Index (s sep : gostring) : option nat :=
  if HasPrefix s sep then Some O
  else match s with
       | [] => None
       | _ :: s' => option_map S (Index s' sep)
       end.

(** [strings.Contains]. *)
Definition Contains (s sep : gostring) : bool :=
  match Index s sep with Some _ => true | None => false end.

(** The replacement loop of [strings.Replace] for a non-empty [old]:
    at most [k] replacements, each at the first instance of [old] in
    what is left of [s]. *)
Fixpoint replace_loop (k : nat) (s old new : gostring) : gostring :=
  match k with
  | O => s
  | S k' =>
      match Index s old with
      | None => s
      | Some j =>
          firstn j s ++ new
            ++ replace_loop k' (skipn (j + length old) s) old new
      end
  end.

(** The same loop when [old] is empty: [new] is inserted at the start
    of the string and then after each rune, [k] times at most. *)
Fixpoint replace_empty (k : nat) (s new : gostring) : gostring :=
  match k with
  | O => s
  | S k' =>
      new ++ match s with
             | [] => []
             | c :: s' => c :: replace_empty k' s' new
             end
  end.

(** [strings.Replace(s, old, new, n)]: the first [n] non-overlapping
    instances of [old] replaced by [new]; no limit when [n < 0]. *)
Definition Replace (s old new : gostring) (n : Z) : gostring :=
  if gostring_eqb old new || (n =? 0) then s
  else
    let k := if n <? 0 then S (length s) else Z.to_nat n in
    if is_empty old then replace_empty k s new
    else replace_loop k s old new.

Definition in_cutset (cutset : gostring) (c : rune) : bool :=
  existsb (Z.eqb c) cutset.

(** [strings.TrimLeft]. *)
Fixpoint TrimLeft (s cutset : gostring) : gostring :=
  match s with
  | [] => []
  | c :: s' => if in_cutset cutset c then TrimLeft s' cutset else s
  end.

(** [strings.TrimRight]. *)
Definition TrimRight (s cutset : gostring) : gostring :=
  rev (TrimLeft (rev s) cutset).

(** [strings.Trim]: leading and trailing runes of [cutset] removed. *)
Definition Trim (s cutset : gostring) : gostring :=
  TrimRight (TrimLeft s cutset) cutset.

Definition is_upper_ascii (r : rune) : bool := (65 <=? r) && (r <=? 90).

(** The case tables of package [unicode] beyond ASCII are not part of
    the program; they are a parameter, of which only this is used: no
    rune beyond ASCII has an ASCII capital letter as its lower case. *)
Record CaseTable := {
  lower_beyond_ascii : rune -> rune;
  lower_beyond_ascii_not_upper :
    forall r, 127 < r -> is_upper_ascii (lower_beyond_ascii r) = false
}.

(** [unicode.ToLower]. *)
Definition ToLowerRune (T : CaseTable) (r : rune) : rune :=
  if is_upper_ascii r then r + 32
  else if r <=? 127 then r
  else lower_beyond_ascii T r.

(** [strings.ToLower]. *)
Definition ToLower (T : CaseTable) (s : gostring) : gostring :=
  map (ToLowerRune T) s.

(** [strings.Join]. *)
Fixpoint Join (elems : list gostring) (sep : gostring) : gostring :=
  match elems with
  | [] => []
  | [e] => e
  | e :: rest => e ++ sep ++ Join rest sep
  end.

End strings.

(* ================================================================= *)
(** ** Package [path/filepath] *)

Module filepath.

Definition Separator : rune := 47.
Definition dot : rune := 46.

Definition IsPathSeparator (c : rune) : bool := c =? Separator.

(** The elements of a path: the pieces between separators, empty
    ones included. *)
Fixpoint elements (path : gostring) : list gostring :=
  match path with
  | [] => [[]]
  | c :: path' =>
      if IsPathSeparator c then [] :: elements path'
      else match elements path' with
           | [] => [[c]]
           | e :: es => (c :: e) :: es
           end
  end.

Definition is_dotdot (e : gostring) : bool := gostring_eqb e [dot; dot].
Definition is_dot (e : gostring) : bool := gostring_eqb e [dot].

(** One round of the loop of [Clean] on the next element.  [out] is
    the output written so far, as a stack of elements (last written
    first).  The elements above the [dotdot] mark of the source are
    the ones that are not [..]: a [..] is written only when nothing
    can be removed, so that the top of the stack is [..] exactly when
    the output is at the mark. *)
Definition clean_step (rooted : bool) (out : list gostring)
    (e : gostring) : list gostring :=
  if is_empty e then out
  else if is_dot e then out
  else if is_dotdot e then
    match out with
    | top :: out' =>
        if is_dotdot top then (if rooted then out else e :: out)
        else out'
    | [] => if rooted then out else [e]
    end
  else e :: out.

(** [filepath.Clean]. *)
Definition Clean (path : gostring) : gostring :=
  match path with
  | [] => [dot]
  | c :: _ =>
      let rooted := IsPathSeparator c in
      let out := rev (fold_left (clean_step rooted) (elements path) []) in
      match out with
      | [] => if rooted then [Separator] else [dot]
      | _ => (if rooted then [Separator] else [])
               ++ strings.Join out [Separator]
      end
  end.

(** [filepath.Join]: leading empty elements are ignored, the rest is
    joined with the separator and cleaned. *)
Fixpoint Join (elem : list gostring) : gostring :=
  match elem with
  | [] => []
  | e :: rest =>
      if is_empty e then Join rest
      else Clean (strings.Join elem [Separator])
  end.

(** The loop of [filepath.Ext], run on the reversed path; [acc] is
    the part of the path after the current position. *)
Fixpoint ext_loop (rpath acc : gostring) : gostring :=
  match rpath with
  | [] => []
  | c :: rpath' =>
      if IsPathSeparator c then []
      else if c =? dot then c :: acc
      else ext_loop rpath' (c :: acc)
  end.

(** [filepath.Ext]: the suffix beginning at the final dot of the last
    element, empty if there is no dot. *)
Definition Ext (path : gostring) : gostring := ext_loop (rev path) [].

(** [filepath.Base]. *)
Definition Base (path : gostring) : gostring :=
  match path with
  | [] => [dot]
  | _ =>
      let stripped := rev (strings.TrimLeft (rev path) [Separator]) in
      match stripped with
      | [] => [Separator]
      | _ => last (elements stripped) []
      end
  end.

End filepath.

Example clean_ex1 : filepath.Clean (go "abc//def//ghi") = go "abc/def/ghi".
Proof. reflexivity. Qed.
Example clean_ex2 : filepath.Clean (go "abc/def/../ghi/../jkl") = go "abc/jkl".
Proof. reflexivity. Qed.
Example clean_ex3 : filepath.Clean (go "/../abc") = go "/abc".
Proof. reflexivity. Qed.
Example clean_ex4 : filepath.Clean (go "abc/./../def") = go "def".
Proof. reflexivity. Qed.
Example clean_ex5 : filepath.Clean (go "../../abc/..") = go "../..".
Proof. reflexivity. Qed.
Example clean_ex6 : filepath.Clean (go "abc/def/../../..") = go "..".
Proof. reflexivity. Qed.
Example clean_ex7 : filepath.Clean (go "///") = go "/".
Proof. reflexivity. Qed.
Example clean_ex8 : filepath.Clean (go "abc/..") = go ".".
Proof. reflexivity. Qed.
Example join_ex1 :
  filepath.Join [go ""; go "a/"; go ""; go "b"] = go "a/b".
Proof. reflexivity. Qed.
Example ext_ex1 : filepath.Ext (go "apple.tar.gz") = go ".gz".
Proof. reflexivity. Qed.
Example ext_ex2 : filepath.Ext (go "a.b/c") = go "".
Proof. reflexivity. Qed.
Example base_ex1 : filepath.Base (go "/img/apple.png/") = go "apple.png".
Proof. reflexivity. Qed.
Example replace_ex1 :
  strings.Replace (go "a.b.a.b") (go "a") (go "xy") 1 = go "xy.b.a.b".
Proof. reflexivity. Qed.
Example replace_ex2 :
  strings.Replace (go "abc") (go "") (go "-") (-1) = go "-a-b-c-".
Proof. reflexivity. Qed.
Example trim_ex1 : strings.Trim (go "  a b ") (go " ") = go "a b".
Proof. reflexivity. Qed.

(* ================================================================= *)
(** ** Package [regexp] *)

(** The fragment of RE2 syntax that the program's five patterns use,
    with Go's leftmost-first semantics: the match begins as early as
    possible and, among the matches that begin there, is the one a
    backtracking search finds first. *)

Module regexp.

Inductive inst : Type :=
| Cls (p : rune -> bool)        (* one rune of a class; a literal is the class of one rune *)
| Opt (c : rune)                (* c{0,1}, greedy *)
| Star (p : rune -> bool)       (* p*, greedy *)
| StarLazy (p : rune -> bool)   (* p*?, non-greedy *)
| Open                          (* ( of the capture group *)
| Close.                        (* ) of the capture group *)

(** A pattern that begins with a one-rune class (as all the program's
    patterns do), so that no match is empty. *)
Record Regexp := { first : rune -> bool; rest : list inst }.

Definition Lit (c : rune) : inst := Cls (Z.eqb c).
Definition lits (s : gostring) : list inst := map Lit s.

(** [.]: any rune but the newline. *)
Definition any (c : rune) : bool := negb (c =? 10).
(** [\s]: tab, newline, form feed, carriage return, space. *)
Definition space (c : rune) : bool :=
  (c =? 9) || (c =? 10) || (c =? 12) || (c =? 13) || (c =? 32).
(** [\w]: [0-9A-Za-z_]. *)
Definition word (c : rune) : bool :=
  ((48 <=? c) && (c <=? 57)) || ((65 <=? c) && (c <=? 90))
  || ((97 <=? c) && (c <=? 122)) || (c =? 95).

(** Where the capture group stands: the input left when it was
    opened, and its text once closed. *)
Record caps := { opened : gostring; group : gostring }.

Definition close_group (cs : caps) (s : gostring) : caps :=
  {| opened := opened cs;
     group := firstn (length (opened cs) - length s) (opened cs) |}.

(** Backtracking match of the instructions [re] at the head of [s]:
    the capture and the input left after the match. *)
Fixpoint run (re : list inst) (cs : caps) (s : gostring) {struct re}
    : option (gostring * gostring) :=
  match re with
  | [] => Some (group cs, s)
  | Cls p :: re' =>
      match s with
      | c :: s' => if p c then run re' cs s' else None
      | [] => None
      end
  | Opt c :: re' =>
      match s with
      | x :: s' =>
          if x =? c then
            match run re' cs s' with
            | Some r => Some r
            | None => run re' cs s
            end
          else run re' cs s
      | [] => run re' cs s
      end
  | Star p :: re' =>
      (fix star (s : gostring) : option (gostring * gostring) :=
         match s with
         | c :: s' =>
             if p c then
               match star s' with
               | Some r => Some r
               | None => run re' cs s
               end
             else run re' cs s
         | [] => run re' cs s
         end) s
  | StarLazy p :: re' =>
      (fix star (s : gostring) : option (gostring * gostring) :=
         match run re' cs s with
         | Some r => Some r
         | None =>
             match s with
             | c :: s' => if p c then star s' else None
             | [] => None
             end
         end) s
  | Open :: re' => run re' {| opened := s; group := group cs |} s
  | Close :: re' => run re' (close_group cs s) s
  end.

(** A match of the whole pattern at the head of [s]. *)
Definition match_at (re : Regexp) (s : gostring)
    : option (gostring * gostring) :=
  run (Cls (first re) :: rest re) {| opened := []; group := [] |} s.

(** The scan of [FindAllStringSubmatch(s, -1)]: successive
    non-overlapping matches, each as the pair of the text matched and
    of the text of group 1.  [skip] counts the runes still covered by
    the last match. *)
Fixpoint scan (re : Regexp) (skip : nat) (s : gostring)
    : list (gostring * gostring) :=
  match s with
  | [] => []
  | _ :: s' =>
      match skip with
      | S k => scan re k s'
      | O =>
          match match_at re s with
          | Some (g, remaining) =>
              let n := (length s - length remaining)%nat in
              (firstn n s, g) :: scan re (n - 1) s'
          | None => scan re 0 s'
          end
      end
  end.

Definition FindAllStringSubmatch (re : Regexp) (s : gostring)
    : list (gostring * gostring) := scan re 0 s.

(** [ReplaceAllString] for a replacement text without [$]. *)
Fixpoint replace_scan (re : Regexp) (repl : gostring) (skip : nat)
    (s : gostring) : gostring :=
  match s with
  | [] => []
  | c :: s' =>
      match skip with
      | S k => replace_scan re repl k s'
      | O =>
          match match_at re s with
          | Some (_, remaining) =>
              repl ++ replace_scan re repl (length s - length remaining - 1) s'
          | None => c :: replace_scan re repl 0 s'
          end
      end
  end.

Definition ReplaceAllString (re : Regexp) (s repl : gostring) : gostring :=
  replace_scan re repl 0 s.

End regexp.

Import regexp.

(** [[^\w\.]] *)
Definition reNotWordDot : Regexp :=
  {| first := fun c => negb (word c || (c =? 46)); rest := [] |}.

(** The class [[\s|\)]]. *)
Definition space_bar_paren (c : rune) : bool :=
  space c || (c =? 124) || (c =? 41).

(** [!\[.*\]\(\s*(.*?)[\s|\)]] *)
Definition reMdImg : Regexp :=
  {| first := Z.eqb 33;
     rest := [Lit 91; Star any; Lit 93; Lit 40; Star space;
              Open; StarLazy any; Close; Cls space_bar_paren] |}.

(** [{{<\s*figure.*src="(.*?)"] *)
Definition reScFig : Regexp :=
  {| first := Z.eqb 123;
     rest := lits (go "{<") ++ [Star space] ++ lits (go "figure")
             ++ [Star any] ++ lits (go "src=") ++ [Lit dquote]
             ++ [Open; StarLazy any; Close; Lit dquote] |}.

(** [{{<\s*img.*src="(.*?)"] *)
Definition reScImg : Regexp :=
  {| first := Z.eqb 123;
     rest := lits (go "{<") ++ [Star space] ++ lits (go "img")
             ++ [Star any] ++ lits (go "src=") ++ [Lit dquote]
             ++ [Open; StarLazy any; Close; Lit dquote] |}.

(** [!\[.*\]\(\s*(https{0,1}://.*?)[\s|\)]] *)
Definition reRemoteImg : Regexp :=
  {| first := Z.eqb 33;
     rest := [Lit 91; Star any; Lit 93; Lit 40; Star space; Open]
             ++ lits (go "http") ++ [Opt 115] ++ lits (go "://")
             ++ [StarLazy any; Close; Cls space_bar_paren] |}.

Example reMdImg_ex1 :
  map snd (FindAllStringSubmatch reMdImg
             (go "![An apple](apple.jpg) and ![b]( b.png |x)"))
  = [go "b.png"].
Proof. reflexivity. Qed.
Example reMdImg_ex2 :
  map snd (FindAllStringSubmatch reMdImg
             (go "![An apple](apple.jpg)" ++ [10] ++ go "![b]( b.png |x)"))
  = [go "apple.jpg"; go "b.png"].
Proof. reflexivity. Qed.
Example reScFig_ex1 :
  map snd (FindAllStringSubmatch reScFig
     (go "{{< figure src=" ++ [dquote] ++ go "x.jpg" ++ [dquote] ++ go " >}}"))
  = [go "x.jpg"].
Proof. reflexivity. Qed.
Example reRemoteImg_ex1 :
  FindAllStringSubmatch reRemoteImg (go "see ![a](https://h/a.png) ok")
  = [(go "![a](https://h/a.png)", go "https://h/a.png")].
Proof. reflexivity. Qed.

(* ================================================================= *)
(** ** The data of the program *)

Definition bytes := list Byte.byte.

Module Config.
Record t := {
  Server : gostring;
  User : gostring;
  Password : gostring;
  ImageDir : gostring;
  PostDir : gostring;
  DatePathFmt : gostring;
  BaseURL : gostring;
  ImagePath : gostring;
  MaxImgWidth : Z;
  PostFrom : gostring
}.
End Config.

Module Image.
Record t := {
  OrigURL : gostring;
  OrigName : gostring;
  Name : gostring;
  Path : gostring;
  URL : gostring;
  Data : bytes
}.

(** The image that [ExtractAttachment] makes of a part, and the one
    that [RetrieveImages] makes of a response: the other fields have
    their zero value. *)
Definition attached (origName : gostring) (data : bytes) : t :=
  {| OrigURL := []; OrigName := origName; Name := []; Path := [];
     URL := []; Data := data |}.

Definition fetched (origURL origName : gostring) (data : bytes) : t :=
  {| OrigURL := origURL; OrigName := origName; Name := []; Path := [];
     URL := []; Data := data |}.

(** [i] with [i.Path = path] and [i.URL = url]. *)
Definition located (i : t) (path url : gostring) : t :=
  {| OrigURL := OrigURL i; OrigName := OrigName i; Name := Name i;
     Path := path; URL := url; Data := Data i |}.
End Image.

Module Post.
(** The field [Type] of the source is [Type_] here. *)
Record t := {
  Title : gostring;
  Date : gostring;
  Type_ : gostring;
  File : gostring;
  Path : gostring;
  URL : gostring;
  Data : gostring
}.

Definition with_Path (p : t) (path : gostring) : t :=
  {| Title := Title p; Date := Date p; Type_ := Type_ p; File := File p;
     Path := path; URL := URL p; Data := Data p |}.

Definition with_Data (p : t) (data : gostring) : t :=
  {| Title := Title p; Date := Date p; Type_ := Type_ p; File := File p;
     Path := Path p; URL := URL p; Data := data |}.
End Post.

Module PathParts.
Record t := { Date : gostring; Type_ : gostring }.
End PathParts.

(** The struct [T] of [ExtractPostData]: the front matter. *)
Module FrontMatter.
Record t := { Title : gostring; Date : gostring; Type_ : gostring }.
End FrontMatter.

(** What the process does to the outside, in the order it does it. *)
Inductive Event : Type :=
| LogSkippingPost                      (* "Couldn't find post title in frontmatter. Skipping..." *)
| LogDecodeFailed                      (* "Failed to decode image: %s" *)
| LogImageURL (url : gostring)         (* ">>>>> %v" *)
| LogFetchError (status : Z)           (* "Error %d, Status: %d" *)
| HttpGet (url : gostring)             (* http.Get *)
| MkdirAll (path : gostring)           (* os.MkdirAll *)
| SavedImage (j : nat) (path : gostring) (jpeg : bytes)
                                       (* os.Create, jpeg.Encode and "Saved image: %s", for m.images[j] *)
| SavedPost (path : gostring) (data : gostring).
                                       (* os.Create, io.Copy and "Saved post: %s" *)

(** The struct [Mailpost], without its IMAP client, and with the trace
    of what the run has done so far. *)
Module Mailpost.
Record t := {
  config : Config.t;
  images : list Image.t;
  posts : list Post.t;
  trace : list Event
}.

Definition with_images (m : t) (l : list Image.t) : t :=
  {| config := config m; images := l; posts := posts m; trace := trace m |}.
Definition with_posts (m : t) (l : list Post.t) : t :=
  {| config := config m; images := images m; posts := l; trace := trace m |}.
Definition emit (m : t) (e : Event) : t :=
  {| config := config m; images := images m; posts := posts m;
     trace := trace m ++ [e] |}.
End Mailpost.

(** How a call ends: it returns, or the process exits through
    [log.Fatal]/[log.Fatalf], or it dies of a run-time panic. *)
Inductive Outcome : Type :=
| Done (m : Mailpost.t)
| Fatal (m : Mailpost.t)
| Panic (m : Mailpost.t).

Definition and_then (r : Outcome) (k : Mailpost.t -> Outcome) : Outcome :=
  match r with
  | Done m => k m
  | Fatal m => Fatal m
  | Panic m => Panic m
  end.

Notation "r >>= k" := (and_then r k) (at level 50, left associativity).

(** A [for] loop over the items of a list. *)
Fixpoint for_each {A : Type} (l : list A) (body : A -> Mailpost.t -> Outcome)
    (m : Mailpost.t) : Outcome :=
  match l with
  | [] => Done m
  | x :: l' => body x m >>= for_each l' body
  end.

(** [l[i] = x] *)
Fixpoint update {A : Type} (l : list A) (i : nat) (x : A) : list A :=
  match l, i with
  | [], _ => []
  | _ :: l', O => x :: l'
  | y :: l', S i' => y :: update l' i' x
  end.

(* ================================================================= *)
(** ** What the program calls outside itself *)

Module http.
Record Response := { StatusCode : Z; Body : bytes }.

(** The result of [http.Get]: an error (with the response, nil but
    for a failed redirect), or a response. *)
Inductive Result : Type :=
| Error (resp : option Response)
| Resp (resp : Response).
End http.

(** The libraries and the system the program runs on.  [time_Time] and
    [Img] are the values of [time.Time] and [image.Image]. *)
Record Extern := {
  case_table : strings.CaseTable;
  time_Time : Type;
  time_Parse : gostring -> gostring -> time_Time;      (* the zero time on error *)
  time_Format : time_Time -> gostring -> gostring;
  yaml_Unmarshal : gostring -> option FrontMatter.t;   (* [None]: an error *)
  Img : Type;
  image_Decode : bytes -> option Img;             (* [None]: an error, and a nil image *)
  img_width : Img -> Z;                           (* bounds.Max.X - bounds.Min.X *)
  resize_Resize : Z -> Img -> Img;
  jpeg_Encode : Img -> bytes;                     (* drawn over white, then encoded *)
  os_MkdirAll : gostring -> bool;                 (* [false]: an error *)
  os_Create : gostring -> bool;
  io_Copy : gostring -> bool;
  http_Get : gostring -> http.Result;
  url_Parse_Path : gostring -> option gostring    (* [None]: an error, and a nil URL *)
}.

(** A MIME body as [multipart.Reader] delivers it: the parts that
    [NextPart] returns, until [io.EOF] or an error.  Of a part the
    program uses the media type of its [Content-Type] header (empty
    when [mime.ParseMediaType] fails), its file name, and its body,
    read in one of three ways: through the base64 decoder (the bytes
    that [ioutil.ReadAll] returns, and whether it met an error), copied
    as text (the text, and whether [io.Copy] met an error), or as a
    multipart body again. *)
Inductive Part : Type :=
| mkPart (contentType : gostring) (fileName : gostring)
         (base64 : bytes * bool) (text : gostring * bool) (sub : Stream)
with Stream : Type :=
| EOF
| Broken
| Next (p : Part) (rest : Stream).

(* ================================================================= *)
(** ** The program *)

Section Program.

Variable E : Extern.

(** [MakeDatePathPart] *)
Definition MakeDatePathPart (m : Mailpost.t) (dateInfo : gostring)
    : gostring :=
  let dateStringLayout := go "2006-01-02" in
  let t := time_Parse E dateStringLayout dateInfo in
  time_Format E t (Config.DatePathFmt (Mailpost.config m)).

(** [MakePathFromTemplate] *)
Definition MakePathFromTemplate (pathTemplate : gostring)
    (pathData : PathParts.t) : gostring :=
  let pathTemplate :=
    if negb (is_empty (PathParts.Type_ pathData)) then
      strings.Replace pathTemplate (go "<type>")
        (strings.Trim (PathParts.Type_ pathData) (go " ")) 1
    else pathTemplate in
  let pathTemplate :=
    if negb (is_empty (PathParts.Date pathData)) then
      strings.Replace pathTemplate (go "<date>") (PathParts.Date pathData) 1
    else pathTemplate in
  pathTemplate.

(** [MakePostPath]: the path, or [None] when [log.Fatal] is called. *)
Definition MakePostPath (m : Mailpost.t) (postInfo : Post.t)
    : Mailpost.t * option gostring :=
  let datePathPart := MakeDatePathPart m (Post.Date postInfo) in
  let path :=
    strings.Replace (Post.Path postInfo) (go "<type>")
      (strings.Trim (Post.Type_ postInfo) (go " ")) 1 in
  let path := strings.Replace path (go "<date>") datePathPart 1 in
  let m := Mailpost.emit m (MkdirAll path) in
  if os_MkdirAll E path then (m, Some path) else (m, None).

(** [SanitizeFilename] *)
Definition SanitizeFilename (name : gostring) : gostring :=
  ReplaceAllString reNotWordDot
    (strings.ToLower (case_table E) name) (go "_").

(** [HasImage], [HasText], [HasMultipart] *)
Definition HasImage (contentType : gostring) : bool :=
  strings.HasPrefix contentType (go "image/jpeg")
  || strings.HasPrefix contentType (go "image/png").

Definition HasText (contentType : gostring) : bool :=
  strings.HasPrefix contentType (go "text/plain")
  || strings.HasPrefix contentType (go "multipart/alternative").

Definition HasMultipart (contentType : gostring) : bool :=
  strings.HasPrefix contentType (go "multipart/").

(** [ExtractImageData].  The sanitized name is ASCII: the lengths in
    bytes of the source are lengths in runes. *)
Definition ExtractImageData (imageInfo : Image.t) (m : Mailpost.t)
    : Mailpost.t :=
  let name := SanitizeFilename (Image.OrigName imageInfo) in
  let extension := filepath.Ext name in
  let name := firstn (length name - length extension) name in
  let name := name ++ go ".jpg" in
  let imageInfo :=
    {| Image.OrigURL := Image.OrigURL imageInfo;
       Image.OrigName := Image.OrigName imageInfo;
       Image.Name := name;
       Image.Path := Image.Path imageInfo;
       Image.URL := Image.URL imageInfo;
       Image.Data := Image.Data imageInfo |} in
  Mailpost.with_images m (Mailpost.images m ++ [imageInfo]).

(** [SaveImage], on [m.images[j]]. *)
Definition SaveImage (j : nat) (relatedPost : Post.t) (m : Mailpost.t)
    : Outcome :=
  match nth_error (Mailpost.images m) j with
  | None => Panic m   (* index out of range *)
  | Some imageInfo =>
      let cfg := Mailpost.config m in
      let pathData :=
        {| PathParts.Date := MakeDatePathPart m (Post.Date relatedPost);
           PathParts.Type_ := [] |} in
      let dir := MakePathFromTemplate (Config.ImageDir cfg) pathData in
      let path := filepath.Join [dir; Image.Name imageInfo] in
      let url :=
        filepath.Join [Config.BaseURL cfg; Config.ImagePath cfg;
                       PathParts.Date pathData; Image.Name imageInfo] in
      let set (p u : gostring) (m : Mailpost.t) :=
        Mailpost.with_images m
          (update (Mailpost.images m) j (Image.located imageInfo p u)) in
      let m := Mailpost.emit (set dir (Image.URL imageInfo) m) (MkdirAll dir) in
      if negb (os_MkdirAll E dir) then Fatal m
      else
        let m := set path url m in
        match image_Decode E (Image.Data imageInfo) with
        | None =>
            (* the error is logged; [img] is nil and [img.Bounds()] panics *)
            Panic (Mailpost.emit m LogDecodeFailed)
        | Some img =>
            let img :=
              if img_width E img >? Config.MaxImgWidth cfg
              then resize_Resize E (Config.MaxImgWidth cfg) img
              else img in
            if negb (os_Create E path) then Fatal m
            else Done (Mailpost.emit m (SavedImage j path (jpeg_Encode E img)))
        end
  end.

(** [ExtractPostData] *)
Definition ExtractPostData (post : gostring) (m : Mailpost.t) : Outcome :=
  match yaml_Unmarshal E post with
  | None => Done (Mailpost.emit m LogSkippingPost)
  | Some t =>
      let postInfo :=
        {| Post.Title := FrontMatter.Title t;
           Post.Date := FrontMatter.Date t;
           Post.Type_ := strings.ToLower (case_table E) (FrontMatter.Type_ t);
           Post.File := SanitizeFilename (FrontMatter.Title t) ++ go ".md";
           Post.Path := Config.PostDir (Mailpost.config m);
           Post.URL := [];
           Post.Data := post |} in
      match MakePostPath m postInfo with
      | (m, None) => Fatal m
      | (m, Some path) =>
          Done (Mailpost.with_posts m
                  (Mailpost.posts m ++ [Post.with_Path postInfo path]))
      end
  end.

(** [ExtractAttachment], on the parts that the reader delivers. *)
Fixpoint ExtractAttachment (r : Stream) (m : Mailpost.t) {struct r}
    : Outcome :=
  match r with
  | EOF => Done m
  | Broken => Fatal m
  | Next (mkPart contentType fileName base64 text sub) rest =>
      (if HasMultipart contentType then ExtractAttachment sub m
       else if HasImage contentType then
         (* the error of [ioutil.ReadAll] is assigned and not read *)
         Done (ExtractImageData (Image.attached fileName (fst base64)) m)
       else if HasText contentType then
         (if snd text then Fatal m else ExtractPostData (fst text) m)
       else Done m)
      >>= ExtractAttachment rest
  end.

(** [WritePostToFile] *)
Definition WritePostToFile (postInfo : Post.t) (m : Mailpost.t) : Outcome :=
  let path := filepath.Join [Post.Path postInfo; Post.File postInfo] in
  if negb (os_Create E path) then Fatal m
  else if negb (io_Copy E path) then Fatal m
  else Done (Mailpost.emit m (SavedPost path (Post.Data postInfo))).

(** One round of the inner loop of [RetrieveImages], on the URL that
    the pattern captured.  The result says whether the function goes
    on ([true]) or returns ([false]). *)
Definition retrieve_one (url : gostring) (m : Mailpost.t)
    : Outcome * bool :=
  let m := Mailpost.emit (Mailpost.emit m (LogImageURL url)) (HttpGet url) in
  let fetched (reqImg : http.Response) :=
    match url_Parse_Path E url with
    | None => (Panic m, false)        (* [u] is nil *)
    | Some upath =>
        (Done (ExtractImageData
               (Image.fetched url (filepath.Base upath) (http.Body reqImg))
               m), true)
    end in
  match http_Get E url with
  | http.Error None => (Panic m, false)   (* [reqImg] is nil in [log.Printf] *)
  | http.Error (Some reqImg) =>
      (Done (Mailpost.emit m (LogFetchError (http.StatusCode reqImg))), false)
  | http.Resp reqImg =>
      if negb (http.StatusCode reqImg =? 200) then
        (Done (Mailpost.emit m (LogFetchError (http.StatusCode reqImg))), false)
      else fetched reqImg
  end.

(** A loop that a [return] in its body leaves at once, together with
    the loops around it. *)
Fixpoint for_each_until_return {A : Type} (l : list A)
    (body : A -> Mailpost.t -> Outcome * bool) (m : Mailpost.t)
    : Outcome * bool :=
  match l with
  | [] => (Done m, true)
  | x :: l' =>
      match body x m with
      | (Done m', true) => for_each_until_return l' body m'
      | (r, _) => (r, false)
      end
  end.

(** [RetrieveImages] *)
Definition RetrieveImages (m : Mailpost.t) : Outcome :=
  fst (for_each_until_return (Mailpost.posts m)
         (fun post m =>
            let imageURLs :=
              FindAllStringSubmatch reRemoteImg (Post.Data post) in
            for_each_until_return (map snd imageURLs) retrieve_one m)
         m).

(** The body of the innermost loops of [ReplaceImageRefs]: the text
    [loc] that a pattern captured in [m.posts[p]], against
    [m.images[j]]. *)
Definition resolve (p : nat) (loc : gostring) (j : nat) (m : Mailpost.t)
    : Outcome :=
  match nth_error (Mailpost.images m) j, nth_error (Mailpost.posts m) p with
  | Some image, Some post =>
      if gostring_eqb (Image.OrigName image) loc
         || gostring_eqb (Image.OrigURL image) loc
      then
        SaveImage j post m >>= fun m =>
        match nth_error (Mailpost.images m) j,
              nth_error (Mailpost.posts m) p with
        | Some image, Some post =>
            Done (Mailpost.with_posts m
                    (update (Mailpost.posts m) p
                       (Post.with_Data post
                          (strings.Replace (Post.Data post) loc
                             (Image.URL image) 1))))
        | _, _ => Panic m
        end
      else Done m
  | _, _ => Panic m   (* index out of range *)
  end.

(** One of the three loops over the matches of a pattern, with its
    loop over the images. *)
Definition resolve_matches (p : nat) (matches : list (gostring * gostring))
    (m : Mailpost.t) : Outcome :=
  for_each matches
    (fun mt m =>
       for_each (seq 0 (length (Mailpost.images m))) (resolve p (snd mt)) m)
    m.

(** The body of the loop of [ReplaceImageRefs] over the posts. *)
Definition replace_in_post (p : nat) (m : Mailpost.t) : Outcome :=
  match nth_error (Mailpost.posts m) p with
  | None => Panic m
  | Some post =>
      let mdImgMatches := FindAllStringSubmatch reMdImg (Post.Data post) in
      let scFigMatches := FindAllStringSubmatch reScFig (Post.Data post) in
      let scImgMatches := FindAllStringSubmatch reScImg (Post.Data post) in
      resolve_matches p mdImgMatches m
      >>= resolve_matches p scFigMatches
      >>= resolve_matches p scImgMatches
      >>= fun m =>
          match nth_error (Mailpost.posts m) p with
          | Some post => WritePostToFile post m
          | None => Panic m
          end
  end.

(** [ReplaceImageRefs] *)
Definition ReplaceImageRefs (m : Mailpost.t) : Outcome :=
  for_each (seq 0 (length (Mailpost.posts m))) replace_in_post m.

End Program.

(* ================================================================= *)
(** ** A system to run the program on

    Tables of what the libraries answer on the inputs of the examples
    below: dates are laid out by ["2006/01"], a front matter is read
    from three sample texts, two hosts serve images. *)

Module Sample.

Definition lower_table : strings.CaseTable.
Proof.
  refine {| strings.lower_beyond_ascii :=
              fun r => if (192 <=? r) && (r <=? 222) && negb (r =? 215)
                       then r + 32 else r |}.
  intros r Hr. unfold strings.is_upper_ascii.
  apply andb_false_iff. right. apply Z.leb_gt.
  destruct ((192 <=? r) && (r <=? 222) && negb (r =? 215)); lia.
Defined.

(** The texts of three messages. *)
Definition text_apple : gostring :=
  go "title: Apple" ++ [10] ++ go "date: 2015-03-04" ++ [10]
  ++ go "![An apple](apple.jpg)" ++ [10].
Definition text_untitled : gostring :=
  go "date: 2015-03-04" ++ [10] ++ go "type: note" ++ [10].
Definition text_plain : gostring := go "hello".

Definition unmarshal (s : gostring) : option FrontMatter.t :=
  if gostring_eqb s text_untitled then
    Some {| FrontMatter.Title := []; FrontMatter.Date := go "2015-03-04";
            FrontMatter.Type_ := go "note" |}
  else None.

(** A time is its year and month; the zero time is January of year 1. *)
Definition parse_time (layout value : gostring) : Z * Z :=
  if gostring_eqb value (go "2015-03-04") then (2015, 3)
  else if gostring_eqb value (go "2016-05-06") then (2016, 5)
  else (1, 1).

Definition format_time (t : Z * Z) (layout : gostring) : gostring :=
  if gostring_eqb layout (go "2006/01") then
    match t with
    | (2015, 3) => go "2015/03"
    | (2016, 5) => go "2016/05"
    | _ => go "0001/01"
    end
  else layout.

(** An image is its width; the bytes [x01] decode to an image 10
    wide, other bytes do not decode. *)
Definition decode (b : bytes) : option Z :=
  match b with
  | [Byte.x01] => Some 10
  | _ => None
  end.

Definition get (url : gostring) : http.Result :=
  if gostring_eqb url (go "http://h/b.png") then
    http.Resp {| http.StatusCode := 200; http.Body := [Byte.x01] |}
  else http.Resp {| http.StatusCode := 404; http.Body := [] |}.

Definition parse_path (url : gostring) : option gostring :=
  if gostring_eqb url (go "http://h/b.png") then Some (go "/b.png")
  else if gostring_eqb url (go "http://h/a.png") then Some (go "/a.png")
  else None.

Definition extern : Extern :=
  {| case_table := lower_table;
     time_Time := Z * Z;
     time_Parse := parse_time;
     time_Format := format_time;
     yaml_Unmarshal := unmarshal;
     Img := Z;
     image_Decode := decode;
     img_width := fun w => w;
     resize_Resize := fun w _ => w;
     jpeg_Encode := fun _ => [Byte.xff; Byte.xd8];
     os_MkdirAll := fun _ => true;
     os_Create := fun _ => true;
     io_Copy := fun _ => true;
     http_Get := get;
     url_Parse_Path := parse_path |}.

Definition config_at (baseURL : gostring) : Config.t :=
  {| Config.Server := go "imap.example.com:993";
     Config.User := go "u";
     Config.Password := go "p";
     Config.ImageDir := go "/site/static/img/<date>";
     Config.PostDir := go "/site/content/<type>/<date>";
     Config.DatePathFmt := go "2006/01";
     Config.BaseURL := baseURL;
     Config.ImagePath := go "img";
     Config.MaxImgWidth := 800;
     Config.PostFrom := [] |}.

Definition config : Config.t := config_at (go "http://example.com").

(** The state of a run that has collected [images] and [posts]. *)
Definition state (cfg : Config.t) (images : list Image.t)
    (posts : list Post.t) : Mailpost.t :=
  {| Mailpost.config := cfg; Mailpost.images := images;
     Mailpost.posts := posts; Mailpost.trace := [] |}.

Definition start : Mailpost.t := state config [] [].

(** An attached image, as [ExtractImageData] stores it. *)
Definition stored (origName name : gostring) (data : bytes) : Image.t :=
  {| Image.OrigURL := []; Image.OrigName := origName; Image.Name := name;
     Image.Path := []; Image.URL := []; Image.Data := data |}.

Definition post (date body : gostring) : Post.t :=
  {| Post.Title := go "T"; Post.Date := date; Post.Type_ := go "note";
     Post.File := go "t.md"; Post.Path := go "/site/content/note";
     Post.URL := []; Post.Data := body |}.

End Sample.

(* ================================================================= *)
(** ** Facts about strings *)

Lemma gostring_eqb_eq (a b : gostring) : gostring_eqb a b = true <-> a = b.
Proof.
  revert b. induction a as [|x a IH]; intros [|y b]; simpl; split;
    try congruence; try reflexivity.
  - intro H. apply andb_true_iff in H. destruct H as [H1 H2].
    apply Z.eqb_eq in H1. apply IH in H2. congruence.
  - intro H. injection H as -> ->. rewrite Z.eqb_refl. simpl.
    apply IH. reflexivity.
Qed.

Lemma gostring_eqb_refl (a : gostring) : gostring_eqb a a = true.
Proof. apply gostring_eqb_eq. reflexivity. Qed.

Lemma gostring_eqb_neq (a b : gostring) : gostring_eqb a b = false <-> a <> b.
Proof.
  split.
  - intros H Heq. apply gostring_eqb_eq in Heq. congruence.
  - intro H. destruct (gostring_eqb a b) eqn:Heq; [|reflexivity].
    apply gostring_eqb_eq in Heq. contradiction.
Qed.

(** [sep] is in [s], with [pre] before it and [suf] after it. *)
Definition occurs_at (s sep pre suf : gostring) : Prop :=
  s = pre ++ sep ++ suf.

Definition occurs (s sep : gostring) : Prop :=
  exists pre suf, occurs_at s sep pre suf.

(** The first textual occurrence of [sep] in [s]: no occurrence begins
    earlier. *)
Definition first_at (s sep pre suf : gostring) : Prop :=
  occurs_at s sep pre suf
  /\ forall pre' suf', occurs_at s sep pre' suf' ->
       (length pre <= length pre')%nat.

Lemma HasPrefix_true (s p : gostring) :
  strings.HasPrefix s p = true <-> exists t, s = p ++ t.
Proof.
  revert s. induction p as [|c p IH]; intro s; simpl.
  - split; [intros _; exists s; reflexivity | reflexivity].
  - destruct s as [|x s].
    + split; [discriminate | intros [t Ht]; discriminate].
    + rewrite andb_true_iff, Z.eqb_eq, IH. split.
      * intros [-> [t ->]]. exists t. reflexivity.
      * intros [t Ht]. injection Ht as -> ->. split; [reflexivity|].
        exists t. reflexivity.
Qed.

Lemma Index_unfold (s sep : gostring) :
  strings.Index s sep =
  if strings.HasPrefix s sep then Some O
  else match s with
       | [] => None
       | _ :: s' => option_map S (strings.Index s' sep)
       end.
Proof. destruct s; reflexivity. Qed.

Lemma Index_Some (s sep : gostring) (i : nat) :
  strings.Index s sep = Some i ->
  first_at s sep (firstn i s) (skipn (i + length sep) s).
Proof.
  revert i. induction s as [|c s IH]; intros i; rewrite Index_unfold.
  - destruct (strings.HasPrefix [] sep) eqn:Hp; [|discriminate].
    intro H. injection H as <-. apply HasPrefix_true in Hp.
    destruct Hp as [t Ht]. destruct sep; [|discriminate]. simpl in Ht.
    subst t. split; [reflexivity|]. intros; simpl; lia.
  - destruct (strings.HasPrefix (c :: s) sep) eqn:Hp.
    + intro H. injection H as <-. apply HasPrefix_true in Hp.
      destruct Hp as [t Ht]. split; [|intros; simpl; lia].
      unfold occurs_at. simpl firstn. simpl "+"%nat. rewrite Ht at 2.
      rewrite skipn_app, skipn_all, Nat.sub_diag. simpl. exact Ht.
    + destruct (strings.Index s sep) as [k|] eqn:Hk; [|discriminate].
      simpl. intro H. injection H as <-.
      destruct (IH k eq_refl) as [Hocc Hmin]. split.
      * unfold occurs_at in *. simpl. f_equal. exact Hocc.
      * intros pre' suf' H'. unfold occurs_at in H'.
        destruct pre' as [|x pre'].
        -- exfalso. simpl in H'.
           assert (strings.HasPrefix (c :: s) sep = true)
             by (apply HasPrefix_true; exists suf'; exact H').
           congruence.
        -- simpl in H'. injection H' as -> H'.
           specialize (Hmin pre' suf' H'). simpl.
           rewrite length_firstn in *. lia.
Qed.

Lemma Index_None (s sep : gostring) :
  strings.Index s sep = None -> ~ occurs s sep.
Proof.
  induction s as [|c s IH]; rewrite Index_unfold.
  - destruct (strings.HasPrefix [] sep) eqn:Hp; [discriminate|].
    intros _ (pre & suf & H). unfold occurs_at in H.
    destruct pre; [|discriminate]. destruct sep; [|discriminate].
    discriminate.
  - destruct (strings.HasPrefix (c :: s) sep) eqn:Hp; [discriminate|].
    destruct (strings.Index s sep) eqn:Hk; [discriminate|].
    intros _ (pre & suf & H). unfold occurs_at in H.
    destruct pre as [|x pre].
    + simpl in H.
      assert (strings.HasPrefix (c :: s) sep = true)
        by (apply HasPrefix_true; exists suf; exact H).
      congruence.
    + simpl in H. injection H as -> H. apply IH; [reflexivity|].
      exists pre, suf. exact H.
Qed.

Lemma app_inj_length {A : Type} (a a' b b' : list A) :
  length a = length a' -> a ++ b = a' ++ b' -> a = a' /\ b = b'.
Proof.
  revert a'. induction a as [|x a IH]; intros [|y a'] Hl H;
    simpl in *; try discriminate.
  - split; [reflexivity | exact H].
  - injection H as -> H. injection Hl as Hl.
    destruct (IH a' Hl H) as [-> ->]. split; reflexivity.
Qed.

Lemma first_at_unique (s sep pre suf pre' suf' : gostring) :
  first_at s sep pre suf -> first_at s sep pre' suf' ->
  pre = pre' /\ suf = suf'.
Proof.
  intros [H1 M1] [H2 M2].
  pose proof (M1 _ _ H2) as L1. pose proof (M2 _ _ H1) as L2.
  assert (Hlen : length pre = length pre') by lia.
  unfold occurs_at in *. rewrite H1 in H2.
  destruct (app_inj_length _ _ _ _ Hlen H2) as [-> H3].
  split; [reflexivity|].
  apply app_inv_head in H3. exact H3.
Qed.

Lemma Index_bound (s sep : gostring) (i : nat) :
  strings.Index s sep = Some i -> (i + length sep <= length s)%nat.
Proof.
  revert i. induction s as [|c s IH]; intro i; rewrite Index_unfold;
    destruct (strings.HasPrefix _ sep) eqn:Hp.
  - intro H. injection H as <-. apply HasPrefix_true in Hp.
    destruct Hp as [t Ht]. apply (f_equal (@length rune)) in Ht.
    rewrite length_app in Ht. simpl in *. lia.
  - discriminate.
  - intro H. injection H as <-. apply HasPrefix_true in Hp.
    destruct Hp as [t Ht]. apply (f_equal (@length rune)) in Ht.
    rewrite length_app in Ht. simpl in *. lia.
  - destruct (strings.Index s sep) as [k|]; [|discriminate].
    simpl. intro H. injection H as <-. specialize (IH k eq_refl).
    simpl. lia.
Qed.

Lemma first_at_Index (s sep pre suf : gostring) :
  first_at s sep pre suf -> strings.Index s sep = Some (length pre).
Proof.
  intro H. destruct (strings.Index s sep) as [i|] eqn:Hi.
  - pose proof (Index_bound _ _ _ Hi) as Hb.
    apply Index_Some in Hi.
    destruct (first_at_unique _ _ _ _ _ _ H Hi) as [Hp _].
    f_equal. rewrite Hp, length_firstn. lia.
  - exfalso. apply (Index_None _ _ Hi). destruct H as [H _].
    exists pre, suf. exact H.
Qed.

(** [strings.Replace] with [n = 1] rewrites the first occurrence, and
    nothing else. *)
Lemma Replace_first (s old new pre suf : gostring) :
  first_at s old pre suf ->
  strings.Replace s old new 1 = pre ++ new ++ suf.
Proof.
  intro H. unfold strings.Replace.
  destruct (gostring_eqb old new) eqn:Heq; simpl.
  - apply gostring_eqb_eq in Heq. subst new. destruct H as [H _]. exact H.
  - destruct old as [|c old]; simpl is_empty; cbv iota.
    + destruct H as [H M]. unfold occurs_at in H. simpl in H.
      specialize (M [] s eq_refl). destruct pre; [|simpl in M; lia].
      simpl in H. subst suf. simpl. destruct s; reflexivity.
    + change (Z.to_nat 1) with 1%nat. simpl strings.replace_loop.
      pose proof (first_at_Index _ _ _ _ H) as Hi. rewrite Hi.
      apply Index_Some in Hi.
      destruct (first_at_unique _ _ _ _ _ _ H Hi) as [<- <-].
      reflexivity.
Qed.

Lemma Replace_absent (s old new : gostring) (n : Z) :
  ~ occurs s old -> strings.Replace s old new n = s.
Proof.
  intro H. unfold strings.Replace.
  destruct (gostring_eqb old new || (n =? 0)); [reflexivity|].
  destruct old as [|c old].
  - exfalso. apply H. exists [], s. reflexivity.
  - simpl is_empty. cbv iota.
    destruct (if n <? 0 then S (length s) else Z.to_nat n) as [|k];
      [reflexivity|].
    simpl. destruct (strings.Index s (c :: old)) eqn:Hi; [|reflexivity].
    exfalso. apply H. apply Index_Some in Hi. destruct Hi as [Hi _].
    eexists _, _. exact Hi.
Qed.

Lemma Contains_occurs (s sep : gostring) :
  strings.Contains s sep = true <-> occurs s sep.
Proof.
  unfold strings.Contains. destruct (strings.Index s sep) eqn:Hi.
  - split; [|reflexivity]. intros _. apply Index_Some in Hi.
    destruct Hi as [Hi _]. eexists _, _. exact Hi.
  - split; [discriminate|]. intro H. exfalso. exact (Index_None _ _ Hi H).
Qed.

(** Two tokens of which no occurrence can overlap an occurrence of the
    other: no non-empty end of [u] begins a text that [v] begins. *)
Definition apart (u v : gostring) : Prop :=
  forall l l2 x y, u = l ++ l2 -> l2 <> [] -> v ++ x = l2 ++ y -> False.

Fixpoint splits (u : gostring) : list (gostring * gostring) :=
  ([], u) ::
  match u with
  | [] => []
  | c :: u' => map (fun ab => (c :: fst ab, snd ab)) (splits u')
  end.

Lemma splits_complete (u l l2 : gostring) :
  u = l ++ l2 -> In (l, l2) (splits u).
Proof.
  revert u. induction l as [|c l IH]; intros u ->.
  - destruct l2; left; reflexivity.
  - simpl. right. apply in_map_iff. exists (l, l2). split; [reflexivity|].
    apply IH. reflexivity.
Qed.

Ltac split_cases H :=
  apply splits_complete in H; simpl in H;
  repeat (destruct H as [H|H]; [injection H as <- <- |]); [..|contradiction].

Lemma type_date_apart : apart (go "<type>") (go "<date>").
Proof.
  intros l l2 x y H Hne Heq. split_cases H;
    solve [discriminate Heq | apply Hne; reflexivity].
Qed.

Lemma date_type_apart : apart (go "<date>") (go "<type>").
Proof.
  intros l l2 x y H Hne Heq. split_cases H;
    solve [discriminate Heq | apply Hne; reflexivity].
Qed.

(** Replacing the first [v] leaves an occurrence of [u] in the text,
    when the two cannot overlap. *)
Lemma occurs_after_Replace (u v s d : gostring) :
  apart u v -> apart v u -> occurs s u ->
  occurs (strings.Replace s v d 1) u.
Proof.
  intros Huv Hvu (a & b & Hs). unfold occurs_at in Hs.
  destruct (strings.Index s v) as [i|] eqn:Hi.
  2:{ rewrite Replace_absent by (apply Index_None; exact Hi).
      exists a, b. exact Hs. }
  apply Index_Some in Hi. rewrite (Replace_first _ _ _ _ _ Hi).
  destruct Hi as [Hv _]. unfold occurs_at in Hv.
  set (pre := firstn i s) in *. set (suf := skipn (i + length v) s) in *.
  clearbody pre suf. rewrite Hs in Hv. clear Hs s.
  apply app_eq_app in Hv. destruct Hv as (l & [[-> H]|[-> H]]).
  - (* [u] begins at or after the beginning of [v] *)
    apply app_eq_app in H. destruct H as (l2 & [[Hv H]|[-> ->]]).
    + destruct l2 as [|c l2].
      * simpl in H. subst suf.
        exists (pre ++ d), b. unfold occurs_at.
        rewrite <- !app_assoc. reflexivity.
      * exfalso. apply (Hvu l (c :: l2) b suf Hv); [discriminate|].
        exact H.
    + exists (pre ++ d ++ l2), b. unfold occurs_at.
      rewrite <- !app_assoc. reflexivity.
  - (* [u] begins before the beginning of [v] *)
    apply app_eq_app in H. destruct H as (l2 & [[Hu H]|[-> ->]]).
    + destruct l2 as [|c l2].
      * rewrite app_nil_r in Hu. subst l. simpl in H. subst b.
        exists a, (d ++ suf). unfold occurs_at.
        rewrite <- !app_assoc. reflexivity.
      * exfalso. apply (Huv l (c :: l2) suf b Hu); [discriminate|].
        exact H.
    + exists a, (l2 ++ d ++ suf). unfold occurs_at.
      rewrite <- !app_assoc. reflexivity.
Qed.

(* ================================================================= *)
(** ** The path templater *)

(** [r] is [s] with [token] replaced by [value] at most once: at its
    first occurrence if it has one, and nowhere otherwise. *)
Definition replaced_once (s token value r : gostring) : Prop :=
  (exists pre suf, first_at s token pre suf /\ r = pre ++ value ++ suf)
  \/ (~ occurs s token /\ r = s).

Lemma Replace_replaced_once (s token value : gostring) :
  replaced_once s token value (strings.Replace s token value 1).
Proof.
  destruct (strings.Index s token) as [i|] eqn:Hi.
  - left. apply Index_Some in Hi. eexists _, _. split; [exact Hi|].
    apply Replace_first. exact Hi.
  - right. apply Index_None in Hi. split; [exact Hi|].
    apply Replace_absent. exact Hi.
Qed.

Lemma is_empty_true (s : gostring) : is_empty s = true <-> s = [].
Proof. destruct s; simpl; split; congruence. Qed.

(** C7, as the program has it.  [MakePathFromTemplate] first replaces
    [<type>], by the type trimmed of its leading and trailing spaces
    (of the rune U+0020 only), then [<date>], by the date, each at most
    once (at its first occurrence; a field that is empty is not
    substituted); and on a string that contains neither token it
    returns the string unchanged, whatever the fields. *)
Theorem MakePathFromTemplate_type_then_date_once_idempotent :
  forall (tpl : gostring) (pd : PathParts.t),
    (exists mid,
        (PathParts.Type_ pd = [] /\ mid = tpl
         \/ PathParts.Type_ pd <> []
            /\ replaced_once tpl (go "<type>")
                 (strings.Trim (PathParts.Type_ pd) (go " ")) mid)
        /\ (PathParts.Date pd = [] /\ MakePathFromTemplate tpl pd = mid
            \/ PathParts.Date pd <> []
               /\ replaced_once mid (go "<date>") (PathParts.Date pd)
                    (MakePathFromTemplate tpl pd)))
    /\ (forall (r : gostring) (pd' : PathParts.t),
           strings.Contains r (go "<type>") = false ->
           strings.Contains r (go "<date>") = false ->
           MakePathFromTemplate r pd' = r).
Proof.
  intros tpl pd. split.
  - unfold MakePathFromTemplate.
    destruct (PathParts.Type_ pd) as [|c ty] eqn:Hty; simpl negb; cbv iota.
    + exists tpl. split; [left; split; reflexivity|].
      destruct (PathParts.Date pd) as [|c dt] eqn:Hdt; simpl negb; cbv iota.
      * left. split; reflexivity.
      * right. split; [discriminate|]. apply Replace_replaced_once.
    + eexists. split.
      * right. split; [discriminate|]. apply Replace_replaced_once.
      * destruct (PathParts.Date pd) as [|c' dt] eqn:Hdt; simpl negb;
          cbv iota.
        -- left. split; reflexivity.
        -- right. split; [discriminate|]. apply Replace_replaced_once.
  - intros r pd' Hty Hdt. unfold MakePathFromTemplate.
    assert (Nty : ~ occurs r (go "<type>")).
    { intro H. apply Contains_occurs in H. congruence. }
    assert (Ndt : ~ occurs r (go "<date>")).
    { intro H. apply Contains_occurs in H. congruence. }
    destruct (negb (is_empty (PathParts.Type_ pd')));
      destruct (negb (is_empty (PathParts.Date pd')));
      rewrite ?(Replace_absent _ _ _ _ Nty);
      rewrite ?(Replace_absent _ _ _ _ Ndt); reflexivity.
Qed.

Lemma MakePathFromTemplate_type_then_date_once_idempotent_witness :
  MakePathFromTemplate (go "/site/note/2015/03")
    {| PathParts.Date := go "2016/05"; PathParts.Type_ := go "photo" |}
  = go "/site/note/2015/03".
Proof.
  apply (proj2 (MakePathFromTemplate_type_then_date_once_idempotent
                  (go "/site/<type>/<date>")
                  {| PathParts.Date := go "2015/03";
                     PathParts.Type_ := go " note " |}));
    reflexivity.
Defined.

(** The white space of package [unicode] up to U+00FF ([unicode.IsSpace]),
    and the trimming of all of it ([strings.TrimSpace]), which the
    program does not use. *)
Definition white_space : gostring := [9; 10; 11; 12; 13; 32; 133; 160].

Definition whitespace_trimmed (s : gostring) : gostring :=
  strings.Trim s white_space.

(** C7, as it is stated, fails on a type that begins with a tab: the
    tab is white space, and is not trimmed. *)
Lemma MakePathFromTemplate_keeps_tab :
  let pd := {| PathParts.Date := go "2015/03";
               PathParts.Type_ := [9] ++ go "note " |} in
  MakePathFromTemplate (go "/site/<type>/<date>") pd
  = go "/site/" ++ [9] ++ go "note/2015/03"
  /\ whitespace_trimmed (PathParts.Type_ pd) = go "note"
  /\ MakePathFromTemplate (go "/site/<type>/<date>") pd
     <> strings.Replace
          (strings.Replace (go "/site/<type>/<date>") (go "<type>")
             (whitespace_trimmed (PathParts.Type_ pd)) 1)
          (go "<date>") (PathParts.Date pd) 1.
Proof.
  cbv zeta. split; [reflexivity|]. split; [reflexivity|].
  vm_compute. discriminate.
Qed.

Example MakePathFromTemplate_ex1 :
  MakePathFromTemplate (go "/site/<type>/<date>/<type>")
    {| PathParts.Date := go "2015/03"; PathParts.Type_ := go " note " |}
  = go "/site/note/2015/03/<type>".
Proof. reflexivity. Qed.

(** The type is substituted before the date: a type that spells [<date>]
    is itself rewritten by the second step. *)
Example MakePathFromTemplate_ex2 :
  MakePathFromTemplate (go "/<type>/<date>")
    {| PathParts.Date := go "2015"; PathParts.Type_ := go "<date>" |}
  = go "/2015/<date>".
Proof. reflexivity. Qed.

(* ================================================================= *)
(** ** The image normalizer *)

Lemma update_length {A : Type} (l : list A) (i : nat) (x : A) :
  length (update l i x) = length l.
Proof.
  revert i. induction l as [|y l IH]; intros [|i]; simpl; auto.
Qed.

Lemma update_same {A : Type} (l : list A) (i : nat) (x y : A) :
  nth_error l i = Some y -> nth_error (update l i x) i = Some x.
Proof.
  revert i. induction l as [|z l IH]; intros [|i]; simpl;
    try discriminate; auto.
Qed.

Lemma update_other {A : Type} (l : list A) (i k : nat) (x : A) :
  i <> k -> nth_error (update l i x) k = nth_error l k.
Proof.
  revert i k. induction l as [|z l IH]; intros [|i] [|k] H; simpl;
    try reflexivity; try contradiction.
  apply IH. congruence.
Qed.

Lemma update_update {A : Type} (l : list A) (i : nat) (x y : A) :
  update (update l i x) i y = update l i y.
Proof.
  revert i. induction l as [|z l IH]; intros [|i]; simpl; try reflexivity.
  f_equal. apply IH.
Qed.

Lemma update_id {A : Type} (l : list A) (i : nat) (x : A) :
  nth_error l i = Some x -> update l i x = l.
Proof.
  revert i. induction l as [|z l IH]; intros [|i]; simpl;
    try discriminate; try reflexivity.
  - congruence.
  - intro H. f_equal. apply IH. exact H.
Qed.

Section Normalizer.

Variable E : Extern.

(** The directory, the file and the address that [SaveImage] computes
    for an image named [name] that the post [relatedPost] refers to. *)
Definition image_dir (m : Mailpost.t) (relatedPost : Post.t) : gostring :=
  MakePathFromTemplate (Config.ImageDir (Mailpost.config m))
    {| PathParts.Date := MakeDatePathPart E m (Post.Date relatedPost);
       PathParts.Type_ := [] |}.

Definition image_path (m : Mailpost.t) (relatedPost : Post.t)
    (name : gostring) : gostring :=
  filepath.Join [image_dir m relatedPost; name].

Definition image_url (m : Mailpost.t) (relatedPost : Post.t)
    (name : gostring) : gostring :=
  filepath.Join [Config.BaseURL (Mailpost.config m);
                 Config.ImagePath (Mailpost.config m);
                 MakeDatePathPart E m (Post.Date relatedPost); name].

(** The image that is encoded: resized when wider than [MaxImgWidth]. *)
Definition fitted (m : Mailpost.t) (img : Img E) : Img E :=
  if img_width E img >? Config.MaxImgWidth (Mailpost.config m)
  then resize_Resize E (Config.MaxImgWidth (Mailpost.config m)) img
  else img.

(** The state in which [SaveImage] returns. *)
Definition saved (j : nat) (relatedPost : Post.t) (m : Mailpost.t)
    (image : Image.t) (img : Img E) : Mailpost.t :=
  let path := image_path m relatedPost (Image.Name image) in
  {| Mailpost.config := Mailpost.config m;
     Mailpost.images :=
       update (Mailpost.images m) j
         (Image.located image path
            (image_url m relatedPost (Image.Name image)));
     Mailpost.posts := Mailpost.posts m;
     Mailpost.trace :=
       Mailpost.trace m
       ++ [MkdirAll (image_dir m relatedPost);
           SavedImage j path (jpeg_Encode E (fitted m img))] |}.

Lemma SaveImage_Done (j : nat) (relatedPost : Post.t) (m : Mailpost.t)
    (image : Image.t) (img : Img E) :
  nth_error (Mailpost.images m) j = Some image ->
  os_MkdirAll E (image_dir m relatedPost) = true ->
  image_Decode E (Image.Data image) = Some img ->
  os_Create E (image_path m relatedPost (Image.Name image)) = true ->
  SaveImage E j relatedPost m = Done (saved j relatedPost m image img).
Proof.
  intros Hj Hmk Hdec Hcr. unfold SaveImage. rewrite Hj.
  fold (image_dir m relatedPost).
  cbv zeta. fold (image_dir m relatedPost).
  rewrite Hmk. cbn [negb]. rewrite Hdec.
  unfold image_path in Hcr. rewrite Hcr. cbn [negb].
  unfold saved, Mailpost.emit, Mailpost.with_images, fitted, image_path,
    image_url.
  cbn [Mailpost.images Mailpost.trace Mailpost.config Mailpost.posts
       PathParts.Date].
  rewrite update_update, <- app_assoc. reflexivity.
Qed.

(** An image whose bytes do not decode: the failure is logged, and
    the call of [Bounds] on the nil image that follows is a panic. *)
Lemma SaveImage_undecodable (j : nat) (relatedPost : Post.t)
    (m : Mailpost.t) (image : Image.t) :
  nth_error (Mailpost.images m) j = Some image ->
  os_MkdirAll E (image_dir m relatedPost) = true ->
  image_Decode E (Image.Data image) = None ->
  exists m', SaveImage E j relatedPost m = Panic m'
             /\ Mailpost.trace m'
                = Mailpost.trace m
                  ++ [MkdirAll (image_dir m relatedPost); LogDecodeFailed].
Proof.
  intros Hj Hmk Hdec. unfold SaveImage. rewrite Hj. cbv zeta.
  fold (image_dir m relatedPost). rewrite Hmk. cbn [negb].
  rewrite Hdec. eexists. split; [reflexivity|].
  cbn [Mailpost.emit Mailpost.with_images Mailpost.trace].
  rewrite <- app_assoc. reflexivity.
Qed.

(** The state a call ends in. *)
Definition state_of (r : Outcome) : Mailpost.t :=
  match r with Done m | Fatal m | Panic m => m end.

(** The four ways [SaveImage] ends on an image of the list. *)
Lemma SaveImage_cases (j : nat) (relatedPost : Post.t) (m : Mailpost.t)
    (image : Image.t) :
  nth_error (Mailpost.images m) j = Some image ->
  let dir := image_dir m relatedPost in
  let path := image_path m relatedPost (Image.Name image) in
  (os_MkdirAll E dir = false
   /\ exists m', SaveImage E j relatedPost m = Fatal m'
                 /\ Mailpost.trace m' = Mailpost.trace m ++ [MkdirAll dir])
  \/ (os_MkdirAll E dir = true
      /\ image_Decode E (Image.Data image) = None
      /\ exists m', SaveImage E j relatedPost m = Panic m'
                    /\ Mailpost.trace m'
                       = Mailpost.trace m ++ [MkdirAll dir; LogDecodeFailed])
  \/ (exists img,
        os_MkdirAll E dir = true
        /\ image_Decode E (Image.Data image) = Some img
        /\ os_Create E path = false
        /\ exists m', SaveImage E j relatedPost m = Fatal m'
                      /\ Mailpost.trace m' = Mailpost.trace m ++ [MkdirAll dir])
  \/ (exists img,
        os_MkdirAll E dir = true
        /\ image_Decode E (Image.Data image) = Some img
        /\ os_Create E path = true
        /\ SaveImage E j relatedPost m
           = Done (saved j relatedPost m image img)).
Proof.
  intros Hj dir path. subst dir path. unfold image_path.
  assert (Hunf : SaveImage E j relatedPost m =
    let dir := image_dir m relatedPost in
    let path := filepath.Join [dir; Image.Name image] in
    let url := image_url m relatedPost (Image.Name image) in
    let set (p u : gostring) (m : Mailpost.t) :=
      Mailpost.with_images m
        (update (Mailpost.images m) j (Image.located image p u)) in
    let m1 := Mailpost.emit (set dir (Image.URL image) m) (MkdirAll dir) in
    if negb (os_MkdirAll E dir) then Fatal m1
    else
      let m2 := set path url m1 in
      match image_Decode E (Image.Data image) with
      | None => Panic (Mailpost.emit m2 LogDecodeFailed)
      | Some img =>
          if negb (os_Create E path) then Fatal m2
          else Done (Mailpost.emit m2
                       (SavedImage j path (jpeg_Encode E (fitted m img))))
      end).
  { unfold SaveImage. rewrite Hj. reflexivity. }
  cbv zeta in Hunf.
  destruct (os_MkdirAll E (image_dir m relatedPost)) eqn:Hmk.
  - destruct (image_Decode E (Image.Data image)) as [img|] eqn:Hdec.
    + destruct (os_Create E
                  (filepath.Join [image_dir m relatedPost; Image.Name image]))
        eqn:Hcr.
      * right; right; right. exists img.
        split; [reflexivity|]. split; [reflexivity|]. split; [reflexivity|].
        apply SaveImage_Done; assumption.
      * right; right; left. exists img.
        split; [reflexivity|]. split; [reflexivity|]. split; [reflexivity|].
        cbn [negb] in Hunf. eexists. split; [exact Hunf|reflexivity].
    + right; left. split; [reflexivity|]. split; [reflexivity|].
      apply (SaveImage_undecodable j relatedPost m image); assumption.
  - left. split; [reflexivity|].
    cbn [negb] in Hunf. eexists. split; [exact Hunf|reflexivity].
Qed.

End Normalizer.

(** C9.  A field that is empty is not substituted: with an empty type
    [MakePathFromTemplate] does the date step only, with an empty date
    the type step only, and a token that the template has for the empty
    field is still in the result.  [SaveImage] fills the date only, so
    that the directory of an image is [ImageDir] with its [<date>]
    replaced and its [<type>] left as it is; this is the directory it
    creates first, however the call ends. *)
Theorem MakePathFromTemplate_empty_field_left_in_place :
  forall (E : Extern) (tpl : gostring) (pd : PathParts.t)
         (m : Mailpost.t) (relatedPost : Post.t),
    (PathParts.Type_ pd = [] ->
       MakePathFromTemplate tpl pd
       = (if is_empty (PathParts.Date pd) then tpl
          else strings.Replace tpl (go "<date>") (PathParts.Date pd) 1)
       /\ (occurs tpl (go "<type>") ->
           occurs (MakePathFromTemplate tpl pd) (go "<type>")))
    /\ (PathParts.Date pd = [] ->
          MakePathFromTemplate tpl pd
          = (if is_empty (PathParts.Type_ pd) then tpl
             else strings.Replace tpl (go "<type>")
                    (strings.Trim (PathParts.Type_ pd) (go " ")) 1)
          /\ (occurs tpl (go "<date>") ->
              occurs (MakePathFromTemplate tpl pd) (go "<date>")))
    /\ (let datePathPart := MakeDatePathPart E m (Post.Date relatedPost) in
        let ImageDir := Config.ImageDir (Mailpost.config m) in
        image_dir E m relatedPost
        = (if is_empty datePathPart then ImageDir
           else strings.Replace ImageDir (go "<date>") datePathPart 1)
        /\ (occurs ImageDir (go "<type>") ->
            occurs (image_dir E m relatedPost) (go "<type>"))
        /\ forall j image,
             nth_error (Mailpost.images m) j = Some image ->
             exists rest,
               Mailpost.trace (state_of (SaveImage E j relatedPost m))
               = Mailpost.trace m
                 ++ MkdirAll (image_dir E m relatedPost) :: rest).
Proof.
  intros E tpl pd m relatedPost.
  assert (Htype : forall t p, PathParts.Type_ p = [] ->
            MakePathFromTemplate t p
            = (if is_empty (PathParts.Date p) then t
               else strings.Replace t (go "<date>") (PathParts.Date p) 1)
            /\ (occurs t (go "<type>") ->
                occurs (MakePathFromTemplate t p) (go "<type>"))).
  { intros t p Hty. unfold MakePathFromTemplate. rewrite Hty.
    cbn [is_empty negb].
    destruct (is_empty (PathParts.Date p)); cbn [negb].
    - split; [reflexivity | auto].
    - split; [reflexivity|].
      apply occurs_after_Replace;
        [apply type_date_apart | apply date_type_apart]. }
  split; [apply Htype|]. split.
  - intro Hdt. unfold MakePathFromTemplate. rewrite Hdt.
    cbn [is_empty negb].
    destruct (is_empty (PathParts.Type_ pd)); cbn [negb].
    + split; [reflexivity | auto].
    + split; [reflexivity|].
      apply occurs_after_Replace;
        [apply date_type_apart | apply type_date_apart].
  - cbv zeta. unfold image_dir.
    destruct (Htype (Config.ImageDir (Mailpost.config m))
                {| PathParts.Date := MakeDatePathPart E m (Post.Date relatedPost);
                   PathParts.Type_ := [] |} eq_refl) as [H1 H2].
    split; [exact H1|]. split; [exact H2|].
    intros j image Hj.
    destruct (SaveImage_cases E j relatedPost m image Hj)
      as [(_ & m' & -> & Ht)
         |[(_ & _ & m' & -> & Ht)
          |[(img & _ & _ & _ & m' & -> & Ht)
           |(img & _ & _ & _ & ->)]]];
      cbn [state_of]; try rewrite Ht; unfold image_dir;
      eexists; cbn [saved Mailpost.trace app]; reflexivity.
Qed.

Lemma MakePathFromTemplate_empty_field_left_in_place_witness :
  MakePathFromTemplate (go "/site/static/<type>/<date>")
    {| PathParts.Date := go "2015/03"; PathParts.Type_ := [] |}
  = go "/site/static/<type>/2015/03".
Proof.
  exact (proj1 (proj1 (MakePathFromTemplate_empty_field_left_in_place
                         Sample.extern (go "/site/static/<type>/<date>")
                         {| PathParts.Date := go "2015/03";
                            PathParts.Type_ := [] |}
                         Sample.start (Sample.post [] []))
                      eq_refl)).
Defined.

(* ================================================================= *)
(** ** The filename sanitizer *)

(** The class [[a-z0-9_.]]. *)
Definition in_class (c : rune) : bool :=
  ((97 <=? c) && (c <=? 122)) || ((48 <=? c) && (c <=? 57))
  || (c =? 95) || (c =? 46).

(** A whole string that matches [[a-z0-9_.]*], and [[a-z0-9_.]+]. *)
Definition matches_class_star (s : gostring) : bool := forallb in_class s.
Definition matches_class_plus (s : gostring) : bool :=
  negb (is_empty s) && forallb in_class s.

(** What the sanitizer makes of one rune. *)
Definition sanitize_rune (T : strings.CaseTable) (c : rune) : rune :=
  let l := strings.ToLowerRune T c in
  if first reNotWordDot l then 95 else l.

Lemma ReplaceAllString_reNotWordDot (s : gostring) :
  ReplaceAllString reNotWordDot s (go "_")
  = map (fun c => if first reNotWordDot c then 95 else c) s.
Proof.
  unfold ReplaceAllString. induction s as [|c s IH]; [reflexivity|].
  cbn [replace_scan map]. unfold match_at.
  cbn [run rest reNotWordDot first].
  destruct (negb (word c || (c =? 46))) eqn:Hc.
  - replace (length (c :: s) - length s - 1)%nat with O
      by (cbn [length]; lia).
    rewrite IH. reflexivity.
  - rewrite IH. reflexivity.
Qed.

Lemma SanitizeFilename_map (E : Extern) (name : gostring) :
  SanitizeFilename E name = map (sanitize_rune (case_table E)) name.
Proof.
  unfold SanitizeFilename, strings.ToLower.
  rewrite ReplaceAllString_reNotWordDot, map_map. reflexivity.
Qed.

Lemma in_class_iff (c : rune) :
  in_class c = true
  <-> (97 <= c <= 122) \/ (48 <= c <= 57) \/ c = 95 \/ c = 46.
Proof.
  unfold in_class.
  rewrite !orb_true_iff, !andb_true_iff, !Z.leb_le, !Z.eqb_eq. tauto.
Qed.

Lemma word_iff (c : rune) :
  word c = true
  <-> (48 <= c <= 57) \/ (65 <= c <= 90) \/ (97 <= c <= 122) \/ c = 95.
Proof.
  unfold word.
  rewrite !orb_true_iff, !andb_true_iff, !Z.leb_le, !Z.eqb_eq. tauto.
Qed.

Lemma is_upper_ascii_iff (c : rune) :
  strings.is_upper_ascii c = true <-> 65 <= c <= 90.
Proof.
  unfold strings.is_upper_ascii.
  rewrite andb_true_iff, !Z.leb_le. tauto.
Qed.

Lemma is_upper_ascii_false (c : rune) :
  strings.is_upper_ascii c = false <-> ~ (65 <= c <= 90).
Proof.
  rewrite <- is_upper_ascii_iff. destruct (strings.is_upper_ascii c);
    split; congruence.
Qed.

Lemma ToLowerRune_not_upper (T : strings.CaseTable) (c : rune) :
  strings.is_upper_ascii (strings.ToLowerRune T c) = false.
Proof.
  unfold strings.ToLowerRune.
  destruct (strings.is_upper_ascii c) eqn:Hup.
  - apply is_upper_ascii_iff in Hup. apply is_upper_ascii_false. lia.
  - destruct (c <=? 127) eqn:Hc; [exact Hup|].
    apply strings.lower_beyond_ascii_not_upper. apply Z.leb_gt in Hc. lia.
Qed.

Lemma sanitize_rune_in_class (T : strings.CaseTable) (c : rune) :
  in_class (sanitize_rune T c) = true.
Proof.
  unfold sanitize_rune. cbv zeta. cbn [first reNotWordDot].
  pose proof (ToLowerRune_not_upper T c) as Hup.
  set (l := strings.ToLowerRune T c) in *. clearbody l.
  apply is_upper_ascii_false in Hup.
  destruct (word l || (l =? 46)) eqn:Hw; cbn [negb]; [|reflexivity].
  apply orb_true_iff in Hw. rewrite word_iff, Z.eqb_eq in Hw.
  apply in_class_iff. lia.
Qed.

Lemma sanitize_rune_fixed (T : strings.CaseTable) (c : rune) :
  in_class c = true -> sanitize_rune T c = c.
Proof.
  intro H. apply in_class_iff in H.
  unfold sanitize_rune, strings.ToLowerRune. cbv zeta.
  replace (strings.is_upper_ascii c) with false
    by (symmetry; apply is_upper_ascii_false; lia).
  replace (c <=? 127) with true by (symmetry; apply Z.leb_le; lia).
  cbn [first reNotWordDot].
  replace (word c || (c =? 46)) with true; [reflexivity|].
  symmetry. apply orb_true_iff. rewrite word_iff, Z.eqb_eq. lia.
Qed.

Lemma in_class_not_upper (c : rune) :
  in_class c = true -> negb (strings.is_upper_ascii c) = true.
Proof.
  intro H. apply in_class_iff in H. apply negb_true_iff.
  apply is_upper_ascii_false. lia.
Qed.

(** C8, as the program has it.  The sanitizer is idempotent and its
    output consists of runes of [[a-z0-9_.]] only (so it has no capital
    letter); the output is as long as the input, and so matches
    [[a-z0-9_.]+] exactly when the input is not empty. *)
Theorem SanitizeFilename_idempotent_in_class :
  forall (E : Extern) (x : gostring),
    SanitizeFilename E (SanitizeFilename E x) = SanitizeFilename E x
    /\ matches_class_star (SanitizeFilename E x) = true
    /\ forallb (fun c => negb (strings.is_upper_ascii c))
         (SanitizeFilename E x) = true
    /\ length (SanitizeFilename E x) = length x
    /\ matches_class_plus (SanitizeFilename E x) = negb (is_empty x).
Proof.
  intros E x. rewrite !SanitizeFilename_map.
  set (T := case_table E).
  assert (Hcls : forallb in_class (map (sanitize_rune T) x) = true).
  { apply forallb_forall. intros c Hc. apply in_map_iff in Hc.
    destruct Hc as (c0 & <- & _). apply sanitize_rune_in_class. }
  split; [|split; [|split; [|split]]].
  - rewrite map_map. apply map_ext. intro c.
    apply sanitize_rune_fixed. apply sanitize_rune_in_class.
  - exact Hcls.
  - apply forallb_forall. intros c Hc. apply in_map_iff in Hc.
    destruct Hc as (c0 & <- & _).
    apply in_class_not_upper. apply sanitize_rune_in_class.
  - apply length_map.
  - unfold matches_class_plus. rewrite Hcls, andb_true_r.
    destruct x; reflexivity.
Qed.

(** C8, as it is stated, fails on the empty name (that of an attachment
    without a file name, or of a post without a title): the output is
    empty and does not match [[a-z0-9_.]+]. *)
Lemma SanitizeFilename_empty_not_plus :
  SanitizeFilename Sample.extern (go "") = go ""
  /\ matches_class_plus (SanitizeFilename Sample.extern (go "")) = false.
Proof. split; reflexivity. Qed.

Example SanitizeFilename_ex1 :
  SanitizeFilename Sample.extern (go "My Apple-Pie (1).JPG")
  = go "my_apple_pie__1_.jpg".
Proof. reflexivity. Qed.

(* ================================================================= *)
(** ** Cleaned paths *)

(** Two separators in a row somewhere in [s]. *)
Fixpoint double_slash (s : gostring) : bool :=
  match s with
  | [] => false
  | c :: s' =>
      ((c =? 47) && match s' with d :: _ => d =? 47 | [] => false end)
      || double_slash s'
  end.

Lemma occurs_double_slash (s : gostring) :
  occurs s (go "//") -> double_slash s = true.
Proof.
  intros (pre & suf & ->). induction pre as [|c pre IH].
  - reflexivity.
  - cbn [app double_slash]. rewrite IH. apply orb_true_r.
Qed.

Lemma double_slash_false_Contains (s : gostring) :
  double_slash s = false ->
  strings.Contains s (go "//") = false /\ strings.Contains s (go "://") = false.
Proof.
  intro H. split.
  - destruct (strings.Contains s (go "//")) eqn:Hc; [|reflexivity].
    apply Contains_occurs in Hc. apply occurs_double_slash in Hc. congruence.
  - destruct (strings.Contains s (go "://")) eqn:Hc; [|reflexivity].
    apply Contains_occurs in Hc. destruct Hc as (pre & suf & Hs).
    assert (Ho : occurs s (go "//")).
    { exists (pre ++ [58]), suf. unfold occurs_at in *. rewrite Hs.
      rewrite <- app_assoc. reflexivity. }
    apply occurs_double_slash in Ho. congruence.
Qed.

(** An element that [Clean] writes: not empty, and without separator. *)
Definition written (e : gostring) : Prop := e <> [] /\ ~ In 47 e.

Lemma double_slash_app_element (e s : gostring) :
  ~ In 47 e -> double_slash (e ++ s) = double_slash s.
Proof.
  induction e as [|c e IH]; intro H; [reflexivity|].
  cbn [app double_slash].
  assert (Hc : (c =? 47) = false).
  { apply Z.eqb_neq. intro Heq. apply H. left. exact Heq. }
  rewrite Hc. cbn [andb orb]. apply IH. intro Hin. apply H. right. exact Hin.
Qed.

Definition begins_with_slash (s : gostring) : bool :=
  match s with c :: _ => c =? 47 | [] => false end.

Lemma double_slash_cons (c : rune) (s : gostring) :
  double_slash (c :: s) = (c =? 47) && begins_with_slash s || double_slash s.
Proof. destruct s; reflexivity. Qed.

Lemma Join_cons (e e' : gostring) (l : list gostring) (sep : gostring) :
  strings.Join (e :: e' :: l) sep = e ++ sep ++ strings.Join (e' :: l) sep.
Proof. reflexivity. Qed.

Lemma Join_written (l : list gostring) :
  Forall written l ->
  double_slash (strings.Join l [47]) = false
  /\ begins_with_slash (strings.Join l [47]) = false.
Proof.
  induction l as [|e l IH]; intro H; [split; reflexivity|].
  pose proof (Forall_inv H) as [Hne Hns].
  pose proof (Forall_inv_tail H) as Hl. specialize (IH Hl).
  assert (Hb : forall s, begins_with_slash (e ++ s) = false).
  { intro s. destruct e as [|c e]; [contradiction|]. cbn.
    apply Z.eqb_neq. intro Heq. apply Hns. left. exact Heq. }
  destruct l as [|e' l].
  - cbn [strings.Join]. split.
    + rewrite <- (app_nil_r e). rewrite double_slash_app_element by exact Hns.
      reflexivity.
    + rewrite <- (app_nil_r e). apply Hb.
  - rewrite Join_cons. split; [|apply Hb].
    rewrite double_slash_app_element by exact Hns.
    destruct IH as [IH1 IH2].
    cbn [app]. rewrite double_slash_cons, IH1, IH2. reflexivity.
Qed.

Lemma elements_no_separator (path : gostring) :
  Forall (fun e => ~ In 47 e) (filepath.elements path).
Proof.
  induction path as [|c path IH]; cbn [filepath.elements].
  - constructor; [intros []|constructor].
  - unfold filepath.IsPathSeparator, filepath.Separator.
    destruct (c =? 47) eqn:Hc.
    + constructor; [intros []|exact IH].
    + destruct (filepath.elements path) as [|e es].
      * constructor; [|constructor]. intros [H|[]].
        apply Z.eqb_neq in Hc. congruence.
      * constructor; [|exact (Forall_inv_tail IH)].
        intros [H|H]; [apply Z.eqb_neq in Hc; congruence|].
        exact (Forall_inv IH H).
Qed.

Lemma is_empty_false (e : gostring) : is_empty e = false -> e <> [].
Proof. destruct e; [discriminate|discriminate]. Qed.

Lemma clean_step_written (rooted : bool) (out : list gostring)
    (e : gostring) :
  Forall written out -> ~ In 47 e ->
  Forall written (filepath.clean_step rooted out e).
Proof.
  intros Hout He. unfold filepath.clean_step.
  destruct (is_empty e) eqn:Hemp; [exact Hout|].
  destruct (filepath.is_dot e); [exact Hout|].
  assert (Hw : written e) by (split; [apply is_empty_false; exact Hemp|exact He]).
  destruct (filepath.is_dotdot e).
  - destruct out as [|top out'].
    + destruct rooted; [exact Hout|]. constructor; [exact Hw|constructor].
    + destruct (filepath.is_dotdot top).
      * destruct rooted; [exact Hout|]. constructor; assumption.
      * exact (Forall_inv_tail Hout).
  - constructor; assumption.
Qed.

Lemma fold_clean_step_written (rooted : bool) (es out : list gostring) :
  Forall written out -> Forall (fun e => ~ In 47 e) es ->
  Forall written (fold_left (filepath.clean_step rooted) es out).
Proof.
  revert out. induction es as [|e es IH]; intros out Hout Hes; [exact Hout|].
  cbn [fold_left]. apply IH.
  - apply clean_step_written; [exact Hout|exact (Forall_inv Hes)].
  - exact (Forall_inv_tail Hes).
Qed.

(** [Clean] never returns two separators in a row. *)
Lemma Clean_no_double_slash (path : gostring) :
  double_slash (filepath.Clean path) = false.
Proof.
  unfold filepath.Clean, filepath.IsPathSeparator, filepath.Separator.
  destruct path as [|c path]; [reflexivity|].
  cbv zeta.
  set (out := rev (fold_left _ _ _)).
  assert (Hw : Forall written out).
  { apply Forall_rev. apply fold_clean_step_written;
      [constructor|apply elements_no_separator]. }
  destruct (Join_written out Hw) as [H1 H2]. clearbody out.
  destruct out as [|e out'].
  - destruct (c =? 47); reflexivity.
  - destruct (c =? 47); cbn [app]; [|exact H1].
    rewrite double_slash_cons, H1, H2. reflexivity.
Qed.

Lemma Join_no_double_slash (elem : list gostring) :
  double_slash (filepath.Join elem) = false.
Proof.
  induction elem as [|e elem IH]; [reflexivity|].
  cbn [filepath.Join]. destruct (is_empty e); [exact IH|].
  apply Clean_no_double_slash.
Qed.

(** The elements that [Clean] keeps when it meets no [..]. *)
Definition kept (e : gostring) : bool :=
  negb (is_empty e) && negb (filepath.is_dot e).

Definition no_dotdot (es : list gostring) : bool :=
  forallb (fun e => negb (filepath.is_dotdot e)) es.

Lemma fold_clean_step_no_dotdot (rooted : bool) (es out : list gostring) :
  no_dotdot es = true ->
  fold_left (filepath.clean_step rooted) es out = rev (filter kept es) ++ out.
Proof.
  revert out. induction es as [|e es IH]; intros out H; [reflexivity|].
  cbn [no_dotdot forallb] in H. apply andb_true_iff in H.
  destruct H as [He Hes]. apply negb_true_iff in He.
  cbn [fold_left filter]. rewrite IH by exact Hes.
  unfold filepath.clean_step, kept. rewrite He.
  destruct (is_empty e); cbn [negb andb]; [reflexivity|].
  destruct (filepath.is_dot e); cbn [negb andb]; [reflexivity|].
  cbn [rev]. rewrite <- app_assoc. reflexivity.
Qed.

Lemma elements_not_nil (path : gostring) : filepath.elements path <> [].
Proof.
  destruct path as [|c path]; cbn [filepath.elements]; [discriminate|].
  destruct (filepath.IsPathSeparator c); [discriminate|].
  destruct (filepath.elements path); discriminate.
Qed.

Lemma elements_app_separator (x y : gostring) :
  filepath.elements (x ++ 47 :: y)
  = filepath.elements x ++ filepath.elements y.
Proof.
  induction x as [|c x IH]; [reflexivity|].
  cbn [app filepath.elements]. rewrite IH.
  destruct (filepath.IsPathSeparator c); [reflexivity|].
  pose proof (elements_not_nil x) as Hx.
  destruct (filepath.elements x) as [|e es]; [contradiction|reflexivity].
Qed.

Lemma elements_plain (t : gostring) :
  ~ In 47 t -> filepath.elements t = [t].
Proof.
  induction t as [|c t IH]; intro H; [reflexivity|].
  cbn [filepath.elements].
  unfold filepath.IsPathSeparator, filepath.Separator.
  replace (c =? 47) with false
    by (symmetry; apply Z.eqb_neq; intro Heq; apply H; left; exact Heq).
  rewrite IH by (intro Hin; apply H; right; exact Hin). reflexivity.
Qed.

(** Text without separator, appended to a path, is appended to its
    last element. *)
Lemma elements_app_plain (x t : gostring) (P : list gostring) (k : gostring) :
  ~ In 47 t -> filepath.elements x = P ++ [k] ->
  filepath.elements (x ++ t) = P ++ [k ++ t].
Proof.
  intro Ht. revert P k. induction x as [|c x IH]; intros P k Hx.
  - cbn [filepath.elements] in Hx. destruct P as [|p P].
    + injection Hx as <-. cbn [app]. apply elements_plain. exact Ht.
    + destruct P; discriminate Hx.
  - cbn [app filepath.elements] in *.
    destruct (filepath.IsPathSeparator c).
    + destruct P as [|p P].
      * injection Hx as _ Hx. exfalso. exact (elements_not_nil x Hx).
      * injection Hx as <- Hx. rewrite (IH P k Hx). reflexivity.
    + destruct (filepath.elements x) as [|e es] eqn:Hex;
        [exfalso; exact (elements_not_nil x Hex)|].
      destruct (exists_last (l := e :: es)) as (P' & k' & HP);
        [discriminate|].
      rewrite (IH P' k' HP).
      destruct P' as [|p' P'].
      * injection HP as -> ->. destruct P as [|p P].
        -- injection Hx as <-. reflexivity.
        -- destruct P; discriminate Hx.
      * injection HP as -> ->. cbn [app].
        change ((c :: p') :: P' ++ [k']) with (((c :: p') :: P') ++ [k']) in Hx.
        apply app_inj_tail in Hx. destruct Hx as [<- <-]. reflexivity.
Qed.

Lemma Join_app_cons (A : list gostring) (h : gostring) (B : list gostring)
    (sep : gostring) :
  B <> [] ->
  exists X, strings.Join (A ++ h :: B) sep
            = X ++ h ++ sep ++ strings.Join B sep.
Proof.
  intro HB. induction A as [|a A IH].
  - exists []. destruct B as [|b B]; [contradiction|reflexivity].
  - destruct IH as [X HX]. exists (a ++ sep ++ X).
    cbn [app]. destruct (A ++ h :: B) as [|y ys] eqn:Hy.
    + destruct A; discriminate Hy.
    + rewrite Join_cons, HX. rewrite <- !app_assoc. reflexivity.
Qed.

Lemma kept_long (e : gostring) : (2 <= length e)%nat -> kept e = true.
Proof.
  destruct e as [|c [|d e]]; cbn [length]; try lia. intros _.
  unfold kept, filepath.is_dot. cbn. rewrite andb_false_r. reflexivity.
Qed.

(** A path without [..] element, in which [h] ends an element that a
    separator follows, and that ends with [t]: the cleaned path still
    has [h] and a separator after it. *)
Lemma Clean_keeps_element (a h M t : gostring) :
  ~ In 47 h -> (2 <= length h)%nat -> ~ In 47 t -> (2 <= length t)%nat ->
  no_dotdot (filepath.elements ((a ++ h) ++ 47 :: (M ++ t))) = true ->
  occurs (filepath.Clean ((a ++ h) ++ 47 :: (M ++ t))) (h ++ [47]).
Proof.
  intros Hh Lh Ht Lt Hnd.
  destruct (exists_last (elements_not_nil a)) as (P & k & HP).
  destruct (exists_last (elements_not_nil M)) as (Q & k' & HQ).
  assert (Hel : filepath.elements ((a ++ h) ++ 47 :: (M ++ t))
                = P ++ (k ++ h) :: (Q ++ [k' ++ t])).
  { rewrite elements_app_separator.
    rewrite (elements_app_plain a h P k Hh HP).
    rewrite (elements_app_plain M t Q k' Ht HQ).
    rewrite <- app_assoc. reflexivity. }
  assert (Hf : filter kept (filepath.elements ((a ++ h) ++ 47 :: (M ++ t)))
               = filter kept P ++ (k ++ h) :: (filter kept Q ++ [k' ++ t])).
  { rewrite Hel, filter_app. cbn [filter].
    rewrite kept_long by (rewrite length_app; lia).
    rewrite filter_app. cbn [filter].
    rewrite kept_long by (rewrite length_app; lia). reflexivity. }
  unfold filepath.Clean.
  destruct ((a ++ h) ++ 47 :: M ++ t) as [|c path] eqn:Hpath.
  { destruct (a ++ h); discriminate Hpath. }
  cbv zeta. rewrite fold_clean_step_no_dotdot by exact Hnd.
  rewrite app_nil_r, rev_involutive, Hf.
  destruct (Join_app_cons (filter kept P) (k ++ h)
              (filter kept Q ++ [k' ++ t]) [filepath.Separator])
    as [X HX].
  { destruct (filter kept Q); discriminate. }
  destruct (filter kept P ++ (k ++ h) :: filter kept Q ++ [k' ++ t])
    as [|e es] eqn:Hes.
  { destruct (filter kept P); discriminate Hes. }
  rewrite HX.
  exists ((if filepath.IsPathSeparator c then [filepath.Separator] else [])
          ++ X ++ k),
    (strings.Join (filter kept Q ++ [k' ++ t]) [filepath.Separator]).
  unfold occurs_at, filepath.Separator.
  rewrite <- !app_assoc. reflexivity.
Qed.

(* ================================================================= *)
(** ** The public address of an image *)

Lemma SaveImage_Done_inv (E : Extern) (j : nat) (relatedPost : Post.t)
    (m m' : Mailpost.t) (image : Image.t) :
  nth_error (Mailpost.images m) j = Some image ->
  SaveImage E j relatedPost m = Done m' ->
  exists img, image_Decode E (Image.Data image) = Some img
              /\ m' = saved E j relatedPost m image img.
Proof.
  intros Hj Hdone.
  destruct (SaveImage_cases E j relatedPost m image Hj)
    as [(_ & m1 & H & _)
       |[(_ & _ & m1 & H & _)
        |[(img & _ & _ & _ & m1 & H & _)
         |(img & _ & Hdec & _ & H)]]];
    rewrite H in Hdone; try discriminate Hdone.
  injection Hdone as <-. exists img. split; [exact Hdec|reflexivity].
Qed.

(** C10, as the program has it.  The address that [SaveImage] stores is
    [filepath.Join(BaseURL, ImagePath, datePathPart, Name)]; it never
    has two separators in a row, so that no [://] is left in it; and it
    still has [http:/] when [BaseURL] has [http://], no element of the
    joined path is [..], and the name ends in [.jpg] (as the names that
    [ExtractImageData] makes do). *)
Theorem image_url_never_keeps_double_slash :
  forall (E : Extern) (m : Mailpost.t) (relatedPost : Post.t)
         (name : gostring),
    let cfg := Mailpost.config m in
    let datePathPart := MakeDatePathPart E m (Post.Date relatedPost) in
    let elem :=
      [Config.BaseURL cfg; Config.ImagePath cfg; datePathPart; name] in
    let url := image_url E m relatedPost name in
    (forall j image m',
        nth_error (Mailpost.images m) j = Some image ->
        Image.Name image = name ->
        SaveImage E j relatedPost m = Done m' ->
        option_map Image.URL (nth_error (Mailpost.images m') j)
        = Some (filepath.Join elem))
    /\ strings.Contains url (go "//") = false
    /\ strings.Contains url (go "://") = false
    /\ (occurs (Config.BaseURL cfg) (go "http://") ->
        no_dotdot (filepath.elements (strings.Join elem [47])) = true ->
        (exists stem, name = stem ++ go ".jpg") ->
        strings.Contains url (go "http:/") = true).
Proof.
  intros E m relatedPost name cfg datePathPart elem url.
  split; [|split; [|split]].
  - intros j image m' Hj Hname Hdone.
    destruct (SaveImage_Done_inv E j relatedPost m m' image Hj Hdone)
      as (img & _ & ->).
    cbn [saved Mailpost.images].
    rewrite (update_same _ _ _ _ Hj). cbn [option_map Image.located Image.URL].
    rewrite Hname. reflexivity.
  - apply double_slash_false_Contains. apply Join_no_double_slash.
  - apply double_slash_false_Contains. apply Join_no_double_slash.
  - intros (a & b & Hb) Hnd (stem & Hstem).
    unfold occurs_at in Hb.
    apply Contains_occurs.
    change (go "http:/") with (go "http:" ++ [47]).
    set (M := 47 :: b ++ 47 :: Config.ImagePath cfg ++ 47 :: datePathPart
               ++ 47 :: stem).
    assert (Hpath : strings.Join elem [47]
                    = (a ++ go "http:") ++ 47 :: (M ++ go ".jpg")).
    { subst elem M. cbn [strings.Join]. rewrite Hb, Hstem.
      change (go "http://") with (go "http:" ++ [47; 47]).
      repeat (first [rewrite <- app_assoc | progress cbn [app]]).
      reflexivity. }
    assert (Hurl : url = filepath.Clean (strings.Join elem [47])).
    { subst url elem. unfold image_url. fold cfg datePathPart.
      cbn [filepath.Join]. rewrite Hb.
      destruct a; reflexivity. }
    rewrite Hurl. rewrite Hpath in Hnd |- *.
    apply Clean_keeps_element; try exact Hnd.
    + intro H. cbn in H. intuition discriminate.
    + cbn. lia.
    + intro H. cbn in H. intuition discriminate.
    + cbn. lia.
Qed.

Lemma image_url_never_keeps_double_slash_witness :
  strings.Contains
    (image_url Sample.extern Sample.start (Sample.post (go "2015-03-04") [])
       (go "apple.jpg"))
    (go "http:/") = true.
Proof.
  apply (proj2 (proj2 (proj2
           (image_url_never_keeps_double_slash Sample.extern Sample.start
              (Sample.post (go "2015-03-04") []) (go "apple.jpg")))));
    [exists [], (go "example.com"); reflexivity
    | reflexivity
    | exists (go "apple"); reflexivity].
Defined.

(** C10, as it is stated, fails when a [..] element of the joined path
    removes the scheme: [http:/] is not in the address then. *)
Lemma image_url_without_scheme :
  let m := Sample.state (Sample.config_at (go "http://.."))
             [Sample.stored (go "apple.jpg") (go "apple.jpg") [Byte.x01]]
             [] in
  strings.Contains (Config.BaseURL (Mailpost.config m)) (go "http://") = true
  /\ match SaveImage Sample.extern 0 (Sample.post (go "2015-03-04") []) m with
     | Done m' => map Image.URL (Mailpost.images m')
     | _ => []
     end = [go "img/2015/03/apple.jpg"]
  /\ strings.Contains (go "img/2015/03/apple.jpg") (go "http:/") = false.
Proof. cbv zeta. split; [|split]; reflexivity. Qed.

Example image_url_ex1 :
  image_url Sample.extern Sample.start (Sample.post (go "2015-03-04") [])
    (go "apple.jpg")
  = go "http:/example.com/img/2015/03/apple.jpg".
Proof. reflexivity. Qed.

(* ================================================================= *)
(** ** The reference resolver *)

(** The test of the innermost loops: the captured text is the name or
    the address the image came with. *)
Definition refers_to (image : Image.t) (loc : gostring) : bool :=
  gostring_eqb (Image.OrigName image) loc
  || gostring_eqb (Image.OrigURL image) loc.

Section Resolver.

Variable E : Extern.

Lemma resolve_no_match (p : nat) (loc : gostring) (j : nat)
    (m : Mailpost.t) (image : Image.t) (post : Post.t) :
  nth_error (Mailpost.images m) j = Some image ->
  nth_error (Mailpost.posts m) p = Some post ->
  refers_to image loc = false ->
  resolve E p loc j m = Done m.
Proof.
  intros Hj Hp Hno. unfold resolve. rewrite Hj, Hp.
  unfold refers_to in Hno. rewrite Hno. reflexivity.
Qed.

(** On a match, when the directory can be made, the bytes decode and
    the file can be created: the image is saved and the body of the
    post is rewritten. *)
Lemma resolve_match (p : nat) (loc : gostring) (j : nat)
    (m : Mailpost.t) (image : Image.t) (post : Post.t) (img : Img E) :
  nth_error (Mailpost.images m) j = Some image ->
  nth_error (Mailpost.posts m) p = Some post ->
  refers_to image loc = true ->
  os_MkdirAll E (image_dir E m post) = true ->
  image_Decode E (Image.Data image) = Some img ->
  os_Create E (image_path E m post (Image.Name image)) = true ->
  resolve E p loc j m
  = Done (Mailpost.with_posts (saved E j post m image img)
            (update (Mailpost.posts m) p
               (Post.with_Data post
                  (strings.Replace (Post.Data post) loc
                     (image_url E m post (Image.Name image)) 1)))).
Proof.
  intros Hj Hp Hyes Hmk Hdec Hcr. unfold resolve. rewrite Hj, Hp.
  unfold refers_to in Hyes. rewrite Hyes.
  rewrite (SaveImage_Done E j post m image img Hj Hmk Hdec Hcr).
  cbn [and_then saved Mailpost.images Mailpost.posts].
  rewrite (update_same _ _ _ _ Hj), Hp. reflexivity.
Qed.

End Resolver.



(** The files written for [m.images[j]], in the order of the trace. *)
Fixpoint saved_files (j : nat) (trace : list Event) : list gostring :=
  match trace with
  | [] => []
  | SavedImage k path _ :: trace' =>
      if Nat.eqb k j then path :: saved_files j trace'
      else saved_files j trace'
  | _ :: trace' => saved_files j trace'
  end.

(** C2 on the program: an image whose bytes do not decode and that a
    post refers to.  The failure is logged, and the run dies of the
    panic that follows; the post is not written. *)
Theorem undecodable_image_ends_the_run :
  let m := Sample.state Sample.config
             [Sample.stored (go "Apple.JPG") (go "apple.jpg") [Byte.x00]]
             [Sample.post (go "2015-03-04") (go "![An apple](Apple.JPG)")] in
  match ReplaceImageRefs Sample.extern m with
  | Panic m' => Some (Mailpost.trace m')
  | _ => None
  end
  = Some [MkdirAll (go "/site/static/img/2015/03"); LogDecodeFailed].
Proof. vm_compute. reflexivity. Qed.

(** C3 on the program: a text whose front matter parses and has no
    title.  A post is made of it, with an empty title and the file name
    [.md]. *)
Theorem untitled_post_is_kept :
  match ExtractPostData Sample.extern Sample.text_untitled Sample.start with
  | Done m' =>
      map (fun p => (Post.Title p, Post.File p, Post.Path p))
        (Mailpost.posts m')
  | _ => []
  end
  = [(go "", go ".md", go "/site/content/note/2015/03")].
Proof. vm_compute. reflexivity. Qed.

(** The same on any system: whenever the front matter parses and the
    directory can be made, a post enters the working set, be its title
    empty. *)
Lemma ExtractPostData_keeps_untitled (E : Extern) (text : gostring)
    (t : FrontMatter.t) (m : Mailpost.t) :
  yaml_Unmarshal E text = Some t ->
  FrontMatter.Title t = [] ->
  (forall path, os_MkdirAll E path = true) ->
  exists m' post,
    ExtractPostData E text m = Done m'
    /\ Mailpost.posts m' = Mailpost.posts m ++ [post]
    /\ Post.Title post = []
    /\ Post.File post = go ".md".
Proof.
  intros Hy Ht Hmk. unfold ExtractPostData, MakePostPath. rewrite Hy.
  cbv zeta. rewrite Hmk. eexists _, _. split; [reflexivity|].
  cbn [Mailpost.with_posts Mailpost.posts Mailpost.emit].
  split; [reflexivity|]. cbn [Post.with_Path Post.Title Post.File].
  rewrite Ht. split; reflexivity.
Qed.

(** A front matter that does not parse gives no post. *)
Lemma ExtractPostData_unparsable (E : Extern) (text : gostring)
    (m : Mailpost.t) :
  yaml_Unmarshal E text = None ->
  ExtractPostData E text m = Done (Mailpost.emit m LogSkippingPost).
Proof. intro Hy. unfold ExtractPostData. rewrite Hy. reflexivity. Qed.

(** C4 on the program: a post with two remote images, of which the
    first is answered by 404 and the second would be served.  The pass
    returns at the first; the second is never asked for. *)
Theorem failed_fetch_ends_the_pass :
  let m := Sample.state Sample.config []
             [Sample.post (go "2015-03-04")
                (go "![a](http://h/a.png)" ++ [10]
                 ++ go "![b](http://h/b.png)")] in
  match RetrieveImages Sample.extern m with
  | Done m' => Some (length (Mailpost.images m'), Mailpost.trace m')
  | _ => None
  end
  = Some (O, [LogImageURL (go "http://h/a.png");
              HttpGet (go "http://h/a.png");
              LogFetchError 404]).
Proof. vm_compute. reflexivity. Qed.

(** The second image alone is retrieved. *)
Example RetrieveImages_ex1 :
  let m := Sample.state Sample.config []
             [Sample.post (go "2015-03-04") (go "![b](http://h/b.png)")] in
  match RetrieveImages Sample.extern m with
  | Done m' => map Image.Name (Mailpost.images m')
  | _ => []
  end
  = [go "b.jpg"].
Proof. vm_compute. reflexivity. Qed.

(** On any system: a status other than 200 for one address, and the
    addresses after it are left alone. *)
Lemma retrieve_stops_at_failed_fetch (E : Extern) (url : gostring)
    (rest : list gostring) (reqImg : http.Response) (m : Mailpost.t) :
  http_Get E url = http.Resp reqImg ->
  http.StatusCode reqImg <> 200 ->
  for_each_until_return (url :: rest) (retrieve_one E) m
  = (Done (Mailpost.emit
             (Mailpost.emit (Mailpost.emit m (LogImageURL url)) (HttpGet url))
             (LogFetchError (http.StatusCode reqImg))), false).
Proof.
  intros Hget Hst. cbn [for_each_until_return]. unfold retrieve_one.
  rewrite Hget. apply Z.eqb_neq in Hst. rewrite Hst. reflexivity.
Qed.

(* ================================================================= *)
(** ** The MIME descent *)

(** The same parts, with every base64 body read without error. *)
Fixpoint without_base64_errors (r : Stream) : Stream :=
  match r with
  | EOF => EOF
  | Broken => Broken
  | Next (mkPart contentType fileName base64 text sub) rest =>
      Next (mkPart contentType fileName (fst base64, false) text
              (without_base64_errors sub))
           (without_base64_errors rest)
  end.

Scheme Part_ind2 := Induction for Part Sort Prop
  with Stream_ind2 := Induction for Stream Sort Prop.

Lemma and_then_Done (r : Outcome) : r >>= Done = r.
Proof. destruct r; reflexivity. Qed.

Lemma ExtractAttachment_without_base64_errors (E : Extern) (r : Stream) :
  forall m, ExtractAttachment E r m
            = ExtractAttachment E (without_base64_errors r) m.
Proof.
  induction r using Stream_ind2 with
    (P := fun p => match p with
                   | mkPart _ _ _ _ sub =>
                       forall m, ExtractAttachment E sub m
                                 = ExtractAttachment E
                                     (without_base64_errors sub) m
                   end).
  - exact IHr.
  - reflexivity.
  - reflexivity.
  - intro m. destruct p as [contentType fileName base64 text sub].
    cbn [ExtractAttachment without_base64_errors fst].
    rewrite <- IHr.
    destruct (ExtractAttachment E sub m) eqn:Hsub;
      destruct (HasMultipart contentType);
      cbn [and_then];
      try (destruct (HasImage contentType); cbn [and_then]);
      try rewrite IHr0;
      try reflexivity;
      destruct (HasText contentType); destruct (snd text);
      cbn [and_then]; try reflexivity;
      destruct (ExtractPostData E (fst text) m); cbn [and_then];
      try rewrite IHr0; reflexivity.
Qed.

(** What ends the run in the descent, and what does not.  A part that
    cannot be read, at any depth, and a text part that cannot be copied
    end it: their errors are tested and reach [log.Fatalf]; the parts
    are handled one after the other, so that this holds wherever such a
    part is met.  The error of an image part whose base64 body cannot
    be decoded is assigned to [err] as well, but never tested: the
    outcome does not depend on it, and the image is collected with the
    bytes read before it. *)
Theorem ExtractAttachment_fatal_parts :
  forall (E : Extern) (m : Mailpost.t),
    ExtractAttachment E Broken m = Fatal m
    /\ (forall contentType fileName base64 text sub rest m',
           HasMultipart contentType = true ->
           ExtractAttachment E sub m = Fatal m' ->
           ExtractAttachment E
             (Next (mkPart contentType fileName base64 text sub) rest) m
           = Fatal m')
    /\ (forall contentType fileName base64 body sub rest,
           HasMultipart contentType = false ->
           HasImage contentType = false ->
           HasText contentType = true ->
           ExtractAttachment E
             (Next (mkPart contentType fileName base64 (body, true) sub) rest)
             m
           = Fatal m)
    /\ (forall p rest,
           ExtractAttachment E (Next p rest) m
           = ExtractAttachment E (Next p EOF) m >>= ExtractAttachment E rest)
    /\ (forall contentType fileName data err text sub rest,
           HasMultipart contentType = false ->
           HasImage contentType = true ->
           ExtractAttachment E
             (Next (mkPart contentType fileName (data, err) text sub) rest) m
           = ExtractAttachment E rest
               (ExtractImageData E (Image.attached fileName data) m))
    /\ (forall r, ExtractAttachment E r m
                  = ExtractAttachment E (without_base64_errors r) m).
Proof.
  intros E m. split; [reflexivity|]. split; [|split; [|split; [|split]]].
  - intros contentType fileName base64 text sub rest m' Hmp Hsub.
    cbn [ExtractAttachment]. rewrite Hmp, Hsub. reflexivity.
  - intros contentType fileName base64 body sub rest Hmp Him Htx.
    cbn [ExtractAttachment]. rewrite Hmp, Him, Htx. reflexivity.
  - intros [contentType fileName base64 text sub] rest.
    cbn [ExtractAttachment].
    change (ExtractAttachment E EOF) with Done.
    rewrite and_then_Done. reflexivity.
  - intros contentType fileName data err text sub rest Hmp Him.
    cbn [ExtractAttachment]. rewrite Hmp, Him. reflexivity.
  - intro r. apply ExtractAttachment_without_base64_errors.
Qed.

Lemma ExtractAttachment_fatal_parts_witness :
  ExtractAttachment Sample.extern
    (Next (mkPart (go "text/plain") [] ([], false) (go "title: x", true) EOF)
       (Next (mkPart (go "image/png") (go "Apple.JPG") ([Byte.x01], false)
                ([], false) EOF) EOF))
    Sample.start
  = Fatal Sample.start.
Proof.
  apply (proj1 (proj2 (proj2
           (ExtractAttachment_fatal_parts Sample.extern Sample.start))));
    reflexivity.
Defined.

(** C5 on the program: an image part whose base64 body does not
    decode, followed by a part that does.  The claim says that the run
    ends there, as it does for a text part that cannot be copied and
    for a part that cannot be read; but the error that
    [ioutil.ReadAll] returns is assigned to [err] and never tested: the
    run goes on, the image is collected with the bytes read before the
    error, and the part after it is read. *)
Lemma undecodable_base64_is_not_fatal :
  match ExtractAttachment Sample.extern
          (Next (mkPart (go "image/jpeg") (go "Apple.JPG")
                   ([Byte.x01], true) ([], false) EOF)
             (Next (mkPart (go "image/png") (go "Pear.PNG")
                      ([Byte.x01], false) ([], false) EOF) EOF))
          Sample.start with
  | Done m' => map Image.Name (Mailpost.images m')
  | _ => []
  end
  = [go "apple.jpg"; go "pear.jpg"].
Proof. vm_compute. reflexivity. Qed.

(* ================================================================= *)
(** ** The whole pass of the resolver: one save for each match *)

(** What the resolver compares a captured text with. *)
Definition key (i : Image.t) : list Z * list Z :=
  (Image.OrigName i, Image.OrigURL i).

Definition key_refers (k : list Z * list Z) (loc : gostring) : bool :=
  gostring_eqb (fst k) loc || gostring_eqb (snd k) loc.

(** 1 when the image of index [j] is referred to by [loc], 0 otherwise. *)
Definition hit (K : list (list Z * list Z)) (j : nat) (loc : gostring) : nat :=
  match nth_error K j with
  | Some k => if key_refers k loc then 1 else 0
  | None => 0
  end.

Definition hits (K : list (list Z * list Z)) (j : nat) (locs : list gostring)
    : nat :=
  list_sum (map (hit K j) locs).

(** The texts that the three patterns capture in a body, in the order
    in which the resolver goes through them. *)
Definition captures (body : gostring) : list gostring :=
  map snd (FindAllStringSubmatch reMdImg body)
  ++ map snd (FindAllStringSubmatch reScFig body)
  ++ map snd (FindAllStringSubmatch reScImg body).

Definition data_at (posts : list Post.t) (p : nat) : gostring :=
  match nth_error posts p with
  | Some post => Post.Data post
  | None => []
  end.

(** What a piece of the pass does to the state: the configuration, the
    keys of the images and the number of posts stay; the posts that it
    does not touch stay; the files saved for the image [k] grow by
    [delta k]. *)
Definition effect (touched : nat -> Prop) (m m' : Mailpost.t)
    (delta : nat -> nat) : Prop :=
  Mailpost.config m' = Mailpost.config m
  /\ map key (Mailpost.images m') = map key (Mailpost.images m)
  /\ length (Mailpost.posts m') = length (Mailpost.posts m)
  /\ (forall q, ~ touched q ->
        nth_error (Mailpost.posts m') q = nth_error (Mailpost.posts m) q)
  /\ forall k, length (saved_files k (Mailpost.trace m'))
               = (length (saved_files k (Mailpost.trace m)) + delta k)%nat.

Lemma effect_refl (touched : nat -> Prop) (m : Mailpost.t) :
  effect touched m m (fun _ => O).
Proof. repeat split; intros; lia. Qed.

Lemma effect_trans (touched : nat -> Prop) (m m1 m2 : Mailpost.t)
    (d1 d2 : nat -> nat) :
  effect touched m m1 d1 -> effect touched m1 m2 d2 ->
  effect touched m m2 (fun k => (d1 k + d2 k)%nat).
Proof.
  intros (C1 & K1 & L1 & P1 & S1) (C2 & K2 & L2 & P2 & S2).
  repeat split; try congruence.
  - intros q Hq. rewrite (P2 q Hq). apply P1. exact Hq.
  - intro k. rewrite S2, S1. lia.
Qed.

Lemma effect_ext (touched touched' : nat -> Prop) (m m' : Mailpost.t)
    (d d' : nat -> nat) :
  (forall q, touched q -> touched' q) -> (forall k, d k = d' k) ->
  effect touched m m' d -> effect touched' m m' d'.
Proof.
  intros Ht Hd (C & K & L & P & S). repeat split; try assumption.
  - intros q Hq. apply P. intro H. apply Hq. apply Ht. exact H.
  - intro k. rewrite S, Hd. reflexivity.
Qed.

Lemma and_then_Done_inv (r : Outcome) (k : Mailpost.t -> Outcome)
    (m' : Mailpost.t) :
  r >>= k = Done m' -> exists m1, r = Done m1 /\ k m1 = Done m'.
Proof.
  destruct r as [m1|m1|m1]; cbn [and_then]; intro H; try discriminate H.
  exists m1. split; [reflexivity|exact H].
Qed.

(** A loop whose rounds have an effect that depends on the keys of the
    images only has the sum of these effects. *)
Lemma for_each_effect {A : Type} (touched : nat -> Prop)
    (body : A -> Mailpost.t -> Outcome)
    (d : A -> list (list Z * list Z) -> nat -> nat) :
  (forall x m m1, body x m = Done m1 ->
                  effect touched m m1 (d x (map key (Mailpost.images m)))) ->
  forall l m m',
    for_each l body m = Done m' ->
    effect touched m m'
      (fun k => list_sum (map (fun x => d x (map key (Mailpost.images m)) k) l)).
Proof.
  intros Hbody l. induction l as [|x l IH]; intros m m' H.
  - cbn [for_each] in H. injection H as <-. apply effect_refl.
  - cbn [for_each] in H. apply and_then_Done_inv in H.
    destruct H as (m1 & Hx & Hl).
    pose proof (Hbody x m m1 Hx) as E1. pose proof (IH m1 m' Hl) as E2.
    destruct E1 as (C1 & K1 & R1). rewrite K1 in E2.
    exact (effect_trans touched m m1 m' _ _ (conj C1 (conj K1 R1)) E2).
Qed.

Lemma saved_files_app (j : nat) (t1 t2 : list Event) :
  saved_files j (t1 ++ t2) = saved_files j t1 ++ saved_files j t2.
Proof.
  induction t1 as [|e t1 IH]; [reflexivity|].
  destruct e; cbn [app saved_files]; try exact IH.
  destruct (Nat.eqb j0 j); [cbn [app]; f_equal|]; exact IH.
Qed.

Lemma map_key_update (l : list Image.t) (j : nat) (image : Image.t)
    (path url : gostring) :
  nth_error l j = Some image ->
  map key (update l j (Image.located image path url)) = map key l.
Proof.
  revert j. induction l as [|i l IH]; intros [|j] H; cbn in *;
    try discriminate H; try reflexivity.
  - injection H as ->. reflexivity.
  - f_equal. apply IH. exact H.
Qed.

Lemma hit_image (l : list Image.t) (j : nat) (image : Image.t)
    (loc : gostring) :
  nth_error l j = Some image ->
  hit (map key l) j loc = if refers_to image loc then 1%nat else 0%nat.
Proof.
  intro H. unfold hit. rewrite nth_error_map, H. reflexivity.
Qed.

Section Pass.

Variable E : Extern.

Lemma resolve_effect (p : nat) (loc : gostring) (j : nat)
    (m m' : Mailpost.t) :
  resolve E p loc j m = Done m' ->
  effect (eq p) m m'
    (fun k => if Nat.eqb j k then hit (map key (Mailpost.images m)) j loc
              else O).
Proof.
  unfold resolve.
  destruct (nth_error (Mailpost.images m) j) as [image|] eqn:Hj;
    [|discriminate].
  destruct (nth_error (Mailpost.posts m) p) as [post|] eqn:Hp;
    [|discriminate].
  rewrite (hit_image _ _ _ loc Hj). fold (refers_to image loc).
  destruct (refers_to image loc).
  - intro H. apply and_then_Done_inv in H. destruct H as (m1 & Hs & H).
    destruct (SaveImage_Done_inv E j post m m1 image Hj Hs)
      as (img & _ & ->).
    cbn [saved Mailpost.images Mailpost.posts] in H.
    rewrite (update_same _ _ _ _ Hj), Hp in H. injection H as <-.
    unfold effect.
    cbn [Mailpost.with_posts Mailpost.config Mailpost.images
         Mailpost.posts Mailpost.trace saved].
    split; [reflexivity|]. split; [apply map_key_update; exact Hj|].
    split; [apply update_length|]. split.
    + intros q Hq. apply update_other. exact Hq.
    + intro k. rewrite saved_files_app, length_app.
      cbn [saved_files]. destruct (Nat.eqb j k); reflexivity.
  - intro H. injection H as <-.
    eapply effect_ext; [| |apply (effect_refl (eq p))].
    + auto.
    + intro k. cbn beta. destruct (Nat.eqb j k); reflexivity.
Qed.

Lemma list_sum_cons (x : nat) (l : list nat) :
  list_sum (x :: l) = (x + list_sum l)%nat.
Proof. reflexivity. Qed.

Lemma sum_at (f : nat -> nat) (k a n : nat) :
  list_sum (map (fun j => if Nat.eqb j k then f j else O) (seq a n))
  = if (a <=? k)%nat && (k <? a + n)%nat then f k else O.
Proof.
  revert a. induction n as [|n IH]; intro a.
  - cbn [seq map list_sum].
    destruct (Nat.leb_spec a k); destruct (Nat.ltb_spec k (a + 0));
      cbn [andb]; try reflexivity; lia.
  - cbn [seq map]. rewrite list_sum_cons, IH.
    destruct (Nat.eqb_spec a k) as [->|Hne].
    + destruct (Nat.leb_spec (S k) k); [lia|].
      destruct (Nat.leb_spec k k); [|lia].
      destruct (Nat.ltb_spec k (k + S n)); [|lia].
      cbn [andb]. lia.
    + destruct (Nat.leb_spec (S a) k); destruct (Nat.leb_spec a k);
        destruct (Nat.ltb_spec k (S a + n));
        destruct (Nat.ltb_spec k (a + S n));
        cbn [andb]; try reflexivity; lia.
Qed.

Lemma resolve_matches_effect (p : nat) (matches : list (gostring * gostring))
    (m m' : Mailpost.t) :
  resolve_matches E p matches m = Done m' ->
  effect (eq p) m m'
    (fun k => hits (map key (Mailpost.images m)) k (map snd matches)).
Proof.
  intro H. unfold resolve_matches in H.
  assert (Hin : forall (mt : list Z * list Z) m0 m1,
             for_each (seq 0 (length (Mailpost.images m0)))
               (resolve E p (snd mt)) m0 = Done m1 ->
             effect (eq p) m0 m1
               (fun k => hit (map key (Mailpost.images m0)) k (snd mt))).
  { intros mt m0 m1 H0.
    pose proof (for_each_effect (eq p) (resolve E p (snd mt))
                  (fun j K k => if Nat.eqb j k then hit K j (snd mt) else O)
                  (fun j m2 m3 => resolve_effect p (snd mt) j m2 m3)
                  _ m0 m1 H0) as X.
    eapply effect_ext; [| |exact X].
    - auto.
    - intro k. cbn beta.
      rewrite (sum_at (fun j => hit (map key (Mailpost.images m0)) j (snd mt))).
      cbn [Nat.leb andb Nat.add].
      destruct (Nat.ltb_spec k (length (Mailpost.images m0)));
        [reflexivity|].
      unfold hit.
      replace (nth_error (map key (Mailpost.images m0)) k) with
        (@None (list Z * list Z)); [reflexivity|].
      symmetry. apply nth_error_None. rewrite length_map. lia. }
  pose proof (for_each_effect (eq p) _
                (fun (mt : list Z * list Z) K k => hit K k (snd mt))
                Hin matches m m' H) as X.
  eapply effect_ext; [| |exact X].
  - auto.
  - intro k. unfold hits. rewrite map_map. reflexivity.
Qed.

Lemma hits_app (K : list (list Z * list Z)) (k : nat)
    (l1 l2 : list gostring) :
  hits K k (l1 ++ l2) = (hits K k l1 + hits K k l2)%nat.
Proof. unfold hits. rewrite map_app, list_sum_app. reflexivity. Qed.

Lemma WritePostToFile_effect (postInfo : Post.t) (m m' : Mailpost.t) :
  WritePostToFile E postInfo m = Done m' ->
  effect (fun _ => False) m m' (fun _ => O).
Proof.
  unfold WritePostToFile.
  destruct (os_Create E _); cbn [negb]; [|discriminate].
  destruct (io_Copy E _); cbn [negb]; [|discriminate].
  intro H. injection H as <-. unfold effect.
  cbn [Mailpost.emit Mailpost.config Mailpost.images Mailpost.posts
       Mailpost.trace].
  repeat split. intro k. rewrite saved_files_app, length_app.
  reflexivity.
Qed.

(** The round of a post: one save of the image [k] for each captured
    text of the body, as it was when the round began, that refers to
    the image. *)
Lemma replace_in_post_effect (p : nat) (m m' : Mailpost.t) :
  replace_in_post E p m = Done m' ->
  effect (eq p) m m'
    (fun k => hits (map key (Mailpost.images m)) k
                (captures (data_at (Mailpost.posts m) p))).
Proof.
  unfold replace_in_post, data_at.
  destruct (nth_error (Mailpost.posts m) p) as [post|]; [|discriminate].
  cbv zeta. intro H.
  apply and_then_Done_inv in H. destruct H as (m3 & H & Hw).
  apply and_then_Done_inv in H. destruct H as (m2 & H & H3).
  apply and_then_Done_inv in H. destruct H as (m1 & H1 & H2).
  apply resolve_matches_effect in H1. apply resolve_matches_effect in H2.
  apply resolve_matches_effect in H3.
  assert (K1 : map key (Mailpost.images m1) = map key (Mailpost.images m))
    by (destruct H1 as (_ & K & _); exact K).
  assert (K2 : map key (Mailpost.images m2) = map key (Mailpost.images m))
    by (destruct H2 as (_ & K & _); congruence).
  rewrite K1 in H2. rewrite K2 in H3.
  assert (H4 : effect (eq p) m3 m' (fun _ => O)).
  { destruct (nth_error (Mailpost.posts m3) p); [|discriminate Hw].
    apply WritePostToFile_effect in Hw.
    eapply effect_ext; [| |exact Hw]; [intros q []|reflexivity]. }
  pose proof (effect_trans _ _ _ _ _ _
                (effect_trans _ _ _ _ _ _
                   (effect_trans _ _ _ _ _ _ H1 H2) H3) H4) as X.
  eapply effect_ext; [| |exact X]; [auto|].
  intro k. cbn beta. unfold captures. rewrite !hits_app. lia.
Qed.

(** The rounds of distinct posts, one after the other. *)
Lemma replace_in_posts_effect (l : list nat) :
  NoDup l ->
  forall m m',
    for_each l (replace_in_post E) m = Done m' ->
    effect (fun q => In q l) m m'
      (fun k => list_sum
                  (map (fun p => hits (map key (Mailpost.images m)) k
                                   (captures (data_at (Mailpost.posts m) p)))
                     l)).
Proof.
  induction 1 as [|p l Hp Hl IH]; intros m m' H.
  - cbn [for_each] in H. injection H as <-.
    eapply effect_ext; [| |apply (effect_refl (fun _ => False))];
      [intros q []|reflexivity].
  - cbn [for_each] in H. apply and_then_Done_inv in H.
    destruct H as (m1 & H1 & H2).
    apply replace_in_post_effect in H1. apply IH in H2.
    assert (K1 : map key (Mailpost.images m1) = map key (Mailpost.images m))
      by (destruct H1 as (_ & K & _); exact K).
    assert (P1 : forall q, In q l ->
               data_at (Mailpost.posts m1) q = data_at (Mailpost.posts m) q).
    { intros q Hq. unfold data_at. destruct H1 as (_ & _ & _ & P & _).
      rewrite P; [reflexivity|]. intros ->. contradiction. }
    rewrite K1 in H2.
    assert (H1' : effect (fun q => In q (p :: l)) m m1
                    (fun k => hits (map key (Mailpost.images m)) k
                                (captures (data_at (Mailpost.posts m) p)))).
    { eapply effect_ext; [| |exact H1]; [|reflexivity].
      intros q <-. left. reflexivity. }
    assert (H2' : effect (fun q => In q (p :: l)) m1 m'
                    (fun k => list_sum
                       (map (fun p => hits (map key (Mailpost.images m)) k
                                        (captures (data_at (Mailpost.posts m) p)))
                          l))).
    { eapply effect_ext; [| |exact H2].
      - intros q Hq. right. exact Hq.
      - intro k. cbn beta. f_equal. apply map_ext_in.
        intros q Hq. rewrite (P1 q Hq). reflexivity. }
    pose proof (effect_trans _ _ _ _ _ _ H1' H2') as X.
    eapply effect_ext; [| |exact X]; [auto|].
    intro k. reflexivity.
Qed.

Lemma map_data_at (f : gostring -> nat) (posts : list Post.t) :
  map (fun p => f (data_at posts p)) (seq 0 (length posts))
  = map (fun post => f (Post.Data post)) posts.
Proof.
  induction posts as [|post posts IH]; [reflexivity|].
  cbn [length seq map]. f_equal. rewrite <- seq_shift, map_map.
  exact IH.
Qed.

End Pass.

(** The whole pass, when it returns: the file of an image has been
    written once for each post and each captured text of its body that
    refers to the image (its name or its address), however often that
    is. *)
Lemma ReplaceImageRefs_saves_once_per_match (E : Extern)
    (m m' : Mailpost.t) (j : nat) (image : Image.t) :
  ReplaceImageRefs E m = Done m' ->
  nth_error (Mailpost.images m) j = Some image ->
  length (saved_files j (Mailpost.trace m'))
  = (length (saved_files j (Mailpost.trace m))
     + list_sum
         (map (fun post =>
                 length (filter (refers_to image)
                           (captures (Post.Data post))))
            (Mailpost.posts m)))%nat.
Proof.
  intros H Hj. unfold ReplaceImageRefs in H.
  apply replace_in_posts_effect in H; [|apply seq_NoDup].
  destruct H as (_ & _ & _ & _ & S). rewrite S. f_equal.
  rewrite (map_data_at
             (fun body => hits (map key (Mailpost.images m)) j (captures body))).
  f_equal. apply map_ext. intro post. unfold hits.
  induction (captures (Post.Data post)) as [|loc locs IH]; [reflexivity|].
  cbn [map filter]. rewrite list_sum_cons, IH, (hit_image _ _ _ loc Hj).
  destruct (refers_to image loc); reflexivity.
Qed.

(** C1, as the program has it.  The resolver saves the image on every
    match: whatever [Path] and [URL] the image already has ([path0],
    [url0]), the step calls [SaveImage], which makes the directory and
    writes the file again and stores the path and the address computed
    from the date of the post at hand; without a match nothing is
    saved.  So, in a pass that returns, the file of an image has been
    written as many times as captured texts of the posts refer to the
    image. *)
Theorem resolve_saves_on_every_match :
  forall (E : Extern),
    (forall (p j : nat) (loc : gostring) (m : Mailpost.t)
            (image : Image.t) (path0 url0 : gostring) (post : Post.t)
            (img : Img E),
        nth_error (Mailpost.images m) j
        = Some (Image.located image path0 url0) ->
        nth_error (Mailpost.posts m) p = Some post ->
        (refers_to image loc = true ->
         os_MkdirAll E (image_dir E m post) = true ->
         image_Decode E (Image.Data image) = Some img ->
         os_Create E (image_path E m post (Image.Name image)) = true ->
         exists m',
           resolve E p loc j m = Done m'
           /\ Mailpost.trace m'
              = Mailpost.trace m
                ++ [MkdirAll (image_dir E m post);
                    SavedImage j (image_path E m post (Image.Name image))
                      (jpeg_Encode E (fitted E m img))]
           /\ nth_error (Mailpost.images m') j
              = Some (Image.located image
                        (image_path E m post (Image.Name image))
                        (image_url E m post (Image.Name image))))
        /\ (refers_to image loc = false -> resolve E p loc j m = Done m))
    /\ (forall (m m' : Mailpost.t) (j : nat) (image : Image.t),
          ReplaceImageRefs E m = Done m' ->
          nth_error (Mailpost.images m) j = Some image ->
          length (saved_files j (Mailpost.trace m'))
          = (length (saved_files j (Mailpost.trace m))
             + list_sum
                 (map (fun post =>
                         length (filter (refers_to image)
                                   (captures (Post.Data post))))
                    (Mailpost.posts m)))%nat).
Proof.
  intro E. split.
  - intros p j loc m image path0 url0 post img Hj Hp. split.
    + intros Hyes Hmk Hdec Hcr.
      eexists. split;
        [apply (resolve_match E p loc j m _ post img Hj Hp); assumption|].
      cbn [Mailpost.with_posts Mailpost.trace Mailpost.images saved].
      split; [reflexivity|].
      rewrite (update_same _ _ _ _ Hj). reflexivity.
    + intro Hno.
      apply (resolve_no_match E p loc j m _ post Hj Hp). exact Hno.
  - intros m m' j image. apply ReplaceImageRefs_saves_once_per_match.
Qed.

Lemma resolve_saves_on_every_match_witness :
  exists m',
    resolve Sample.extern 0 (go "Apple.JPG") 0
      (Sample.state Sample.config
         [Image.located
            (Sample.stored (go "Apple.JPG") (go "apple.jpg") [Byte.x01])
            (go "/site/static/img/2015/03/apple.jpg")
            (go "http:/example.com/img/2015/03/apple.jpg")]
         [Sample.post (go "2016-05-06") (go "![again](Apple.JPG)")])
    = Done m'
    /\ saved_files 0 (Mailpost.trace m')
       = [go "/site/static/img/2016/05/apple.jpg"]
    /\ option_map Image.URL (nth_error (Mailpost.images m') 0)
       = Some (go "http:/example.com/img/2016/05/apple.jpg").
Proof.
  destruct (proj1 (proj1 (resolve_saves_on_every_match Sample.extern) 0%nat 0%nat
                     (go "Apple.JPG")
                     (Sample.state Sample.config
                        [Image.located
                           (Sample.stored (go "Apple.JPG") (go "apple.jpg")
                              [Byte.x01])
                           (go "/site/static/img/2015/03/apple.jpg")
                           (go "http:/example.com/img/2015/03/apple.jpg")]
                        [Sample.post (go "2016-05-06")
                           (go "![again](Apple.JPG)")])
                     (Sample.stored (go "Apple.JPG") (go "apple.jpg")
                        [Byte.x01])
                     (go "/site/static/img/2015/03/apple.jpg")
                     (go "http:/example.com/img/2015/03/apple.jpg")
                     (Sample.post (go "2016-05-06") (go "![again](Apple.JPG)"))
                     10%Z eq_refl eq_refl)
              eq_refl eq_refl eq_refl eq_refl)
    as (m' & Hrun & Htrace & Himages).
  exists m'. split; [exact Hrun|]. split.
  - rewrite Htrace. reflexivity.
  - rewrite Himages. reflexivity.
Defined.

(** C1, as it is stated, fails: an image that two posts refer to is
    saved twice, the second time under the date of the second post, and
    the address kept is the second one. *)
Lemma image_saved_once_per_post :
  let m := Sample.state Sample.config
             [Sample.stored (go "Apple.JPG") (go "apple.jpg") [Byte.x01]]
             [Sample.post (go "2015-03-04") (go "![An apple](Apple.JPG)");
              Sample.post (go "2016-05-06") (go "![again](Apple.JPG)")] in
  match ReplaceImageRefs Sample.extern m with
  | Done m' =>
      (saved_files 0 (Mailpost.trace m'),
       map Image.URL (Mailpost.images m'),
       map Post.Data (Mailpost.posts m'))
  | _ => ([], [], [])
  end
  = ([go "/site/static/img/2015/03/apple.jpg";
      go "/site/static/img/2016/05/apple.jpg"],
     [go "http:/example.com/img/2016/05/apple.jpg"],
     [go "![An apple](http:/example.com/img/2015/03/apple.jpg)";
      go "![again](http:/example.com/img/2016/05/apple.jpg)"]).
Proof. vm_compute. reflexivity. Qed.


(** The example of the README: the attached [apple.jpg], referred to
    with a title after it. *)
Example ReplaceImageRefs_readme :
  let m := Sample.state Sample.config
             [Sample.stored (go "apple.jpg") (go "apple.jpg") [Byte.x01]]
             [Sample.post (go "2015-03-04")
                (go "![An apple](apple.jpg " ++ [dquote]
                 ++ go "This is the apple." ++ [dquote] ++ go ")")] in
  match ReplaceImageRefs Sample.extern m with
  | Done m' => map Post.Data (Mailpost.posts m')
  | _ => []
  end
  = [go "![An apple](http:/example.com/img/2015/03/apple.jpg " ++ [dquote]
     ++ go "This is the apple." ++ [dquote] ++ go ")"].
Proof. vm_compute. reflexivity. Qed.

(** A fetch that fails without a response: [reqImg] is nil, and the
    arguments of the log line cannot be evaluated. *)
Lemma retrieve_panics_without_response (E : Extern) (url : gostring)
    (rest : list gostring) (m : Mailpost.t) :
  http_Get E url = http.Error None ->
  for_each_until_return (url :: rest) (retrieve_one E) m
  = (Panic (Mailpost.emit (Mailpost.emit m (LogImageURL url)) (HttpGet url)),
     false).
Proof.
  intro Hget. cbn [for_each_until_return]. unfold retrieve_one.
  rewrite Hget. reflexivity.
Qed.

(* ================================================================= *)
(** * More of the program *)

(* ================================================================= *)
(** ** What the patterns capture *)

(** The two loops of the matcher, on their own. *)
Fixpoint greedy (p : rune -> bool) (k : gostring -> option (gostring * gostring))
    (s : gostring) : option (gostring * gostring) :=
  match s with
  | c :: s' =>
      if p c then
        match greedy p k s' with
        | Some r => Some r
        | None => k s
        end
      else k s
  | [] => k s
  end.

Fixpoint lazy (p : rune -> bool) (k : gostring -> option (gostring * gostring))
    (s : gostring) : option (gostring * gostring) :=
  match k s with
  | Some r => Some r
  | None =>
      match s with
      | c :: s' => if p c then lazy p k s' else None
      | [] => None
      end
  end.

Lemma run_Star (p : rune -> bool) (re : list inst) (cs : caps) (s : gostring) :
  run (Star p :: re) cs s = greedy p (run re cs) s.
Proof.
  induction s as [|c s IH]; [reflexivity|].
  cbn [greedy]. rewrite <- IH. reflexivity.
Qed.

Lemma run_StarLazy (p : rune -> bool) (re : list inst) (cs : caps)
    (s : gostring) :
  run (StarLazy p :: re) cs s = lazy p (run re cs) s.
Proof.
  induction s as [|c s IH].
  - cbn [run lazy]. destruct (run re cs []); reflexivity.
  - cbn [lazy]. rewrite <- IH. cbn [run].
    destruct (run re cs (c :: s)); reflexivity.
Qed.

Lemma run_Cls (p : rune -> bool) (re : list inst) (cs : caps) (s : gostring)
    (r : gostring * gostring) :
  run (Cls p :: re) cs s = Some r ->
  exists c s', s = c :: s' /\ p c = true /\ run re cs s' = Some r.
Proof.
  cbn [run]. destruct s as [|c s']; [discriminate|].
  destruct (p c) eqn:Hp; [|discriminate].
  intro H. exists c, s'. repeat split; assumption.
Qed.

(** The literals of a pattern are read off the input. *)
Lemma run_lits (l : gostring) (re : list inst) (cs : caps) (s : gostring)
    (r : gostring * gostring) :
  run (lits l ++ re) cs s = Some r ->
  exists s', s = l ++ s' /\ run re cs s' = Some r.
Proof.
  revert s. induction l as [|c l IH]; intros s H.
  - exists s. split; [reflexivity|exact H].
  - cbn [lits map app] in H. apply run_Cls in H.
    destruct H as (x & s1 & -> & Hx & H). apply Z.eqb_eq in Hx. subst x.
    destruct (IH s1 H) as (s' & -> & H'). exists s'. split; [reflexivity|exact H'].
Qed.

Lemma run_Opt (c : rune) (re : list inst) (cs : caps) (s : gostring)
    (r : gostring * gostring) :
  run (Opt c :: re) cs s = Some r ->
  (exists s', s = c :: s' /\ run re cs s' = Some r) \/ run re cs s = Some r.
Proof.
  cbn [run]. destruct s as [|x s']; [right; assumption|].
  destruct (Z.eqb_spec x c) as [->|Hne]; [|right; assumption].
  destruct (run re cs s') eqn:H1.
  - intro H. left. exists s'. split; [reflexivity|]. congruence.
  - right. assumption.
Qed.

Lemma greedy_inv (p : rune -> bool) (k : gostring -> option (gostring * gostring))
    (s : gostring) (r : gostring * gostring) :
  greedy p k s = Some r ->
  exists u s', s = u ++ s' /\ forallb p u = true /\ k s' = Some r.
Proof.
  induction s as [|c s IH]; cbn [greedy]; intro H.
  - exists [], []. repeat split. exact H.
  - destruct (p c) eqn:Hp.
    + destruct (greedy p k s) eqn:Hg.
      * injection H as ->. destruct (IH eq_refl) as (u & s' & -> & Hu & Hk).
        exists (c :: u), s'. cbn [forallb app]. rewrite Hp, Hu.
        repeat split. exact Hk.
      * exists [], (c :: s). repeat split. exact H.
    + exists [], (c :: s). repeat split. exact H.
Qed.

(** The non-greedy loop stops at the first place where the rest of the
    pattern matches. *)
Lemma lazy_inv (p : rune -> bool) (k : gostring -> option (gostring * gostring))
    (s : gostring) (r : gostring * gostring) :
  lazy p k s = Some r ->
  exists u s', s = u ++ s' /\ forallb p u = true /\ k s' = Some r
               /\ forall u1 u2, u = u1 ++ u2 -> u2 <> [] ->
                                k (u2 ++ s') = None.
Proof.
  induction s as [|c s IH]; cbn [lazy]; intro H.
  - destruct (k []) eqn:Hk; [|discriminate]. injection H as ->.
    exists [], []. repeat split; [exact Hk|].
    intros u1 u2 Hu Hne. destruct u1; destruct u2; try discriminate Hu.
    contradiction.
  - destruct (k (c :: s)) eqn:Hk.
    + injection H as ->. exists [], (c :: s). repeat split; [exact Hk|].
      intros u1 u2 Hu Hne. destruct u1; destruct u2; try discriminate Hu.
      contradiction.
    + destruct (p c) eqn:Hp; [|discriminate].
      destruct (IH H) as (u & s' & -> & Hu & Hks & Hmin).
      exists (c :: u), s'. cbn [forallb app]. rewrite Hp, Hu.
      repeat split; [exact Hks|].
      intros u1 u2 Hsplit Hne. destruct u1 as [|x u1].
      * cbn [app] in Hsplit. subst u2. exact Hk.
      * injection Hsplit as _ Hsplit. apply (Hmin u1 u2 Hsplit Hne).
Qed.

(** The end of the three patterns of the resolver and of the pattern of
    the retrieval: in a group already opened, any text taken without
    greed, the group closed, and one rune of the class [stop].  The
    group is what it held ([pre]) and the text up to the first rune of
    the class. *)
Lemma run_group_until (stop : rune -> bool) (g0 pre s g left : gostring) :
  run [StarLazy any; Close; Cls stop] {| opened := pre ++ s; group := g0 |} s
  = Some (g, left) ->
  exists u c,
    g = pre ++ u
    /\ forallb any u = true
    /\ forallb (fun x => negb (stop x)) u = true
    /\ stop c = true /\ s = u ++ c :: left.
Proof.
  rewrite run_StarLazy. intro H. apply lazy_inv in H.
  destruct H as (u & s' & Hs & Hu & Hk & Hmin).
  cbn [run close_group opened] in Hk.
  destruct s' as [|c s1]; [discriminate|].
  destruct (stop c) eqn:Hc; [|discriminate].
  injection Hk as Hg <-.
  assert (Hgu : g = pre ++ u).
  { rewrite <- Hg, Hs, !length_app.
    replace (length pre + (length u + length (c :: s1)) - S (length s1))%nat
      with (length pre + length u)%nat by (cbn [length]; lia).
    rewrite app_assoc, <- length_app.
    rewrite firstn_app, firstn_all, Nat.sub_diag. cbn [firstn].
    apply app_nil_r. }
  clear Hg. exists u, c. split; [exact Hgu|]. split; [exact Hu|]. split.
  - apply forallb_forall. intros x Hx. apply in_split in Hx.
    destruct Hx as (u1 & u2 & Hsplit).
    specialize (Hmin u1 (x :: u2) Hsplit ltac:(discriminate)).
    cbn [run close_group opened app] in Hmin.
    destruct (stop x); [discriminate Hmin|reflexivity].
  - split; [exact Hc|exact Hs].
Qed.

(** One instruction of a pattern, read off a match. *)
Ltac run_step H :=
  unfold Lit in H;
  lazymatch type of H with
  | run (Cls _ :: _) _ _ = Some _ =>
      let c := fresh "c" in
      let s := fresh "s" in
      let Hc := fresh "Hc" in
      apply run_Cls in H; destruct H as (c & s & -> & Hc & H);
      try (apply Z.eqb_eq in Hc; subst c)
  | run (Star _ :: _) _ _ = Some _ =>
      let u := fresh "u" in
      let s := fresh "s" in
      let Hu := fresh "Hu" in
      rewrite run_Star in H; apply greedy_inv in H;
      destruct H as (u & s & -> & Hu & H)
  | run (Open :: _) _ _ = Some _ => cbn [run group] in H
  end.

(** The locator that the markdown pattern captures: up to the first
    white space, bar or closing parenthesis, on one line. *)
Lemma reMdImg_capture (s g left : gostring) :
  match_at reMdImg s = Some (g, left) ->
  forallb any g = true
  /\ forallb (fun x => negb (space_bar_paren x)) g = true.
Proof.
  unfold match_at, reMdImg. cbn [first rest Lit]. intro H.
  do 6 run_step H. run_step H.
  apply (run_group_until space_bar_paren [] []) in H.
  destruct H as (w & d & -> & Hany & Hstop & _). split; assumption.
Qed.

Lemma forallb_pointwise {A : Type} (f f' : A -> bool) (l : list A) :
  (forall x, f x = f' x) -> forallb f l = forallb f' l.
Proof.
  intro H. induction l as [|x l IH]; [reflexivity|].
  cbn [forallb]. rewrite H, IH. reflexivity.
Qed.

Lemma shortcode_capture (name : gostring) (s g left : gostring) :
  run (Cls (Z.eqb 123)
       :: lits (go "{<") ++ [Star space] ++ lits name
          ++ [Star any] ++ lits (go "src=") ++ [Lit dquote]
          ++ [Open; StarLazy any; Close; Lit dquote])
    {| opened := []; group := [] |} s = Some (g, left) ->
  forallb any g = true
  /\ forallb (fun x => negb (x =? dquote)) g = true.
Proof.
  intro H. run_step H.
  apply run_lits in H. destruct H as (s1 & -> & H).
  cbn [app] in H. run_step H.
  apply run_lits in H. destruct H as (s2 & -> & H).
  cbn [app] in H. run_step H.
  apply run_lits in H. destruct H as (s3 & -> & H).
  cbn [app] in H. run_step H. run_step H.
  apply (run_group_until (Z.eqb dquote) [] []) in H.
  destruct H as (w & d & -> & Hany & Hstop & _). split; [exact Hany|].
  rewrite <- Hstop. apply forallb_pointwise. intro x. rewrite Z.eqb_sym.
  reflexivity.
Qed.

(** The address that the pattern of the retrieval captures. *)
Lemma reRemoteImg_capture (s g left : gostring) :
  match_at reRemoteImg s = Some (g, left) ->
  (exists u, g = go "http://" ++ u) \/ (exists u, g = go "https://" ++ u).
Proof.
  unfold match_at, reRemoteImg. cbn [first rest app]. intro H.
  do 6 run_step H. run_step H.
  apply run_lits in H. destruct H as (s1 & -> & H).
  cbn [app] in H.
  apply run_Opt in H. destruct H as [(s' & -> & H)|H].
  - apply run_lits in H. destruct H as (s2 & -> & H).
    change (go "http" ++ 115 :: go "://" ++ s2)
      with (go "https://" ++ s2) in H.
    apply (run_group_until space_bar_paren []) in H.
    destruct H as (w & d & -> & _). right. exists w. reflexivity.
  - apply run_lits in H. destruct H as (s2 & -> & H).
    change (go "http" ++ go "://" ++ s2)
      with (go "http://" ++ s2) in H.
    apply (run_group_until space_bar_paren []) in H.
    destruct H as (w & d & -> & _). left. exists w. reflexivity.
Qed.

(** Every result of the scan is a match somewhere in the text. *)
Lemma scan_In (re : Regexp) (k : nat) (s : gostring)
    (x : gostring * gostring) :
  In x (scan re k s) ->
  exists t left, match_at re t = Some (snd x, left).
Proof.
  revert k. induction s as [|c s IH]; intros k H; [contradiction|].
  cbn [scan] in H. destruct k as [|k]; [|exact (IH _ H)].
  destruct (match_at re (c :: s)) as [[g left]|] eqn:Hm; [|exact (IH _ H)].
  destruct H as [<-|H]; [|exact (IH _ H)].
  exists (c :: s), left. exact Hm.
Qed.

Lemma FindAll_capture (re : Regexp) (body loc : gostring) :
  In loc (map snd (FindAllStringSubmatch re body)) ->
  exists t left, match_at re t = Some (loc, left).
Proof.
  intro H. apply in_map_iff in H. destruct H as (x & <- & Hx).
  exact (scan_In re 0 body x Hx).
Qed.

(** X1.  The locators that the three patterns of [ReplaceImageRefs]
    capture.  A locator of the markdown pattern has no newline, white
    space, bar or closing parenthesis in it; a locator of the two
    shortcode patterns has no newline and no double quote.  So the name
    of an image that has one of the former runes in it is never equal
    to a locator of the markdown pattern. *)
Theorem captured_locators_are_bounded :
  forall (body loc : gostring),
    (In loc (map snd (FindAllStringSubmatch reMdImg body)) ->
     forallb any loc = true
     /\ forallb (fun x => negb (space_bar_paren x)) loc = true
     /\ forall image,
          existsb space_bar_paren (Image.OrigName image) = true ->
          gostring_eqb (Image.OrigName image) loc = false)
    /\ (In loc (map snd (FindAllStringSubmatch reScFig body))
        \/ In loc (map snd (FindAllStringSubmatch reScImg body)) ->
        forallb any loc = true
        /\ forallb (fun x => negb (x =? dquote)) loc = true).
Proof.
  intros body loc. split.
  - intro H. apply FindAll_capture in H. destruct H as (t & left & H).
    apply reMdImg_capture in H. destruct H as [Hany Hstop].
    split; [exact Hany|]. split; [exact Hstop|].
    intros image Hex. apply gostring_eqb_neq. intro Heq. rewrite Heq in Hex.
    apply existsb_exists in Hex. destruct Hex as (x & Hx & Hs).
    rewrite forallb_forall in Hstop. specialize (Hstop x Hx).
    rewrite Hs in Hstop. discriminate Hstop.
  - intros [H|H]; apply FindAll_capture in H; destruct H as (t & left & H).
    + exact (shortcode_capture (go "figure") t loc left H).
    + exact (shortcode_capture (go "img") t loc left H).
Qed.

Lemma captured_locators_are_bounded_witness :
  gostring_eqb
    (Image.OrigName (Sample.stored (go "my photo.jpg") (go "my_photo.jpg") []))
    (go "my")
  = false.
Proof.
  apply (proj1 (captured_locators_are_bounded
                  (go "![x](my photo.jpg)") (go "my"))).
  - left. reflexivity.
  - reflexivity.
Defined.

(* ================================================================= *)
(** ** The retrieval of remote images *)

(** The addresses asked for, in the order of the trace. *)
Fixpoint requested (trace : list Event) : list gostring :=
  match trace with
  | [] => []
  | HttpGet url :: trace' => url :: requested trace'
  | _ :: trace' => requested trace'
  end.

Lemma requested_app (t1 t2 : list Event) :
  requested (t1 ++ t2) = requested t1 ++ requested t2.
Proof.
  induction t1 as [|e t1 IH]; [reflexivity|].
  destruct e; cbn [app requested]; try exact IH. f_equal. exact IH.
Qed.

Definition is_remote (url : gostring) : bool :=
  strings.HasPrefix url (go "http://") || strings.HasPrefix url (go "https://").

(** A name as [ExtractImageData] makes it: a stem without separator,
    and [.jpg]. *)
Definition plain_jpg (name : gostring) : Prop :=
  exists stem, name = stem ++ go ".jpg" /\ ~ In 47 stem.

(** An image that has been collected and not yet saved. *)
Definition unsaved (i : Image.t) : Prop :=
  Image.Path i = [] /\ Image.URL i = [] /\ plain_jpg (Image.Name i).

(** What the retrieval does outside: it logs and asks for addresses. *)
Definition asking (e : Event) : Prop :=
  match e with
  | LogImageURL _ | HttpGet _ | LogFetchError _ => True
  | _ => False
  end.

(** What the retrieval does to the state: the configuration and the
    posts stay, images are added at the end, each of them not saved yet
    and come from a remote address; the addresses asked for are remote
    and at least as many as the images added; nothing is written. *)
Definition retrieved (m m' : Mailpost.t) : Prop :=
  Mailpost.config m' = Mailpost.config m
  /\ Mailpost.posts m' = Mailpost.posts m
  /\ exists new asked events,
       Mailpost.images m' = Mailpost.images m ++ new
       /\ Forall (fun i => unsaved i /\ is_remote (Image.OrigURL i) = true) new
       /\ requested (Mailpost.trace m')
          = requested (Mailpost.trace m) ++ asked
       /\ Forall (fun u => is_remote u = true) asked
       /\ (length new <= length asked)%nat
       /\ Mailpost.trace m' = Mailpost.trace m ++ events
       /\ Forall asking events.

Lemma retrieved_refl (m : Mailpost.t) : retrieved m m.
Proof.
  split; [reflexivity|]. split; [reflexivity|]. exists [], [], [].
  rewrite !app_nil_r. repeat split; constructor.
Qed.

Lemma retrieved_trans (m m1 m2 : Mailpost.t) :
  retrieved m m1 -> retrieved m1 m2 -> retrieved m m2.
Proof.
  intros (C1 & P1 & n1 & a1 & e1 & I1 & F1 & R1 & A1 & L1 & T1 & Q1)
         (C2 & P2 & n2 & a2 & e2 & I2 & F2 & R2 & A2 & L2 & T2 & Q2).
  split; [congruence|]. split; [congruence|].
  exists (n1 ++ n2), (a1 ++ a2), (e1 ++ e2).
  rewrite I2, I1, R2, R1, T2, T1, <- !app_assoc.
  split; [reflexivity|]. split; [apply Forall_app; auto|].
  split; [reflexivity|]. split; [apply Forall_app; auto|].
  split; [rewrite !length_app; lia|].
  split; [reflexivity|apply Forall_app; auto].
Qed.

(* ================================================================= *)
(** ** The names of the images *)

Lemma in_class_no_separator (l : gostring) :
  forallb in_class l = true -> ~ In 47 l.
Proof.
  intros H Hin. rewrite forallb_forall in H. specialize (H 47 Hin).
  discriminate H.
Qed.

Lemma forallb_firstn {A : Type} (f : A -> bool) (n : nat) (l : list A) :
  forallb f l = true -> forallb f (firstn n l) = true.
Proof.
  revert n. induction l as [|x l IH]; intros [|n] H; try reflexivity.
  cbn [forallb firstn] in *. apply andb_true_iff in H. destruct H as [Hx Hl].
  rewrite Hx, (IH n Hl). reflexivity.
Qed.

(** The name that [ExtractImageData] gives to an image that came as
    [origName]. *)
Definition stored_name (E : Extern) (origName : gostring) : gostring :=
  let name := SanitizeFilename E origName in
  firstn (length name - length (filepath.Ext name)) name ++ go ".jpg".

Lemma ExtractImageData_stored_name (E : Extern) (image : Image.t)
    (m : Mailpost.t) :
  ExtractImageData E image m
  = Mailpost.with_images m
      (Mailpost.images m
       ++ [{| Image.OrigURL := Image.OrigURL image;
              Image.OrigName := Image.OrigName image;
              Image.Name := stored_name E (Image.OrigName image);
              Image.Path := Image.Path image;
              Image.URL := Image.URL image;
              Image.Data := Image.Data image |}]).
Proof. reflexivity. Qed.

Lemma Ext_jpg (stem : gostring) : filepath.Ext (stem ++ go ".jpg") = go ".jpg".
Proof. unfold filepath.Ext. rewrite rev_app_distr. reflexivity. Qed.

Lemma stored_name_facts (E : Extern) (origName : gostring) :
  plain_jpg (stored_name E origName)
  /\ matches_class_plus (stored_name E origName) = true
  /\ filepath.Ext (stored_name E origName) = go ".jpg".
Proof.
  unfold stored_name. cbv zeta.
  set (name := SanitizeFilename E origName).
  set (stem := firstn _ name).
  assert (Hcls : forallb in_class stem = true).
  { apply forallb_firstn. subst name. rewrite SanitizeFilename_map.
    apply forallb_forall. intros c Hc. apply in_map_iff in Hc.
    destruct Hc as (c0 & <- & _). apply sanitize_rune_in_class. }
  split; [|split].
  - exists stem. split; [reflexivity|]. apply in_class_no_separator.
    exact Hcls.
  - unfold matches_class_plus. rewrite forallb_app, Hcls.
    destruct stem; reflexivity.
  - apply Ext_jpg.
Qed.

Lemma SanitizeFilename_fixed (E : Extern) (x : gostring) :
  forallb in_class x = true -> SanitizeFilename E x = x.
Proof.
  intro H. rewrite SanitizeFilename_map.
  rewrite <- (map_id x) at 2. apply map_ext_in. intros c Hc.
  apply sanitize_rune_fixed. rewrite forallb_forall in H. exact (H c Hc).
Qed.

Lemma stored_name_stable (E : Extern) (origName : gostring) :
  stored_name E (stored_name E origName) = stored_name E origName.
Proof.
  destruct (stored_name_facts E origName) as ((stem & Hn & _) & Hcls & Hext).
  unfold matches_class_plus in Hcls. apply andb_true_iff in Hcls.
  destruct Hcls as [_ Hcls].
  set (n := stored_name E origName) in *.
  unfold stored_name at 1. cbv zeta.
  rewrite (SanitizeFilename_fixed E n Hcls), Hext, Hn.
  rewrite length_app.
  replace (length stem + length (go ".jpg") - length (go ".jpg"))%nat
    with (length stem) by lia.
  rewrite firstn_app, firstn_all, Nat.sub_diag. cbn [firstn].
  rewrite app_nil_r. reflexivity.
Qed.

(** X2.  [ExtractImageData] adds one image at the end of the list and
    changes nothing else.  The image keeps what it came with (name,
    address, bytes, path and public address); its stored name is not
    empty, is made of runes of [[a-z0-9_.]] only and has the extension
    [.jpg], whatever the name it came with; and naming is stable: the
    stored name, taken as a name to store, gives itself. *)
Theorem ExtractImageData_appends_named_image :
  forall (E : Extern) (image : Image.t) (m : Mailpost.t),
    let m' := ExtractImageData E image m in
    Mailpost.config m' = Mailpost.config m
    /\ Mailpost.posts m' = Mailpost.posts m
    /\ Mailpost.trace m' = Mailpost.trace m
    /\ exists i,
         Mailpost.images m' = Mailpost.images m ++ [i]
         /\ Image.OrigName i = Image.OrigName image
         /\ Image.OrigURL i = Image.OrigURL image
         /\ Image.Data i = Image.Data image
         /\ Image.Path i = Image.Path image
         /\ Image.URL i = Image.URL image
         /\ matches_class_plus (Image.Name i) = true
         /\ filepath.Ext (Image.Name i) = go ".jpg"
         /\ stored_name E (Image.Name i) = Image.Name i.
Proof.
  intros E image m m'. subst m'. rewrite ExtractImageData_stored_name.
  cbn [Mailpost.with_images Mailpost.config Mailpost.posts Mailpost.trace
       Mailpost.images].
  split; [reflexivity|]. split; [reflexivity|]. split; [reflexivity|].
  eexists. split; [reflexivity|].
  cbn [Image.OrigName Image.OrigURL Image.Data Image.Path Image.URL
       Image.Name].
  destruct (stored_name_facts E (Image.OrigName image)) as (_ & Hcls & Hext).
  repeat split; try assumption. apply stored_name_stable.
Qed.

Example stored_name_ex1 :
  stored_name Sample.extern (go "Holiday Photo.tar.GZ") = go "holiday_photo.tar.jpg".
Proof. reflexivity. Qed.

Example stored_name_ex2 :
  stored_name Sample.extern (go "../../etc/passwd") = go ".._..jpg".
Proof. reflexivity. Qed.

Example stored_name_ex3 : stored_name Sample.extern (go "") = go ".jpg".
Proof. reflexivity. Qed.

(* ================================================================= *)
(** ** Where an image is saved *)

Lemma strings_Join_snoc (L : list gostring) (x sep : gostring) :
  L <> [] ->
  strings.Join (L ++ [x]) sep = strings.Join L sep ++ sep ++ x.
Proof.
  induction L as [|e L IH]; [contradiction|]. intros _.
  destruct L as [|e' L].
  - reflexivity.
  - cbn [app] in *. rewrite !Join_cons, IH by discriminate.
    rewrite <- !app_assoc. reflexivity.
Qed.

(** An element of a path that [Clean] keeps as it is. *)
Definition plain_element (x : gostring) : Prop :=
  x <> [] /\ ~ In 47 x /\ filepath.is_dot x = false
  /\ filepath.is_dotdot x = false.

Lemma plain_jpg_element (name : gostring) :
  plain_jpg name -> ~ In 47 (go ".jpg") -> plain_element name.
Proof.
  intros (stem & -> & Hstem) _. repeat split.
  - destruct stem; discriminate.
  - intro H. apply in_app_or in H. destruct H as [H|H]; [exact (Hstem H)|].
    cbn in H. intuition discriminate.
  - unfold filepath.is_dot. apply gostring_eqb_neq. intro H.
    apply (f_equal (@length Z)) in H. rewrite length_app in H.
    cbn [length go map list_ascii_of_string] in H. lia.
  - unfold filepath.is_dotdot. apply gostring_eqb_neq. intro H.
    apply (f_equal (@length Z)) in H. rewrite length_app in H.
    cbn [length go map list_ascii_of_string] in H. lia.
Qed.

(** A cleaned path that ends with a plain element [x]: [x] alone, or
    [x] after a separator. *)
Definition ends_with_element (path x : gostring) : Prop :=
  path = x \/ exists d, path = d ++ 47 :: x.

Lemma clean_step_plain (rooted : bool) (out : list gostring) (x : gostring) :
  plain_element x -> filepath.clean_step rooted out x = x :: out.
Proof.
  intros (Hne & _ & Hdot & Hdd). unfold filepath.clean_step.
  destruct x; [contradiction|]. cbn [is_empty]. rewrite Hdot, Hdd.
  reflexivity.
Qed.

Lemma Clean_plain (x : gostring) :
  plain_element x -> filepath.Clean x = x.
Proof.
  intros Hx. pose proof Hx as (Hne & Hns & _).
  unfold filepath.Clean. destruct x as [|c t]; [contradiction|].
  cbv zeta.
  rewrite (elements_plain _ Hns). cbn [fold_left].
  rewrite (clean_step_plain _ _ _ Hx). cbn [rev app strings.Join].
  replace (filepath.IsPathSeparator c) with false; [reflexivity|].
  symmetry. apply Z.eqb_neq. intro Hc. apply Hns. left. exact Hc.
Qed.

Lemma Clean_ends_with (d x : gostring) :
  plain_element x ->
  ends_with_element (filepath.Clean (d ++ 47 :: x)) x.
Proof.
  intros Hx. pose proof Hx as (Hne & Hns & _).
  unfold filepath.Clean.
  destruct (d ++ 47 :: x) as [|c path] eqn:Hpath.
  { destruct d; discriminate Hpath. }
  rewrite <- Hpath. cbv zeta.
  rewrite elements_app_separator, (elements_plain _ Hns), fold_left_app.
  cbn [fold_left]. rewrite (clean_step_plain _ _ _ Hx).
  set (out := fold_left _ _ _). cbn [rev].
  destruct (rev out) as [|e es] eqn:Hout.
  - cbn [app strings.Join].
    destruct (filepath.IsPathSeparator c).
    + right. exists []. reflexivity.
    + left. reflexivity.
  - replace ((e :: es) ++ [x]) with (e :: (es ++ [x])) by reflexivity.
    replace (e :: es ++ [x]) with ((e :: es) ++ [x]) by reflexivity.
    rewrite strings_Join_snoc by discriminate.
    right. exists ((if filepath.IsPathSeparator c
                    then [filepath.Separator] else [])
                   ++ strings.Join (e :: es) [filepath.Separator]).
    rewrite <- !app_assoc. reflexivity.
Qed.

Lemma Join_ends_with (elem : list gostring) (x : gostring) :
  plain_element x ->
  ends_with_element (filepath.Join (elem ++ [x])) x.
Proof.
  intro Hx. pose proof Hx as (Hne & _).
  induction elem as [|e elem IH].
  - cbn [app filepath.Join]. destruct x; [contradiction|]. cbn [is_empty].
    cbn [strings.Join]. left. apply Clean_plain. exact Hx.
  - cbn [app filepath.Join]. destruct (is_empty e); [exact IH|].
    replace (e :: elem ++ [x]) with ((e :: elem) ++ [x]) by reflexivity.
    rewrite strings_Join_snoc by discriminate.
    apply Clean_ends_with. exact Hx.
Qed.

Lemma TrimLeft_head (c : rune) (s cutset : gostring) :
  strings.in_cutset cutset c = false ->
  strings.TrimLeft (c :: s) cutset = c :: s.
Proof. intro H. cbn [strings.TrimLeft]. rewrite H. reflexivity. Qed.

Lemma Base_ends_with (path x : gostring) :
  plain_element x -> ends_with_element path x -> filepath.Base path = x.
Proof.
  intros (Hne & Hns & _) Hend.
  assert (Hstrip : rev (strings.TrimLeft (rev path) [filepath.Separator])
                   = path).
  { destruct (exists_last Hne) as (x0 & c & Hx).
    assert (Hc : c <> 47).
    { intro Hc. apply Hns. rewrite Hx. apply in_or_app. right. left.
      exact Hc. }
    assert (Hrev : exists s, rev path = c :: s).
    { destruct Hend as [->|(d & ->)].
      - rewrite Hx, rev_app_distr. eexists. reflexivity.
      - rewrite Hx.
        replace (d ++ 47 :: x0 ++ [c]) with ((d ++ 47 :: x0) ++ [c])
          by (rewrite <- app_assoc; reflexivity).
        rewrite rev_app_distr. eexists. reflexivity. }
    destruct Hrev as (s & Hs). rewrite Hs, TrimLeft_head.
    - rewrite <- Hs. apply rev_involutive.
    - cbn. unfold filepath.Separator.
      replace (c =? 47) with false by (symmetry; apply Z.eqb_neq; exact Hc).
      reflexivity. }
  assert (Hpath : path <> []).
  { destruct Hend as [->|(d & ->)]; [exact Hne|]. destruct d; discriminate. }
  assert (Hbase : filepath.Base path = last (filepath.elements path) []).
  { unfold filepath.Base. rewrite Hstrip.
    destruct path; [contradiction|reflexivity]. }
  rewrite Hbase. destruct Hend as [->|(d & ->)].
  - rewrite (elements_plain _ Hns). reflexivity.
  - rewrite elements_app_separator, (elements_plain _ Hns).
    apply last_last.
Qed.

(** X3.  Where an image that [ExtractImageData] has named is saved.
    Whatever the templates and the configuration are, the last element
    ([filepath.Base]) of its file path and of its public address is its
    stored name: the name it came with decides the file name only, and
    never the directory.  These are the path and the address that
    [SaveImage] stores when it returns. *)
Theorem saved_image_ends_with_its_name :
  forall (E : Extern) (m : Mailpost.t) (relatedPost : Post.t)
         (origName : gostring),
    let name := stored_name E origName in
    filepath.Base (image_path E m relatedPost name) = name
    /\ filepath.Base (image_url E m relatedPost name) = name
    /\ forall j image m',
         nth_error (Mailpost.images m) j = Some image ->
         Image.Name image = name ->
         SaveImage E j relatedPost m = Done m' ->
         option_map (fun i => (Image.Path i, Image.URL i))
           (nth_error (Mailpost.images m') j)
         = Some (image_path E m relatedPost name,
                 image_url E m relatedPost name).
Proof.
  intros E m relatedPost origName name.
  assert (Hx : plain_element name).
  { apply plain_jpg_element; [apply stored_name_facts|].
    cbn. intuition discriminate. }
  split; [|split].
  - apply Base_ends_with; [exact Hx|]. unfold image_path.
    exact (Join_ends_with [image_dir E m relatedPost] name Hx).
  - apply Base_ends_with; [exact Hx|]. unfold image_url.
    exact (Join_ends_with
             [Config.BaseURL (Mailpost.config m);
              Config.ImagePath (Mailpost.config m);
              MakeDatePathPart E m (Post.Date relatedPost)] name Hx).
  - intros j image m' Hj Hname Hdone.
    destruct (SaveImage_Done_inv E j relatedPost m m' image Hj Hdone)
      as (img & _ & ->).
    cbn [saved Mailpost.images]. rewrite (update_same _ _ _ _ Hj).
    cbn [option_map Image.located Image.Path Image.URL]. rewrite Hname.
    reflexivity.
Qed.

Example saved_image_ex1 :
  let m := Sample.state
             {| Config.Server := []; Config.User := []; Config.Password := [];
                Config.ImageDir := go "static/<date>/../img/";
                Config.PostDir := []; Config.DatePathFmt := go "2006/01";
                Config.BaseURL := go "//example.com//";
                Config.ImagePath := go "./img/";
                Config.MaxImgWidth := 800; Config.PostFrom := [] |} [] [] in
  (image_path Sample.extern m (Sample.post (go "2015-03-04") [])
     (stored_name Sample.extern (go "../../etc/passwd")),
   image_url Sample.extern m (Sample.post (go "2015-03-04") [])
     (stored_name Sample.extern (go "../../etc/passwd")))
  = (go "static/2015/img/.._..jpg", go "/example.com/img/2015/03/.._..jpg").
Proof. reflexivity. Qed.

(* ================================================================= *)
(** ** The retrieval of remote images, as a whole *)

Lemma for_each_until_return_retrieved {A : Type} (Q : A -> Prop)
    (body : A -> Mailpost.t -> Outcome * bool) :
  (forall x m, Q x ->
     retrieved m (state_of (fst (body x m)))
     /\ forall m1, fst (body x m) <> Fatal m1) ->
  forall l m, Forall Q l ->
    retrieved m (state_of (fst (for_each_until_return l body m)))
    /\ forall m1, fst (for_each_until_return l body m) <> Fatal m1.
Proof.
  intros Hbody l. induction l as [|x l IH]; intros m Hl.
  - cbn. split; [apply retrieved_refl|discriminate].
  - cbn [for_each_until_return].
    destruct (Hbody x m (Forall_inv Hl)) as [Hr Hf].
    destruct (body x m) as [r b]. cbn [fst] in *.
    destruct r as [m1|m1|m1]; cbn [state_of] in Hr.
    + destruct b.
      * destruct (IH m1 (Forall_inv_tail Hl)) as [Hr2 Hf2].
        split; [exact (retrieved_trans _ _ _ Hr Hr2)|exact Hf2].
      * cbn. split; [exact Hr|discriminate].
    + exfalso. exact (Hf m1 eq_refl).
    + cbn. split; [exact Hr|discriminate].
Qed.

Lemma retrieve_one_retrieved (E : Extern) (url : gostring) (m : Mailpost.t) :
  is_remote url = true ->
  retrieved m (state_of (fst (retrieve_one E url m)))
  /\ forall m1, fst (retrieve_one E url m) <> Fatal m1.
Proof.
  intro Hurl.
  assert (Hasked : forall (m0 : Mailpost.t) (tail : list Event),
             Mailpost.config m0 = Mailpost.config m ->
             Mailpost.posts m0 = Mailpost.posts m ->
             Mailpost.images m0 = Mailpost.images m ->
             Mailpost.trace m0
             = Mailpost.trace m ++ LogImageURL url :: HttpGet url :: tail ->
             requested tail = [] ->
             Forall asking tail ->
             retrieved m m0).
  { intros m0 tail C P I T R Q. split; [exact C|]. split; [exact P|].
    exists [], [url], (LogImageURL url :: HttpGet url :: tail).
    rewrite I, T, app_nil_r, requested_app.
    cbn [requested]. rewrite R.
    split; [reflexivity|]. split; [constructor|].
    split; [reflexivity|]. split; [constructor; [exact Hurl|constructor]|].
    split; [cbn [length]; lia|]. split; [reflexivity|].
    constructor; [exact Logic.I|]. constructor; [exact Logic.I|exact Q]. }
  unfold retrieve_one. cbv zeta.
  destruct (http_Get E url) as [[reqImg|]|reqImg].
  - cbn [fst state_of]. split; [|discriminate].
    apply (Hasked _ [LogFetchError (http.StatusCode reqImg)]);
      try reflexivity.
    + cbn [Mailpost.emit Mailpost.trace]. rewrite <- !app_assoc.
      reflexivity.
    + constructor; [exact I|constructor].
  - cbn [fst state_of]. split; [|discriminate].
    apply (Hasked _ []); try reflexivity.
    + cbn [Mailpost.emit Mailpost.trace]. rewrite <- !app_assoc.
      reflexivity.
    + constructor.
  - destruct (http.StatusCode reqImg =? 200); cbn [negb].
    + destruct (url_Parse_Path E url) as [upath|].
      * cbn [fst state_of]. split; [|discriminate].
        rewrite ExtractImageData_stored_name.
        split; [reflexivity|]. split; [reflexivity|].
        eexists [_], [url], [LogImageURL url; HttpGet url].
        cbn [Mailpost.with_images Mailpost.emit Mailpost.images
             Mailpost.trace].
        split; [reflexivity|]. split.
        { constructor; [|constructor]. split; [|exact Hurl].
          split; [reflexivity|]. split; [reflexivity|].
          apply stored_name_facts. }
        rewrite <- app_assoc, requested_app. cbn [app requested].
        split; [reflexivity|].
        split; [constructor; [exact Hurl|constructor]|].
        split; [cbn [length]; lia|]. split; [reflexivity|].
        constructor; [exact I|]. constructor; [exact I|constructor].
      * cbn [fst state_of]. split; [|discriminate].
        apply (Hasked _ []); try reflexivity.
        { cbn [Mailpost.emit Mailpost.trace]. rewrite <- !app_assoc.
          reflexivity. }
        constructor.
    + cbn [fst state_of]. split; [|discriminate].
      apply (Hasked _ [LogFetchError (http.StatusCode reqImg)]);
        try reflexivity.
      * cbn [Mailpost.emit Mailpost.trace]. rewrite <- !app_assoc.
        reflexivity.
      * constructor; [exact I|constructor].
Qed.

Lemma reRemoteImg_captures_remote (body : gostring) :
  Forall (fun u => is_remote u = true)
    (map snd (FindAllStringSubmatch reRemoteImg body)).
Proof.
  apply Forall_forall. intros u Hu. apply FindAll_capture in Hu.
  destruct Hu as (t & left & H). apply reRemoteImg_capture in H.
  unfold is_remote. apply orb_true_iff.
  destruct H as [(w & ->)|(w & ->)]; [left|right];
    apply HasPrefix_true; exists w; reflexivity.
Qed.

Lemma RetrieveImages_retrieved :
  forall (E : Extern) (m : Mailpost.t),
    retrieved m (state_of (RetrieveImages E m))
    /\ forall m1, RetrieveImages E m <> Fatal m1.
Proof.
  intros E m. unfold RetrieveImages.
  apply (for_each_until_return_retrieved (fun _ => True)).
  - intros post m0 _.
    apply (for_each_until_return_retrieved (fun u => is_remote u = true)).
    + intros url m1 Hurl. apply retrieve_one_retrieved. exact Hurl.
    + apply reRemoteImg_captures_remote.
  - apply Forall_forall. intros; exact I.
Qed.

(** X4.  [RetrieveImages], however it ends.  It never exits through
    [log.Fatal]; it leaves the configuration and the posts as they are
    and only adds images at the end of the list.  Every address it asks
    for begins with [http://] or [https://]; every image it adds came
    from such an address, is not saved yet (no path, no public
    address), and has a name that ends in [.jpg]; it adds at most one
    image for each address asked for; and all it does outside is to ask
    for these addresses and to log: it writes no file. *)
Theorem RetrieveImages_only_adds_remote_images :
  forall (E : Extern) (m : Mailpost.t),
    retrieved m (state_of (RetrieveImages E m))
    /\ forall m1, RetrieveImages E m <> Fatal m1.
Proof. exact RetrieveImages_retrieved. Qed.

(* ================================================================= *)
(** ** The descent through the parts *)

Lemma HasPrefix_split (s p : gostring) :
  strings.HasPrefix s p = true -> s = p ++ skipn (length p) s.
Proof.
  intro H. apply HasPrefix_true in H. destruct H as (t & ->).
  rewrite skipn_app, skipn_all, Nat.sub_diag. reflexivity.
Qed.

(** X5.  How [ExtractAttachment] sorts the parts.  An image type is
    neither multipart nor text.  Every type that begins with
    [multipart/alternative] is multipart, which is tested first: such a
    part is always descended into and never read as a text, so that the
    only types read as text are those that begin with [text/plain]. *)
Theorem parts_are_sorted_multipart_first :
  forall (E : Extern) (contentType : gostring),
    (HasImage contentType = true ->
     HasMultipart contentType = false /\ HasText contentType = false)
    /\ (strings.HasPrefix contentType (go "multipart/alternative") = true ->
        HasMultipart contentType = true
        /\ forall fileName base64 text sub rest m,
             ExtractAttachment E
               (Next (mkPart contentType fileName base64 text sub) rest) m
             = ExtractAttachment E sub m >>= ExtractAttachment E rest)
    /\ (HasMultipart contentType = false ->
        HasText contentType
        = strings.HasPrefix contentType (go "text/plain")).
Proof.
  intros E contentType. split; [|split].
  - unfold HasImage. intro H. apply orb_true_iff in H.
    destruct H as [H|H]; apply HasPrefix_split in H; rewrite H;
      split; reflexivity.
  - intro H.
    assert (Hm : HasMultipart contentType = true).
    { apply HasPrefix_split in H. rewrite H. reflexivity. }
    split; [exact Hm|]. intros. cbn [ExtractAttachment]. rewrite Hm.
    reflexivity.
  - intro Hm. unfold HasText.
    destruct (strings.HasPrefix contentType (go "multipart/alternative"))
      eqn:Ha; [|apply orb_false_r].
    apply HasPrefix_split in Ha. unfold HasMultipart in Hm.
    rewrite Ha in Hm. discriminate Hm.
Qed.

Lemma parts_are_sorted_multipart_first_witness :
  HasMultipart (go "image/png; name=a") = false
  /\ HasText (go "image/png; name=a") = false.
Proof.
  apply (proj1 (parts_are_sorted_multipart_first Sample.extern
                  (go "image/png; name=a"))).
  reflexivity.
Defined.

(** The events of the collectors: a directory made, a text skipped. *)
Definition quiet (e : Event) : Prop :=
  match e with
  | MkdirAll _ | LogSkippingPost => True
  | _ => False
  end.

(** What the descent does to the state: the configuration stays; images
    and posts are added at the end, the images as attachments (no
    address they came from) and not saved yet, the posts under a file
    name of [[a-z0-9_.]+]; nothing is written but directories. *)
Definition collected (m m' : Mailpost.t) : Prop :=
  Mailpost.config m' = Mailpost.config m
  /\ exists images posts events,
       Mailpost.images m' = Mailpost.images m ++ images
       /\ Mailpost.posts m' = Mailpost.posts m ++ posts
       /\ Mailpost.trace m' = Mailpost.trace m ++ events
       /\ Forall (fun i => unsaved i /\ Image.OrigURL i = []) images
       /\ Forall (fun p => matches_class_plus (Post.File p) = true) posts
       /\ Forall quiet events.

Lemma collected_refl (m : Mailpost.t) : collected m m.
Proof.
  split; [reflexivity|]. exists [], [], []. rewrite !app_nil_r.
  repeat split; constructor.
Qed.

Lemma collected_trans (m m1 m2 : Mailpost.t) :
  collected m m1 -> collected m1 m2 -> collected m m2.
Proof.
  intros (C1 & i1 & p1 & e1 & I1 & P1 & T1 & FI1 & FP1 & FE1)
         (C2 & i2 & p2 & e2 & I2 & P2 & T2 & FI2 & FP2 & FE2).
  split; [congruence|]. exists (i1 ++ i2), (p1 ++ p2), (e1 ++ e2).
  rewrite I2, I1, P2, P1, T2, T1, <- !app_assoc.
  repeat split; apply Forall_app; auto.
Qed.

Lemma md_file_in_class (E : Extern) (title : gostring) :
  matches_class_plus (SanitizeFilename E title ++ go ".md") = true.
Proof.
  unfold matches_class_plus. rewrite forallb_app, SanitizeFilename_map.
  replace (forallb in_class (map (sanitize_rune (case_table E)) title))
    with true.
  - destruct (map _ title); reflexivity.
  - symmetry. apply forallb_forall. intros c Hc. apply in_map_iff in Hc.
    destruct Hc as (c0 & <- & _). apply sanitize_rune_in_class.
Qed.

Lemma ExtractPostData_collected (E : Extern) (text : gostring)
    (m : Mailpost.t) :
  collected m (state_of (ExtractPostData E text m))
  /\ forall m1, ExtractPostData E text m <> Panic m1.
Proof.
  unfold ExtractPostData, MakePostPath.
  destruct (yaml_Unmarshal E text) as [t|]; cbv zeta.
  - destruct (os_MkdirAll E _); cbn [state_of]; (split; [|discriminate]).
    + split; [reflexivity|]. eexists [], [_], [_].
      cbn [Mailpost.with_posts Mailpost.emit Mailpost.images Mailpost.posts
           Mailpost.trace]. rewrite app_nil_r.
      repeat split; try constructor; try constructor.
      cbn [Post.with_Path Post.File]. apply md_file_in_class.
    + split; [reflexivity|]. eexists [], [], [_].
      cbn [Mailpost.emit Mailpost.images Mailpost.posts Mailpost.trace].
      rewrite !app_nil_r. repeat split; try constructor; constructor.
  - cbn [state_of]. split; [|discriminate].
    split; [reflexivity|]. eexists [], [], [_].
    cbn [Mailpost.emit Mailpost.images Mailpost.posts Mailpost.trace].
    rewrite !app_nil_r. repeat split; try constructor; constructor.
Qed.

Lemma ExtractImageData_attached_collected (E : Extern)
    (fileName : gostring) (data : bytes) (m : Mailpost.t) :
  collected m (ExtractImageData E (Image.attached fileName data) m).
Proof.
  rewrite ExtractImageData_stored_name. split; [reflexivity|].
  eexists [_], [], [].
  cbn [Mailpost.with_images Mailpost.images Mailpost.posts Mailpost.trace].
  rewrite !app_nil_r.
  split; [reflexivity|]. split; [reflexivity|]. split; [reflexivity|].
  split; [|split; constructor].
  constructor; [|constructor]. split; [|reflexivity].
  split; [reflexivity|]. split; [reflexivity|].
  cbn [Image.Name]. apply stored_name_facts.
Qed.

Lemma and_then_collected (r : Outcome) (k : Mailpost.t -> Outcome)
    (m : Mailpost.t) :
  (collected m (state_of r) /\ forall m1, r <> Panic m1) ->
  (forall m0, collected m0 (state_of (k m0)) /\ forall m1, k m0 <> Panic m1) ->
  collected m (state_of (r >>= k)) /\ forall m1, r >>= k <> Panic m1.
Proof.
  intros [Hr Hp] Hk. destruct r as [m0|m0|m0]; cbn [and_then state_of] in *.
  - destruct (Hk m0) as [Hk1 Hk2].
    split; [exact (collected_trans _ _ _ Hr Hk1)|exact Hk2].
  - split; [exact Hr|discriminate].
  - exfalso. exact (Hp m0 eq_refl).
Qed.

Lemma ExtractAttachment_collected :
  forall (E : Extern) (r : Stream) (m : Mailpost.t),
    collected m (state_of (ExtractAttachment E r m))
    /\ forall m1, ExtractAttachment E r m <> Panic m1.
Proof.
  intros E r.
  induction r using Stream_ind2 with
    (P := fun p => match p with
                   | mkPart _ _ _ _ sub =>
                       forall m,
                         collected m (state_of (ExtractAttachment E sub m))
                         /\ forall m1, ExtractAttachment E sub m <> Panic m1
                   end).
  - exact IHr.
  - intro m. cbn. split; [apply collected_refl|discriminate].
  - intro m. cbn. split; [apply collected_refl|discriminate].
  - intro m. destruct p as [contentType fileName base64 text sub].
    cbn [ExtractAttachment]. apply and_then_collected; [|exact IHr0].
    destruct (HasMultipart contentType); [apply IHr|].
    destruct (HasImage contentType).
    { cbn [state_of]. split; [|discriminate].
      apply ExtractImageData_attached_collected. }
    destruct (HasText contentType).
    + destruct (snd text).
      * cbn. split; [apply collected_refl|discriminate].
      * apply ExtractPostData_collected.
    + cbn. split; [apply collected_refl|discriminate].
Qed.

(** X6.  [ExtractAttachment], however it ends.  It never panics (it
    returns, or exits through [log.Fatal]); it leaves the configuration
    as it is and only adds images and posts at the end of the lists;
    every image it adds is an attachment (no address it came from) that
    is not saved yet, with a name that ends in [.jpg]; every post it
    adds has a file name of [[a-z0-9_.]+]; and it writes no file: it
    only makes directories and logs the texts it skips. *)
Theorem ExtractAttachment_only_collects :
  forall (E : Extern) (r : Stream) (m : Mailpost.t),
    collected m (state_of (ExtractAttachment E r m))
    /\ forall m1, ExtractAttachment E r m <> Panic m1.
Proof. exact ExtractAttachment_collected. Qed.

(* ================================================================= *)
(** ** The empty locator *)

(** X7.  An attachment has no address it came from ([OrigURL] is
    empty), and the resolver compares a locator with the name and with
    that address: the empty locator, as [()] after the brackets gives
    it, refers to every attachment.  The image is saved, and its
    address, replacing the first occurrence of the empty text, is put
    in front of the body of the post. *)
Theorem empty_locator_refers_to_every_attachment :
  forall (E : Extern) (p j : nat) (m : Mailpost.t) (image : Image.t)
         (post : Post.t) (img : Img E),
    nth_error (Mailpost.images m) j = Some image ->
    nth_error (Mailpost.posts m) p = Some post ->
    Image.OrigURL image = [] ->
    os_MkdirAll E (image_dir E m post) = true ->
    image_Decode E (Image.Data image) = Some img ->
    os_Create E (image_path E m post (Image.Name image)) = true ->
    refers_to image [] = true
    /\ exists m',
         resolve E p [] j m = Done m'
         /\ length (saved_files j (Mailpost.trace m'))
            = S (length (saved_files j (Mailpost.trace m)))
         /\ option_map Post.Data (nth_error (Mailpost.posts m') p)
            = Some (image_url E m post (Image.Name image) ++ Post.Data post).
Proof.
  intros E p j m image post img Hj Hp Hurl Hmk Hdec Hcr.
  assert (Hyes : refers_to image [] = true).
  { unfold refers_to. rewrite Hurl. apply orb_true_r. }
  split; [exact Hyes|]. eexists. split; [apply resolve_match; eassumption|].
  cbn [Mailpost.with_posts Mailpost.trace Mailpost.posts saved]. split.
  - rewrite saved_files_app, length_app. cbn [saved_files].
    rewrite Nat.eqb_refl. cbn [length]. lia.
  - rewrite (update_same _ _ _ _ Hp).
    cbn [option_map Post.with_Data Post.Data]. f_equal.
    apply (Replace_first _ [] _ [] (Post.Data post)).
    split; [reflexivity|]. intros; cbn [length]; lia.
Qed.

Lemma empty_locator_refers_to_every_attachment_witness :
  exists m',
    resolve Sample.extern 0 [] 0
      (Sample.state Sample.config
         [Sample.stored (go "apple.jpg") (go "apple.jpg") [Byte.x01]]
         [Sample.post (go "2015-03-04") (go "![nothing]()")])
    = Done m'
    /\ option_map Post.Data (nth_error (Mailpost.posts m') 0)
       = Some (go "http:/example.com/img/2015/03/apple.jpg![nothing]()").
Proof.
  destruct (proj2 (empty_locator_refers_to_every_attachment Sample.extern
                     0%nat 0%nat
                     (Sample.state Sample.config
                        [Sample.stored (go "apple.jpg") (go "apple.jpg")
                           [Byte.x01]]
                        [Sample.post (go "2015-03-04") (go "![nothing]()")])
                     (Sample.stored (go "apple.jpg") (go "apple.jpg")
                        [Byte.x01])
                     (Sample.post (go "2015-03-04") (go "![nothing]()"))
                     10%Z eq_refl eq_refl eq_refl eq_refl eq_refl eq_refl))
    as (m' & Hrun & _ & Hdata).
  exists m'. split; [exact Hrun|exact Hdata].
Defined.

(** The pattern does capture the empty locator. *)
Example empty_locator_ex1 :
  map snd (FindAllStringSubmatch reMdImg (go "![nothing]()")) = [go ""].
Proof. reflexivity. Qed.

(* ================================================================= *)
(** ** The files of the posts *)

(** The posts written, with what was written, in the order of the
    trace. *)
Fixpoint posts_written (trace : list Event) : list (list Z * list Z) :=
  match trace with
  | [] => []
  | SavedPost path data :: trace' => (path, data) :: posts_written trace'
  | _ :: trace' => posts_written trace'
  end.

Lemma posts_written_app (t1 t2 : list Event) :
  posts_written (t1 ++ t2) = posts_written t1 ++ posts_written t2.
Proof.
  induction t1 as [|e t1 IH]; [reflexivity|].
  destruct e; cbn [app posts_written]; try exact IH. f_equal. exact IH.
Qed.

(** What the resolver never changes in a post. *)
Definition heading (p : Post.t) :=
  (Post.Title p, Post.Date p, Post.Type_ p, Post.File p, Post.Path p,
   Post.URL p).

(** The file that [WritePostToFile] writes for a post. *)
Definition file_of (p : Post.t) : list Z * list Z :=
  (filepath.Join [Post.Path p; Post.File p], Post.Data p).

Lemma for_each_preserves {A : Type} (R : Mailpost.t -> Mailpost.t -> Prop)
    (body : A -> Mailpost.t -> Outcome) :
  (forall m, R m m) ->
  (forall a b c, R a b -> R b c -> R a c) ->
  (forall x m m1, body x m = Done m1 -> R m m1) ->
  forall l m m', for_each l body m = Done m' -> R m m'.
Proof.
  intros Hrefl Htrans Hbody l. induction l as [|x l IH]; intros m m' H.
  - cbn [for_each] in H. injection H as <-. apply Hrefl.
  - cbn [for_each] in H. apply and_then_Done_inv in H.
    destruct H as (m1 & Hx & Hl).
    exact (Htrans _ _ _ (Hbody x m m1 Hx) (IH m1 m' Hl)).
Qed.

(** The rounds of the resolver write no post and keep the headings. *)
Definition resolving (m m' : Mailpost.t) : Prop :=
  posts_written (Mailpost.trace m') = posts_written (Mailpost.trace m)
  /\ map heading (Mailpost.posts m') = map heading (Mailpost.posts m).

Lemma map_heading_update (l : list Post.t) (p : nat) (post : Post.t)
    (data : gostring) :
  nth_error l p = Some post ->
  map heading (update l p (Post.with_Data post data)) = map heading l.
Proof.
  revert p. induction l as [|x l IH]; intros [|p] H; cbn in *;
    try discriminate H; try reflexivity.
  - injection H as ->. reflexivity.
  - f_equal. apply IH. exact H.
Qed.

Lemma resolve_Done_inv (E : Extern) (p : nat) (loc : gostring) (j : nat)
    (m m' : Mailpost.t) :
  resolve E p loc j m = Done m' ->
  exists image post,
    nth_error (Mailpost.images m) j = Some image
    /\ nth_error (Mailpost.posts m) p = Some post
    /\ ((refers_to image loc = false /\ m' = m)
        \/ (refers_to image loc = true
            /\ exists img,
                 m' = Mailpost.with_posts (saved E j post m image img)
                        (update (Mailpost.posts m) p
                           (Post.with_Data post
                              (strings.Replace (Post.Data post) loc
                                 (image_url E m post (Image.Name image))
                                 1))))).
Proof.
  unfold resolve.
  destruct (nth_error (Mailpost.images m) j) as [image|] eqn:Hj;
    [|discriminate].
  destruct (nth_error (Mailpost.posts m) p) as [post|] eqn:Hp;
    [|discriminate].
  fold (refers_to image loc). intro H. exists image, post.
  split; [reflexivity|]. split; [reflexivity|].
  destruct (refers_to image loc).
  - right. split; [reflexivity|].
    apply and_then_Done_inv in H. destruct H as (m1 & Hs & H).
    destruct (SaveImage_Done_inv E j post m m1 image Hj Hs)
      as (img & _ & ->).
    cbn [saved Mailpost.images Mailpost.posts] in H.
    rewrite (update_same _ _ _ _ Hj), Hp in H. injection H as <-.
    exists img. reflexivity.
  - left. split; [reflexivity|]. congruence.
Qed.

Lemma resolving_refl (m : Mailpost.t) : resolving m m.
Proof. split; reflexivity. Qed.

Lemma resolving_trans (a b c : Mailpost.t) :
  resolving a b -> resolving b c -> resolving a c.
Proof. intros [W1 H1] [W2 H2]. split; congruence. Qed.

Lemma resolve_resolving (E : Extern) (p : nat) (loc : gostring) (j : nat)
    (m m' : Mailpost.t) :
  resolve E p loc j m = Done m' -> resolving m m'.
Proof.
  intro H. apply resolve_Done_inv in H.
  destruct H as (image & post & Hj & Hp & [[_ ->]|(_ & img & ->)]).
  - apply resolving_refl.
  - split.
    + cbn [Mailpost.with_posts Mailpost.trace saved].
      rewrite posts_written_app. cbn [posts_written]. apply app_nil_r.
    + cbn [Mailpost.with_posts Mailpost.posts].
      apply map_heading_update. exact Hp.
Qed.

Lemma resolve_matches_resolving (E : Extern) (p : nat)
    (matches : list (gostring * gostring)) (m m' : Mailpost.t) :
  resolve_matches E p matches m = Done m' -> resolving m m'.
Proof.
  unfold resolve_matches.
  apply (for_each_preserves resolving _ resolving_refl resolving_trans).
  intros mt m0 m1.
  apply (for_each_preserves resolving _ resolving_refl resolving_trans).
  intros j m2 m3. apply resolve_resolving.
Qed.

Lemma WritePostToFile_Done_inv (E : Extern) (postInfo : Post.t)
    (m m' : Mailpost.t) :
  WritePostToFile E postInfo m = Done m' ->
  m' = Mailpost.emit m
         (SavedPost (filepath.Join [Post.Path postInfo; Post.File postInfo])
            (Post.Data postInfo)).
Proof.
  unfold WritePostToFile.
  destruct (os_Create E _); cbn [negb]; [|discriminate].
  destruct (io_Copy E _); cbn [negb]; [|discriminate].
  intro H. injection H as <-. reflexivity.
Qed.

Definition file_at (posts : list Post.t) (p : nat) : list Z * list Z :=
  match nth_error posts p with
  | Some post => file_of post
  | None => ([], [])
  end.

Lemma replace_in_post_writes (E : Extern) (p : nat) (m m' : Mailpost.t) :
  replace_in_post E p m = Done m' ->
  posts_written (Mailpost.trace m')
  = posts_written (Mailpost.trace m) ++ [file_at (Mailpost.posts m') p]
  /\ map heading (Mailpost.posts m') = map heading (Mailpost.posts m).
Proof.
  unfold replace_in_post.
  destruct (nth_error (Mailpost.posts m) p) as [post|]; [|discriminate].
  cbv zeta. intro H.
  apply and_then_Done_inv in H. destruct H as (m3 & H & Hw).
  apply and_then_Done_inv in H. destruct H as (m2 & H & H3).
  apply and_then_Done_inv in H. destruct H as (m1 & H1 & H2).
  apply resolve_matches_resolving in H1, H2, H3.
  destruct (resolving_trans _ _ _ (resolving_trans _ _ _ H1 H2) H3)
    as [W Hh].
  destruct (nth_error (Mailpost.posts m3) p) as [post3|] eqn:Hp3;
    [|discriminate Hw].
  apply WritePostToFile_Done_inv in Hw. subst m'.
  cbn [Mailpost.emit Mailpost.trace Mailpost.posts].
  rewrite posts_written_app, W. unfold file_at. rewrite Hp3.
  split; [reflexivity|exact Hh].
Qed.

Lemma replace_in_posts_writes (E : Extern) (l : list nat) :
  NoDup l ->
  forall m m',
    for_each l (replace_in_post E) m = Done m' ->
    posts_written (Mailpost.trace m')
    = posts_written (Mailpost.trace m)
      ++ map (file_at (Mailpost.posts m')) l
    /\ map heading (Mailpost.posts m') = map heading (Mailpost.posts m).
Proof.
  induction 1 as [|p l Hp Hl IH]; intros m m' H.
  - cbn [for_each] in H. injection H as <-. cbn [map].
    rewrite app_nil_r. split; reflexivity.
  - cbn [for_each] in H. apply and_then_Done_inv in H.
    destruct H as (m1 & H1 & H2).
    apply replace_in_post_writes in H1. destruct H1 as [W1 Hh1].
    pose proof (replace_in_posts_effect E l Hl m1 m' H2)
      as (_ & _ & _ & Hstay & _).
    destruct (IH m1 m' H2) as [W2 Hh2].
    split; [|congruence].
    rewrite W2, W1, <- app_assoc. cbn [map app]. do 2 f_equal.
    unfold file_at. rewrite (Hstay p Hp). reflexivity.
Qed.

Lemma map_file_at (posts : list Post.t) :
  map (file_at posts) (seq 0 (length posts)) = map file_of posts.
Proof.
  induction posts as [|post posts IH]; [reflexivity|].
  cbn [length seq map]. f_equal. rewrite <- seq_shift, map_map.
  exact IH.
Qed.

Lemma ReplaceImageRefs_writes :
  forall (E : Extern) (m m' : Mailpost.t),
    ReplaceImageRefs E m = Done m' ->
    posts_written (Mailpost.trace m')
    = posts_written (Mailpost.trace m) ++ map file_of (Mailpost.posts m')
    /\ map heading (Mailpost.posts m') = map heading (Mailpost.posts m)
    /\ length (Mailpost.posts m') = length (Mailpost.posts m).
Proof.
  intros E m m' H. unfold ReplaceImageRefs in H.
  apply replace_in_posts_writes in H; [|apply seq_NoDup].
  destruct H as [W Hh].
  assert (Hlen : length (Mailpost.posts m') = length (Mailpost.posts m)).
  { rewrite <- (length_map heading (Mailpost.posts m')), Hh.
    apply length_map. }
  split; [|split; assumption].
  rewrite W, <- Hlen, map_file_at. reflexivity.
Qed.

(** X8.  The files of the posts.  In a pass of [ReplaceImageRefs] that
    returns, every post has been written once, in the order of the
    list, to [filepath.Join(Path, File)], and what was written is the
    body that the post has at the end of the pass; the pass changes
    nothing of a post but its body, and the number of posts stays. *)
Theorem ReplaceImageRefs_writes_every_post_once :
  forall (E : Extern) (m m' : Mailpost.t),
    ReplaceImageRefs E m = Done m' ->
    posts_written (Mailpost.trace m')
    = posts_written (Mailpost.trace m) ++ map file_of (Mailpost.posts m')
    /\ map heading (Mailpost.posts m') = map heading (Mailpost.posts m)
    /\ length (Mailpost.posts m') = length (Mailpost.posts m).
Proof. exact ReplaceImageRefs_writes. Qed.

Lemma ReplaceImageRefs_writes_every_post_once_witness :
  exists m',
    ReplaceImageRefs Sample.extern
      (Sample.state Sample.config
         [Sample.stored (go "apple.jpg") (go "apple.jpg") [Byte.x01]]
         [Sample.post (go "2015-03-04") (go "![An apple](apple.jpg)");
          Sample.post (go "2016-05-06") (go "no image here")])
    = Done m'
    /\ posts_written (Mailpost.trace m')
       = [] ++ map file_of (Mailpost.posts m').
Proof.
  eexists. split; [vm_compute; reflexivity|].
  apply (ReplaceImageRefs_writes_every_post_once Sample.extern
           (Sample.state Sample.config
              [Sample.stored (go "apple.jpg") (go "apple.jpg") [Byte.x01]]
              [Sample.post (go "2015-03-04") (go "![An apple](apple.jpg)");
               Sample.post (go "2016-05-06") (go "no image here")])).
  vm_compute. reflexivity.
Defined.

(* ================================================================= *)
(** ** What the resolver leaves alone *)

(** None of the texts [locs] refers to the image of key [K[k]]. *)
Definition unhit (K : list (list Z * list Z)) (k : nat)
    (locs : list gostring) : Prop :=
  forall loc, In loc locs -> hit K k loc = 0%nat.

(** The rounds of the resolver for the texts [locs]: an image that
    none of the texts refers to stays as it is and is not saved, and
    if the texts refer to no image at all, the posts stay as well. *)
Definition spares (locs : list gostring) (m m' : Mailpost.t) : Prop :=
  map key (Mailpost.images m') = map key (Mailpost.images m)
  /\ (forall k, unhit (map key (Mailpost.images m)) k locs ->
        nth_error (Mailpost.images m') k = nth_error (Mailpost.images m) k
        /\ saved_files k (Mailpost.trace m')
           = saved_files k (Mailpost.trace m))
  /\ ((forall k, unhit (map key (Mailpost.images m)) k locs) ->
      Mailpost.posts m' = Mailpost.posts m).

Lemma spares_refl (locs : list gostring) (m : Mailpost.t) : spares locs m m.
Proof. repeat split. Qed.

Lemma spares_trans (locs : list gostring) (a b c : Mailpost.t) :
  spares locs a b -> spares locs b c -> spares locs a c.
Proof.
  intros (K1 & I1 & P1) (K2 & I2 & P2). rewrite K1 in I2, P2.
  split; [congruence|]. split.
  - intros k Hk. destruct (I1 k Hk) as [A1 B1].
    destruct (I2 k Hk) as [A2 B2]. split; congruence.
  - intro Hk. rewrite (P2 Hk). exact (P1 Hk).
Qed.

Lemma spares_incl (locs locs' : list gostring) (m m' : Mailpost.t) :
  incl locs locs' -> spares locs m m' -> spares locs' m m'.
Proof.
  intros Hi (K & I & P). split; [exact K|]. split.
  - intros k Hk. apply I. intros loc Hloc. apply Hk, Hi, Hloc.
  - intro Hk. apply P. intros k loc Hloc. apply Hk, Hi, Hloc.
Qed.

Lemma for_each_preserves_in {A : Type}
    (R : Mailpost.t -> Mailpost.t -> Prop)
    (body : A -> Mailpost.t -> Outcome) (l : list A) :
  (forall m, R m m) ->
  (forall a b c, R a b -> R b c -> R a c) ->
  (forall x m m1, In x l -> body x m = Done m1 -> R m m1) ->
  forall m m', for_each l body m = Done m' -> R m m'.
Proof.
  intros Hrefl Htrans. induction l as [|x l IH]; intros Hbody m m' H.
  - cbn [for_each] in H. injection H as <-. apply Hrefl.
  - cbn [for_each] in H. apply and_then_Done_inv in H.
    destruct H as (m1 & Hx & Hl).
    refine (Htrans _ _ _ (Hbody x m m1 (or_introl eq_refl) Hx) _).
    apply IH; [|exact Hl].
    intros y m2 m3 Hy. apply Hbody. right. exact Hy.
Qed.

Lemma resolve_spares (E : Extern) (p : nat) (loc : gostring) (j : nat)
    (m m' : Mailpost.t) :
  resolve E p loc j m = Done m' -> spares [loc] m m'.
Proof.
  intro H. apply resolve_Done_inv in H.
  destruct H as (image & post & Hj & Hp & [[_ ->]|(Hr & img & ->)]).
  - apply spares_refl.
  - assert (Hhit : hit (map key (Mailpost.images m)) j loc = 1%nat)
      by (rewrite (hit_image _ _ _ loc Hj), Hr; reflexivity).
    unfold spares.
    cbn [Mailpost.with_posts Mailpost.images Mailpost.posts Mailpost.trace
         saved].
    split; [apply map_key_update; exact Hj|]. split.
    + intros k Hk. destruct (Nat.eqb_spec j k) as [<-|Hne].
      * rewrite (Hk loc (or_introl eq_refl)) in Hhit. discriminate Hhit.
      * split; [apply update_other; exact Hne|].
        rewrite saved_files_app. cbn [saved_files].
        destruct (Nat.eqb_spec j k) as [Heq|_]; [contradiction|].
        apply app_nil_r.
    + intro Hk. rewrite (Hk j loc (or_introl eq_refl)) in Hhit.
      discriminate Hhit.
Qed.

Lemma resolve_matches_spares (E : Extern) (p : nat)
    (matches : list (gostring * gostring)) (m m' : Mailpost.t) :
  resolve_matches E p matches m = Done m' ->
  spares (map snd matches) m m'.
Proof.
  unfold resolve_matches.
  apply (for_each_preserves_in (spares (map snd matches)) _ matches
           (spares_refl _) (spares_trans _)).
  intros mt m0 m1 Hin H.
  apply (spares_incl [snd mt]).
  - intros x [<-|[]]. apply in_map. exact Hin.
  - revert H.
    apply (for_each_preserves (spares [snd mt]) _
             (spares_refl _) (spares_trans _)).
    intros j m2 m3. apply resolve_spares.
Qed.

Lemma replace_in_post_spares (E : Extern) (p : nat) (m m' : Mailpost.t) :
  replace_in_post E p m = Done m' ->
  spares (captures (data_at (Mailpost.posts m) p)) m m'.
Proof.
  unfold replace_in_post, data_at.
  destruct (nth_error (Mailpost.posts m) p) as [post|]; [|discriminate].
  cbv zeta. intro H.
  apply and_then_Done_inv in H. destruct H as (m3 & H & Hw).
  apply and_then_Done_inv in H. destruct H as (m2 & H & H3).
  apply and_then_Done_inv in H. destruct H as (m1 & H1 & H2).
  apply resolve_matches_spares in H1, H2, H3.
  set (locs := captures (Post.Data post)).
  assert (S1 : spares locs m m1).
  { revert H1. apply spares_incl. intros x Hx. unfold locs, captures.
    apply in_or_app. left. exact Hx. }
  assert (S2 : spares locs m1 m2).
  { revert H2. apply spares_incl. intros x Hx. unfold locs, captures.
    apply in_or_app. right. apply in_or_app. left. exact Hx. }
  assert (S3 : spares locs m2 m3).
  { revert H3. apply spares_incl. intros x Hx. unfold locs, captures.
    apply in_or_app. right. apply in_or_app. right. exact Hx. }
  assert (S4 : spares locs m3 m').
  { destruct (nth_error (Mailpost.posts m3) p); [|discriminate Hw].
    apply WritePostToFile_Done_inv in Hw. subst m'. unfold spares.
    cbn [Mailpost.emit Mailpost.images Mailpost.posts Mailpost.trace].
    repeat split. rewrite saved_files_app. apply app_nil_r. }
  exact (spares_trans _ _ _ _
           (spares_trans _ _ _ _ (spares_trans _ _ _ _ S1 S2) S3) S4).
Qed.

Lemma replace_in_posts_spare_image (E : Extern) (l : list nat) :
  NoDup l ->
  forall m m' k,
    for_each l (replace_in_post E) m = Done m' ->
    (forall p, In p l ->
       unhit (map key (Mailpost.images m)) k
         (captures (data_at (Mailpost.posts m) p))) ->
    nth_error (Mailpost.images m') k = nth_error (Mailpost.images m) k
    /\ saved_files k (Mailpost.trace m') = saved_files k (Mailpost.trace m).
Proof.
  induction 1 as [|p l Hp Hl IH]; intros m m' k H Hun.
  - cbn [for_each] in H. injection H as <-. split; reflexivity.
  - cbn [for_each] in H. apply and_then_Done_inv in H.
    destruct H as (m1 & H1 & H2).
    destruct (replace_in_post_spares E p m m1 H1) as (K1 & I1 & _).
    destruct (replace_in_post_effect E p m m1 H1) as (_ & _ & _ & P1 & _).
    destruct (I1 k (Hun p (or_introl eq_refl))) as [A B].
    destruct (IH m1 m' k H2) as [A' B'].
    { intros q Hq. rewrite K1. unfold data_at. rewrite P1.
      - apply Hun. right. exact Hq.
      - intros ->. contradiction. }
    split; congruence.
Qed.

Lemma replace_in_posts_spare_post (E : Extern) (l : list nat) :
  NoDup l ->
  forall m m' p,
    for_each l (replace_in_post E) m = Done m' ->
    In p l ->
    (forall k, unhit (map key (Mailpost.images m)) k
                 (captures (data_at (Mailpost.posts m) p))) ->
    nth_error (Mailpost.posts m') p = nth_error (Mailpost.posts m) p.
Proof.
  induction 1 as [|q l Hq Hl IH]; intros m m' p H Hin Hun.
  - destruct Hin.
  - cbn [for_each] in H. apply and_then_Done_inv in H.
    destruct H as (m1 & H1 & H2).
    destruct (replace_in_post_spares E q m m1 H1) as (K1 & _ & S1).
    destruct (replace_in_post_effect E q m m1 H1) as (_ & _ & _ & P1 & _).
    destruct (Nat.eq_dec q p) as [->|Hne].
    + destruct (replace_in_posts_effect E l Hl m1 m' H2)
        as (_ & _ & _ & Hstay & _).
      rewrite (Hstay p Hq), (S1 Hun). reflexivity.
    + destruct Hin as [Heq|Hin]; [contradiction|].
      rewrite <- (P1 p Hne). apply (IH m1 m' p H2 Hin).
      intro k. rewrite K1. unfold data_at. rewrite (P1 p Hne).
      apply Hun.
Qed.

(** The state before the two witnesses below: two attachments, the
    second with bytes that do not decode, and two posts, of which the
    first shows the first attachment and the second shows none. *)
Definition two_posts : Mailpost.t :=
  Sample.state Sample.config
    [Sample.stored (go "apple.jpg") (go "apple.jpg") [Byte.x01];
     Sample.stored (go "pear.jpg") (go "pear.jpg") [Byte.x02]]
    [Sample.post (go "2015-03-04") (go "![An apple](apple.jpg)");
     Sample.post (go "2016-05-06") (go "no image here")].

(** X9.  What [ReplaceImageRefs] does not look at.  An image that no
    text captured in the body of any post refers to (by its name or its
    address) is, after a pass that returns, exactly as it was before,
    its path and its public address too, and no file has been saved
    for it. *)
Theorem unreferenced_image_is_left_alone :
  forall (E : Extern) (m m' : Mailpost.t) (j : nat) (image : Image.t),
    ReplaceImageRefs E m = Done m' ->
    nth_error (Mailpost.images m) j = Some image ->
    (forall post loc,
        In post (Mailpost.posts m) ->
        In loc (captures (Post.Data post)) ->
        refers_to image loc = false) ->
    nth_error (Mailpost.images m') j = Some image
    /\ saved_files j (Mailpost.trace m') = saved_files j (Mailpost.trace m).
Proof.
  intros E m m' j image H Hj Hun. unfold ReplaceImageRefs in H.
  rewrite <- Hj.
  apply (replace_in_posts_spare_image E _ (seq_NoDup _ _) m m' j H).
  intros p Hp loc Hloc. rewrite (hit_image _ _ _ loc Hj).
  unfold data_at in Hloc.
  destruct (nth_error (Mailpost.posts m) p) as [post|] eqn:Hpost.
  - rewrite (Hun post loc (nth_error_In _ _ Hpost) Hloc). reflexivity.
  - apply nth_error_None in Hpost. apply in_seq in Hp. lia.
Qed.

Lemma unreferenced_image_is_left_alone_witness :
  exists m',
    ReplaceImageRefs Sample.extern two_posts = Done m'
    /\ nth_error (Mailpost.images m') 1
       = Some (Sample.stored (go "pear.jpg") (go "pear.jpg") [Byte.x02])
    /\ saved_files 1 (Mailpost.trace m')
       = saved_files 1 (Mailpost.trace two_posts).
Proof.
  eexists. split; [vm_compute; reflexivity|].
  apply (unreferenced_image_is_left_alone Sample.extern two_posts).
  - vm_compute. reflexivity.
  - reflexivity.
  - intros post loc [<-|[<-|[]]] Hloc; vm_compute in Hloc.
    + destruct Hloc as [<-|[]]. reflexivity.
    + destruct Hloc.
Defined.

(** X10.  A post that shows no image of the run.  If no text captured
    in the body of a post refers to any image, then a pass of
    [ReplaceImageRefs] that returns leaves the post as it was, and has
    written it, with this body, to [filepath.Join(Path, File)]. *)
Theorem post_without_reference_is_written_as_it_is :
  forall (E : Extern) (m m' : Mailpost.t) (p : nat) (post : Post.t),
    ReplaceImageRefs E m = Done m' ->
    nth_error (Mailpost.posts m) p = Some post ->
    (forall image loc,
        In image (Mailpost.images m) ->
        In loc (captures (Post.Data post)) ->
        refers_to image loc = false) ->
    nth_error (Mailpost.posts m') p = Some post
    /\ In (file_of post) (posts_written (Mailpost.trace m')).
Proof.
  intros E m m' p post H Hp Hun. unfold ReplaceImageRefs in H.
  assert (Hp' : nth_error (Mailpost.posts m') p = Some post).
  { rewrite <- Hp.
    apply (replace_in_posts_spare_post E _ (seq_NoDup _ _) m m' p H).
    - apply in_seq. split; [lia|]. cbn [Nat.add].
      apply nth_error_Some. rewrite Hp. discriminate.
    - intros k loc Hloc. unfold data_at in Hloc. rewrite Hp in Hloc.
      unfold hit. rewrite nth_error_map.
      destruct (nth_error (Mailpost.images m) k) as [image|] eqn:Hk;
        [|reflexivity].
      cbn [option_map]. fold (refers_to image loc).
      change (key_refers (key image) loc) with (refers_to image loc).
      rewrite (Hun image loc (nth_error_In _ _ Hk) Hloc). reflexivity. }
  split; [exact Hp'|].
  apply replace_in_posts_writes in H; [|apply seq_NoDup].
  destruct H as [W Hh]. rewrite W. apply in_or_app. right.
  assert (Hlen : length (Mailpost.posts m') = length (Mailpost.posts m)).
  { rewrite <- (length_map heading (Mailpost.posts m')), Hh.
    apply length_map. }
  rewrite <- Hlen, map_file_at. apply in_map.
  exact (nth_error_In _ _ Hp').
Qed.

Lemma post_without_reference_is_written_as_it_is_witness :
  exists m',
    ReplaceImageRefs Sample.extern two_posts = Done m'
    /\ nth_error (Mailpost.posts m') 1
       = Some (Sample.post (go "2016-05-06") (go "no image here"))
    /\ In (file_of (Sample.post (go "2016-05-06") (go "no image here")))
         (posts_written (Mailpost.trace m')).
Proof.
  eexists. split; [vm_compute; reflexivity|].
  apply (post_without_reference_is_written_as_it_is Sample.extern
           two_posts).
  - vm_compute. reflexivity.
  - reflexivity.
  - intros image loc _ Hloc. vm_compute in Hloc. destruct Hloc.
Defined.

(* ================================================================= *)
(** ** Several images on one line *)

(** The text [t] does not go on with a rune of the class [p]. *)
Definition stops (p : rune -> bool) (t : gostring) : Prop :=
  match t with
  | [] => True
  | c :: _ => p c = false
  end.

Lemma greedy_stop (p : rune -> bool)
    (k : gostring -> option (gostring * gostring)) (t : gostring) :
  stops p t -> greedy p k t = k t.
Proof.
  destruct t as [|c t]; cbn [stops greedy]; [reflexivity|].
  intros ->. reflexivity.
Qed.

Lemma greedy_None (p : rune -> bool)
    (k : gostring -> option (gostring * gostring)) (v t : gostring) :
  forallb p v = true -> stops p t ->
  (forall a b, v = a ++ b -> k (b ++ t) = None) ->
  greedy p k (v ++ t) = None.
Proof.
  induction v as [|c v IH]; intros Hv Ht Hk.
  - cbn [app]. rewrite (greedy_stop p k t Ht). exact (Hk [] [] eq_refl).
  - cbn [forallb] in Hv. apply andb_true_iff in Hv. destruct Hv as [Hc Hv].
    cbn [app greedy]. rewrite Hc. rewrite IH.
    + exact (Hk [] (c :: v) eq_refl).
    + exact Hv.
    + exact Ht.
    + intros a b ->. exact (Hk (c :: a) b eq_refl).
Qed.

(** The greedy loop ends at the last place where the rest of the
    pattern matches. *)
Lemma greedy_last (p : rune -> bool)
    (k : gostring -> option (gostring * gostring)) (w v t : gostring)
    (r : gostring * gostring) :
  forallb p w = true -> forallb p v = true -> stops p t ->
  k (v ++ t) = Some r ->
  (forall a b, v = a ++ b -> a <> [] -> k (b ++ t) = None) ->
  greedy p k (w ++ v ++ t) = Some r.
Proof.
  intros Hw Hv Ht Hr Hk. induction w as [|c w IH].
  - cbn [app]. destruct v as [|c v].
    + cbn [app] in *. rewrite (greedy_stop p k t Ht). exact Hr.
    + cbn [forallb] in Hv. apply andb_true_iff in Hv.
      destruct Hv as [Hc Hv]. cbn [app greedy]. rewrite Hc.
      rewrite (greedy_None p k v t Hv Ht); [exact Hr|].
      intros a b ->. apply (Hk (c :: a) b eq_refl). discriminate.
  - cbn [forallb] in Hw. apply andb_true_iff in Hw. destruct Hw as [Hc Hw].
    cbn [app greedy]. rewrite Hc, (IH Hw). reflexivity.
Qed.

Lemma greedy_last_end (p : rune -> bool)
    (k : gostring -> option (gostring * gostring)) (w v : gostring)
    (r : gostring * gostring) :
  forallb p w = true -> forallb p v = true ->
  k v = Some r ->
  (forall a b, v = a ++ b -> a <> [] -> k b = None) ->
  greedy p k (w ++ v) = Some r.
Proof.
  intros Hw Hv Hr Hk. rewrite <- (app_nil_r v).
  apply greedy_last; try assumption.
  - exact I.
  - rewrite app_nil_r. exact Hr.
  - intros a b Hab Ha. rewrite app_nil_r. exact (Hk a b Hab Ha).
Qed.


Lemma run_Lit_cons (c : rune) (re : list inst) (cs : caps) (s : gostring) :
  run (Cls (Z.eqb c) :: re) cs (c :: s) = run re cs s.
Proof. cbn [run]. rewrite Z.eqb_refl. reflexivity. Qed.

Lemma run_Lit_other (c : rune) (re : list inst) (cs : caps) (s : gostring) :
  match s with [] => True | x :: _ => x <> c end ->
  run (Cls (Z.eqb c) :: re) cs s = None.
Proof.
  destruct s as [|x s]; cbn [run]; [reflexivity|].
  intro H. destruct (Z.eqb_spec c x) as [->|_]; [contradiction|reflexivity].
Qed.

Lemma run_Open (re : list inst) (cs : caps) (s : gostring) :
  run (Open :: re) cs s = run re {| opened := s; group := group cs |} s.
Proof. reflexivity. Qed.

Lemma firstn_opened (y s : gostring) :
  firstn (length (y ++ s) - length s) (y ++ s) = y.
Proof.
  rewrite length_app, Nat.add_sub, firstn_app, firstn_all, Nat.sub_diag.
  cbn [firstn]. apply app_nil_r.
Qed.







(* ================================================================= *)
(** ** The messages of the inbox

    The loop of [FetchMails] over the responses of the fetch.  The
    IMAP commands around it are the server's and are not modelled. *)

(** The pattern of the sender: [<], the group of a greedy [.*], [>]. *)
Definition reAngle : Regexp :=
  {| first := Z.eqb 60; rest := [Open; Star any; Close; Lit 62] |}.

(** [FindStringSubmatch]: the leftmost match, as the pair of the text
    matched and of the text of group 1; [None] is the nil slice. *)
Fixpoint FindStringSubmatch (re : Regexp) (s : gostring)
    : option (gostring * gostring) :=
  match s with
  | [] => None
  | _ :: s' =>
      match match_at re s with
      | Some (g, remaining) =>
          Some (firstn (length s - length remaining) s, g)
      | None => FindStringSubmatch re s'
      end
  end.

(** A message that [mail.ReadMessage] has read.  Of it the program
    uses the [From] header, the media type of the [Content-Type] header
    (empty when [mime.ParseMediaType] fails), and the body, read in one
    of two ways: as a multipart body, or through the quoted-printable
    decoder (the text that [ioutil.ReadAll] returns, and whether it met
    an error). *)
Module Message.
Record t := {
  From_ : gostring;
  contentType : gostring;
  parts : Stream;
  text : gostring * bool
}.
End Message.

Section Inbox.

Variable E : Extern.

(** The sender that [FetchMails] works out of the [From] header. *)
Definition sender (from : gostring) : gostring :=
  let fromAddr := strings.ToLower (case_table E) from in
  match FindStringSubmatch reAngle fromAddr with
  | Some (_, g) => g      (* len(matches) > 1 *)
  | None => fromAddr
  end.

(** The body of the loop over the responses: [None] is a response whose
    body [mail.ReadMessage] could not read.  The [err] that the source
    tests after [mime.ParseMediaType] is the error of [UIDFetch], which
    is nil when the loop is reached; the two lines logged for each
    message are not kept in the trace. *)
Definition fetch_message (rsp : option Message.t) (m : Mailpost.t)
    : Outcome :=
  match rsp with
  | None => Done m
  | Some msg =>
      let contentType := Message.contentType msg in
      let fromAddr := sender (Message.From_ msg) in
      let PostFrom := Config.PostFrom (Mailpost.config m) in
      if is_empty PostFrom
         || gostring_eqb (strings.ToLower (case_table E) PostFrom) fromAddr
      then
        if HasMultipart contentType then
          ExtractAttachment E (Message.parts msg) m
        else if HasText contentType then
          (if snd (Message.text msg) then Done m
           else ExtractPostData E (fst (Message.text msg)) m)
        else Done m
      else Done m
  end.

(** The responses of the fetch, in the order in which they come. *)
Definition fetch_messages (rsps : list (option Message.t))
    (m : Mailpost.t) : Outcome :=
  for_each rsps fetch_message m.

End Inbox.

Example sender_ex1 :
  sender Sample.extern (go "Del Putnam <Del@Putnams.net>")
  = go "del@putnams.net".
Proof. reflexivity. Qed.
Example sender_ex2 :
  sender Sample.extern (go "Del@Putnams.net") = go "del@putnams.net".
Proof. reflexivity. Qed.
Example sender_ex3 :
  sender Sample.extern (go "a <x@y>, b <z@w>") = go "x@y>, b <z@w".
Proof. reflexivity. Qed.

Lemma run_Close (re : list inst) (cs : caps) (s : gostring) :
  run (Close :: re) cs s = run re (close_group cs s) s.
Proof. reflexivity. Qed.

Lemma match_at_reAngle (addr post : gostring) :
  forallb any addr = true -> forallb any post = true -> ~ In 62 post ->
  match_at reAngle (60 :: addr ++ 62 :: post) = Some (addr, post).
Proof.
  intros Ha Hp H62. unfold match_at, reAngle, Lit. cbn [first rest].
  rewrite run_Lit_cons, run_Open, run_Star. cbn [group].
  apply (greedy_last_end any _ addr (62 :: post)).
  - exact Ha.
  - cbn [forallb]. rewrite Hp. reflexivity.
  - rewrite run_Close, run_Lit_cons. cbn [run close_group opened group].
    rewrite (firstn_opened addr (62 :: post)). reflexivity.
  - intros a b Hv Hne. rewrite run_Close. apply run_Lit_other.
    destruct a as [|x a]; [contradiction|]. cbn [app] in Hv.
    injection Hv as _ Hv.
    destruct b as [|c b]; [exact I|].
    intros ->. apply H62. rewrite Hv. apply in_or_app. right. left.
    reflexivity.
Qed.

Lemma FindStringSubmatch_reAngle (pre addr post : gostring) :
  ~ In 60 pre ->
  forallb any addr = true -> forallb any post = true -> ~ In 62 post ->
  FindStringSubmatch reAngle (pre ++ 60 :: addr ++ 62 :: post)
  = Some (60 :: addr ++ [62], addr).
Proof.
  intros H60 Ha Hp H62. induction pre as [|c pre IH].
  - cbn [app FindStringSubmatch].
    rewrite (match_at_reAngle addr post Ha Hp H62). f_equal. f_equal.
    replace (60 :: addr ++ 62 :: post) with ((60 :: addr ++ [62]) ++ post)
      by (cbn [app]; rewrite <- app_assoc; reflexivity).
    apply firstn_opened.
  - cbn [app FindStringSubmatch].
    replace (match_at reAngle (c :: pre ++ 60 :: addr ++ 62 :: post))
      with (@None (gostring * gostring)).
    + apply IH. intro H. apply H60. right. exact H.
    + symmetry. unfold match_at, reAngle. cbn [first rest].
      apply run_Lit_other. intros ->. apply H60. left. reflexivity.
Qed.

Lemma FindStringSubmatch_reAngle_none (s : gostring) :
  ~ In 60 s -> FindStringSubmatch reAngle s = None.
Proof.
  induction s as [|c s IH]; intro H60; [reflexivity|].
  cbn [FindStringSubmatch].
  replace (match_at reAngle (c :: s)) with (@None (gostring * gostring)).
  - apply IH. intro H. apply H60. right. exact H.
  - symmetry. unfold match_at, reAngle. cbn [first rest].
    apply run_Lit_other. intros ->. apply H60. left. reflexivity.
Qed.

(** A state that takes posts from one sender only, and a message of
    another sender that would give a post. *)
Definition guarded : Mailpost.t :=
  Sample.state
    {| Config.Server := go "imap.example.com:993";
       Config.User := go "u";
       Config.Password := go "p";
       Config.ImageDir := go "/site/static/img/<date>";
       Config.PostDir := go "/site/content/<type>/<date>";
       Config.DatePathFmt := go "2006/01";
       Config.BaseURL := go "http://example.com";
       Config.ImagePath := go "img";
       Config.MaxImgWidth := 800;
       Config.PostFrom := go "Del@Putnams.net" |}
    [] [].

Definition eve : Message.t :=
  {| Message.From_ := go "Eve@Evil.example";
     Message.contentType := go "text/plain";
     Message.parts := EOF;
     Message.text := (Sample.text_untitled, false) |}.

(** X12.  The sender of a message.  [FetchMails] puts the [From] header
    in lower case; if what it gets has a first [<], and the text after
    it is one line with a [>] in it, the sender is the text between
    this [<] and the last [>]; if it has no [<] at all, the sender is
    the whole header in lower case.  Whatever the header is, a message
    whose sender is not the configured [PostFrom], put in lower case
    too, is passed over: the state stays as it is, no image and no post
    is taken from it. *)
Theorem sender_is_between_the_angle_brackets :
  forall (E : Extern),
    (forall (from pre addr post : gostring),
        strings.ToLower (case_table E) from
        = pre ++ go "<" ++ addr ++ go ">" ++ post ->
        ~ In 60 pre ->
        forallb any addr = true ->
        forallb any post = true ->
        ~ In 62 post ->
        sender E from = addr)
    /\ (forall (from : gostring),
          ~ In 60 (strings.ToLower (case_table E) from) ->
          sender E from = strings.ToLower (case_table E) from)
    /\ (forall (msg : Message.t) (m : Mailpost.t),
          Config.PostFrom (Mailpost.config m) <> [] ->
          strings.ToLower (case_table E) (Config.PostFrom (Mailpost.config m))
          <> sender E (Message.From_ msg) ->
          fetch_message E (Some msg) m = Done m).
Proof.
  intro E. split; [|split].
  - intros from pre addr post Hfrom H60 Ha Hp H62.
    unfold sender. cbv zeta. rewrite Hfrom.
    change (go "<") with [60]. change (go ">") with [62]. cbn [app].
    rewrite (FindStringSubmatch_reAngle pre addr post H60 Ha Hp H62).
    reflexivity.
  - intros from H60. unfold sender. cbv zeta.
    rewrite (FindStringSubmatch_reAngle_none _ H60). reflexivity.
  - intros msg m Hne Hother. unfold fetch_message. cbv zeta.
    destruct (Config.PostFrom (Mailpost.config m)) as [|c l] eqn:HP;
      [contradiction|].
    cbn [is_empty orb].
    apply gostring_eqb_neq in Hother. rewrite Hother. reflexivity.
Qed.

Lemma sender_is_between_the_angle_brackets_witness :
  sender Sample.extern (go "Del Putnam <Del@Putnams.net>")
  = go "del@putnams.net"
  /\ sender Sample.extern (go "Eve@Evil.example") = go "eve@evil.example"
  /\ fetch_message Sample.extern (Some eve) guarded = Done guarded.
Proof.
  pose proof (sender_is_between_the_angle_brackets Sample.extern)
    as (Hangle & Hplain & Hother).
  split; [|split].
  - apply (Hangle (go "Del Putnam <Del@Putnams.net>") (go "del putnam ")
             (go "del@putnams.net") []).
    + reflexivity.
    + vm_compute. intuition discriminate.
    + reflexivity.
    + reflexivity.
    + intros [].
  - apply (Hplain (go "Eve@Evil.example")).
    vm_compute. intuition discriminate.
  - apply (Hother eve guarded).
    + discriminate.
    + vm_compute. discriminate.
Defined.

Lemma fetch_messages_collected :
  forall (E : Extern) (rsps : list (option Message.t)) (m : Mailpost.t),
    collected m (state_of (fetch_messages E rsps m))
    /\ forall m1, fetch_messages E rsps m <> Panic m1.
Proof.
  intros E rsps. unfold fetch_messages.
  induction rsps as [|rsp rsps IH]; intro m.
  - cbn. split; [apply collected_refl|discriminate].
  - cbn [for_each]. apply and_then_collected; [|exact IH].
    destruct rsp as [msg|];
      [|cbn; split; [apply collected_refl|discriminate]].
    unfold fetch_message. cbv zeta.
    destruct (is_empty _ || gostring_eqb _ _);
      [|cbn; split; [apply collected_refl|discriminate]].
    destruct (HasMultipart _); [apply ExtractAttachment_collected|].
    destruct (HasText _);
      [|cbn; split; [apply collected_refl|discriminate]].
    destruct (snd _);
      [cbn; split; [apply collected_refl|discriminate]|].
    apply ExtractPostData_collected.
Qed.

(** X13.  The loop of [FetchMails] over the messages, however it ends.
    It never panics; it leaves the configuration as it is and only
    adds images and posts at the end of the lists, the images as
    attachments that are not saved yet and the posts under a file name
    of [[a-z0-9_.]+]; it writes no file: it only makes directories and
    logs the texts it skips. *)
Theorem fetch_messages_only_collects :
  forall (E : Extern) (rsps : list (option Message.t)) (m : Mailpost.t),
    collected m (state_of (fetch_messages E rsps m))
    /\ forall m1, fetch_messages E rsps m <> Panic m1.
Proof. exact fetch_messages_collected. Qed.

(* ================================================================= *)
(** ** A pass of [main]

    The steps of the loop of [main] between [Connect] and [Logout], on
    the responses that the server delivers.  The state is the one that
    [main] makes before its loop: without [-once], a pass begins with
    the images and the posts of the passes before it. *)

Definition pass (E : Extern) (rsps : list (option Message.t))
    (m : Mailpost.t) : Outcome :=
  fetch_messages E rsps m >>= RetrieveImages E >>= ReplaceImageRefs E.

Lemma quiet_writes_no_post (events : list Event) :
  Forall quiet events -> posts_written events = [].
Proof.
  induction 1 as [|e events He _ IH]; [reflexivity|].
  destruct e; try contradiction; exact IH.
Qed.

Lemma asking_writes_no_post (events : list Event) :
  Forall asking events -> posts_written events = [].
Proof.
  induction 1 as [|e events He _ IH]; [reflexivity|].
  destruct e; try contradiction; exact IH.
Qed.

(** X14.  The posts of earlier passes.  Nothing in the loop of [main]
    empties the list of the posts: a pass that returns has kept every
    post that the state began with (all of it but its body), has added
    the posts of its messages after them, and has written all of them,
    the earlier ones again, each once and in the order of the list. *)
Theorem pass_writes_earlier_posts_again :
  forall (E : Extern) (rsps : list (option Message.t)) (m m' : Mailpost.t),
    pass E rsps m = Done m' ->
    (exists new,
        map heading (Mailpost.posts m')
        = map heading (Mailpost.posts m) ++ map heading new)
    /\ posts_written (Mailpost.trace m')
       = posts_written (Mailpost.trace m) ++ map file_of (Mailpost.posts m').
Proof.
  intros E rsps m m' H. unfold pass in H.
  apply and_then_Done_inv in H. destruct H as (m2 & H & H3).
  apply and_then_Done_inv in H. destruct H as (m1 & H1 & H2).
  pose proof (proj1 (fetch_messages_collected E rsps m)) as C.
  rewrite H1 in C. cbn [state_of] in C.
  destruct C as (_ & images & posts & events & _ & P1 & T1 & _ & _ & Q1).
  pose proof (proj1 (RetrieveImages_retrieved E m1)) as R.
  rewrite H2 in R. cbn [state_of] in R.
  destruct R as (_ & P2 & new & asked & events2 & _ & _ & _ & _ & _ & T2 & Q2).
  destruct (ReplaceImageRefs_writes E m2 m' H3) as (W & Hh & _).
  split.
  - exists posts. rewrite Hh, P2, P1. apply map_app.
  - rewrite W, T2, T1, !posts_written_app.
    rewrite (quiet_writes_no_post events Q1).
    rewrite (asking_writes_no_post events2 Q2).
    rewrite !app_nil_r. reflexivity.
Qed.

Lemma pass_writes_earlier_posts_again_witness :
  exists m',
    pass Sample.extern [] two_posts = Done m'
    /\ (exists new,
          map heading (Mailpost.posts m')
          = map heading (Mailpost.posts two_posts) ++ map heading new)
    /\ posts_written (Mailpost.trace m')
       = posts_written (Mailpost.trace two_posts)
         ++ map file_of (Mailpost.posts m').
Proof.
  eexists. split; [vm_compute; reflexivity|].
  apply (pass_writes_earlier_posts_again Sample.extern [] two_posts).
  vm_compute. reflexivity.
Defined.

(* ================================================================= *)
(** ** The names of the posts *)

Lemma md_file_plain_element (E : Extern) (title : gostring) :
  plain_element (SanitizeFilename E title ++ go ".md").
Proof.
  repeat split.
  - destruct (SanitizeFilename E title); discriminate.
  - intro H. apply in_app_or in H. destruct H as [H|H].
    + rewrite SanitizeFilename_map in H. apply in_map_iff in H.
      destruct H as (c & Hc & _).
      pose proof (sanitize_rune_in_class (case_table E) c) as Hin.
      rewrite Hc in Hin. discriminate Hin.
    + cbn in H. intuition discriminate.
  - unfold filepath.is_dot. apply gostring_eqb_neq. intro H.
    apply (f_equal (@length Z)) in H. rewrite length_app in H.
    cbn [length go map list_ascii_of_string] in H. lia.
  - unfold filepath.is_dotdot. apply gostring_eqb_neq. intro H.
    apply (f_equal (@length Z)) in H. rewrite length_app in H.
    cbn [length go map list_ascii_of_string] in H. lia.
Qed.

(** X15.  Where a post is written.  A text that [yaml.Unmarshal]
    rejects adds no post.  Otherwise [ExtractPostData], when it
    returns, has added one post, with the text as its body, under the
    file name that [SanitizeFilename] makes of the title, followed by
    [.md]; it has made the directory of the post; and the last element
    ([filepath.Base]) of the path that [WritePostToFile] writes the
    post to is that file name: the title decides the name of the file
    only, and never its directory. *)
Theorem post_is_written_under_its_file_name :
  forall (E : Extern) (text : gostring) (m m' : Mailpost.t),
    ExtractPostData E text m = Done m' ->
    match yaml_Unmarshal E text with
    | None => Mailpost.posts m' = Mailpost.posts m
    | Some t =>
        exists post,
          Mailpost.posts m' = Mailpost.posts m ++ [post]
          /\ Post.Data post = text
          /\ Post.File post
             = SanitizeFilename E (FrontMatter.Title t) ++ go ".md"
          /\ filepath.Base (fst (file_of post)) = Post.File post
          /\ In (MkdirAll (Post.Path post)) (Mailpost.trace m')
    end.
Proof.
  intros E text m m'. unfold ExtractPostData, MakePostPath.
  destruct (yaml_Unmarshal E text) as [t|]; cbv zeta.
  - destruct (os_MkdirAll E _); [|discriminate].
    intro H. injection H as <-. eexists. split; [reflexivity|].
    cbn [Post.with_Path Post.Data Post.File Post.Path file_of fst
         Mailpost.with_posts Mailpost.emit Mailpost.trace].
    split; [reflexivity|]. split; [reflexivity|]. split.
    + apply Base_ends_with; [apply md_file_plain_element|].
      exact (Join_ends_with [_] _ (md_file_plain_element E _)).
    + apply in_or_app. right. left. reflexivity.
  - intro H. injection H as <-. reflexivity.
Qed.

Lemma post_is_written_under_its_file_name_witness :
  exists m',
    ExtractPostData Sample.extern Sample.text_untitled Sample.start = Done m'
    /\ match yaml_Unmarshal Sample.extern Sample.text_untitled with
       | None => Mailpost.posts m' = Mailpost.posts Sample.start
       | Some t =>
           exists post,
             Mailpost.posts m' = Mailpost.posts Sample.start ++ [post]
             /\ Post.Data post = Sample.text_untitled
             /\ Post.File post
                = SanitizeFilename Sample.extern (FrontMatter.Title t)
                  ++ go ".md"
             /\ filepath.Base (fst (file_of post)) = Post.File post
             /\ In (MkdirAll (Post.Path post)) (Mailpost.trace m')
       end.
Proof.
  eexists. split; [vm_compute; reflexivity|].
  apply (post_is_written_under_its_file_name Sample.extern
           Sample.text_untitled Sample.start).
  vm_compute. reflexivity.
Defined.
